(** * fix_mhtml_imge.py: repairing image references of an MHTML archive

    A shallow embedding of [fix_mhtml_image_references] (src/fix_mhtml_imge.py)
    and of the Python library functions it calls, followed by the properties
    of the program.

    Conventions.
    - A Python [bytes] value is a [list byte]; a Python [str] is a list of
      code points ([list N]).
    - Python's [re] is a backtracking matcher: the patterns of the script are
      written as lists of [item]s and run by [exec], which explores the
      alternatives in the priority order of [re] (greedy first).
    - The file system and [uuid.uuid4] are the environment [env] of a run.
    - Paths follow [posixpath]. *)

From Stdlib Require Import String Ascii NArith Arith Lia Bool List.
From Stdlib Require Import Strings.Byte.
Import ListNotations.
Open Scope string_scope.
Open Scope list_scope.

(* ================================================================== *)
(** * Bytes *)

Module Bytes.

Definition bytes := list byte.

(** A bytes literal. *)
Definition b (s : string) : bytes := list_byte_of_string s.

Definition CR : byte := x0d.
Definition LF : byte := x0a.
Definition TAB : byte := x09.
Definition VT : byte := x0b.
Definition FF : byte := x0c.
Definition SP : byte := x20.
Definition DQUOTE : byte := x22.
Definition SQUOTE : byte := x27.
Definition CRLF : bytes := [CR; LF].

Definition is_byte (c x : byte) : bool := Byte.eqb x c.

(** [s.startswith(p)] *)
Fixpoint startswith (p s : bytes) : bool :=
  match p, s with
  | [], _ => true
  | _ :: _, [] => false
  | c :: p', x :: s' => Byte.eqb c x && startswith p' s'
  end.

(** [s.endswith(p)] *)
Definition endswith (p s : bytes) : bool := startswith (rev p) (rev s).

(** [s.find(p)]: the index of the first occurrence, if any. *)
Fixpoint find (p s : bytes) : option nat :=
  if startswith p s then Some 0
  else match s with
       | [] => None
       | _ :: s' => option_map S (find p s')
       end.

(** [p in s] *)
Definition contains (p s : bytes) : bool :=
  match find p s with Some _ => true | None => false end.

(** [s[i:j]] for [0 <= i], [0 <= j]. *)
Definition slice (i j : nat) (s : bytes) : bytes := firstn (j - i) (skipn i s).

(** [s.split(sep)] for a non-empty [sep]: cut at the leftmost occurrence and
    go on after it.  The recursion is on a bound on the number of cuts;
    [length s] cuts are never exceeded, see [split_fuel_enough]. *)
Fixpoint split_fuel (n : nat) (sep s : bytes) : list bytes :=
  match n with
  | 0 => [s]
  | S n' =>
      match find sep s with
      | None => [s]
      | Some i => firstn i s :: split_fuel n' sep (skipn (i + length sep) s)
      end
  end.

Definition split (sep s : bytes) : list bytes := split_fuel (length s) sep s.

(** ASCII white space of [bytes.strip()] and of [\s] in a bytes pattern. *)
Definition is_space (x : byte) : bool :=
  is_byte SP x || is_byte TAB x || is_byte LF x || is_byte CR x || is_byte VT x || is_byte FF x.

Fixpoint lstrip (s : bytes) : bytes :=
  match s with
  | x :: s' => if is_space x then lstrip s' else s
  | [] => []
  end.

(** [s.strip()] *)
Definition strip (s : bytes) : bytes := rev (lstrip (rev (lstrip s))).

(** [bytes.lower] on one byte: only A-Z change. *)
Definition lower1 (x : byte) : byte :=
  let n := Byte.to_N x in
  if ((65 <=? n) && (n <=? 90))%N
  then match Byte.of_N (n + 32) with Some y => y | None => x end
  else x.

Definition lower (s : bytes) : bytes := map lower1 s.

Fixpoint beqb (s t : bytes) : bool :=
  match s, t with
  | [], [] => true
  | x :: s', y :: t' => Byte.eqb x y && beqb s' t'
  | _, _ => false
  end.

End Bytes.
Import Bytes.

(* ================================================================== *)
(** * Regular expressions, as Python's [re] runs them on bytes *)

Module Re.

(** The constructs the patterns of the script use.  A repetition always
    repeats a one-byte class, so a pattern is a flat list; [Open g] and
    [Close g] are the parentheses of group [g]. *)
Inductive item :=
| One (p : byte -> bool)      (* a literal byte or a class *)
| Opt (p : byte -> bool)      (* x?  greedy *)
| Star (p : byte -> bool)     (* x*  greedy *)
| Plus (p : byte -> bool)     (* x+  greedy *)
| Open (g : nat)
| Close (g : nat)
| Backref (g : nat).          (* \g *)

Definition regex := list item.

(** Where each group started and ended, most recent first. *)
Definition caps := list (nat * (nat * nat)).

Fixpoint group (c : caps) (g : nat) : option (nat * nat) :=
  match c with
  | [] => None
  | (g', se) :: c' => if Nat.eqb g g' then Some se else group c' g
  end.

Definition open_group (g pos : nat) (c : caps) : caps := (g, (pos, pos)) :: c.

Definition close_group (g pos : nat) (c : caps) : caps :=
  match group c g with
  | Some (s, _) => (g, (s, pos)) :: c
  | None => c
  end.

(** The rest of the match: remaining input, position, groups. *)
Definition cont := bytes -> nat -> caps -> option (nat * caps).

(** Greedy repetition: as many bytes of the class as possible, giving one
    back at a time while the rest of the pattern fails. *)
Fixpoint greedy (p : byte -> bool) (k : cont) (s : bytes) (pos : nat) (c : caps)
  : option (nat * caps) :=
  match s with
  | x :: s' =>
      if p x then
        match greedy p k s' (S pos) c with
        | Some r => Some r
        | None => k s pos c
        end
      else k s pos c
  | [] => k s pos c
  end.

(** [exec inp r s pos c]: match [r] against [s], the input from [pos] on.
    The result is the end of the match and the groups. *)
Fixpoint exec (inp : bytes) (r : regex) : cont :=
  match r with
  | [] => fun _ pos c => Some (pos, c)
  | it :: rest =>
      let k := exec inp rest in
      match it with
      | One p => fun s pos c =>
          match s with
          | x :: s' => if p x then k s' (S pos) c else None
          | [] => None
          end
      | Opt p => fun s pos c =>
          match s with
          | x :: s' =>
              if p x then
                match k s' (S pos) c with
                | Some res => Some res
                | None => k s pos c
                end
              else k s pos c
          | [] => k s pos c
          end
      | Star p => greedy p k
      | Plus p => fun s pos c =>
          match s with
          | x :: s' => if p x then greedy p k s' (S pos) c else None
          | [] => None
          end
      | Open g => fun s pos c => k s pos (open_group g pos c)
      | Close g => fun s pos c => k s pos (close_group g pos c)
      | Backref g => fun s pos c =>
          match group c g with
          | Some (i, j) =>
              let w := slice i j inp in
              if startswith w s then k (skipn (length w) s) (pos + length w) c
              else None
          | None => None
          end
      end
  end.

(** A match: start, end, groups. *)
Definition rmatch := (nat * nat * caps)%type.

Fixpoint search_from (inp : bytes) (r : regex) (s : bytes) (pos : nat)
  : option rmatch :=
  match exec inp r s pos [] with
  | Some (e, c) => Some (pos, e, c)
  | None =>
      match s with
      | [] => None
      | _ :: s' => search_from inp r s' (S pos)
      end
  end.

(** [re.search(r, inp)]: the leftmost match. *)
Definition search (r : regex) (inp : bytes) : option rmatch :=
  search_from inp r inp 0.

(** [m.group(g)] for a group that took part in the match. *)
Definition group_bytes (inp : bytes) (m : rmatch) (g : nat) : bytes :=
  match group (snd m) g with
  | Some (i, j) => slice i j inp
  | None => []
  end.

(** [m.group(0)] *)
Definition matched (inp : bytes) (m : rmatch) : bytes :=
  slice (fst (fst m)) (snd (fst m)) inp.

(** A literal byte under [re.IGNORECASE] (bytes patterns fold ASCII only). *)
Definition ci (c : byte) : byte -> bool := fun x => Byte.eqb (lower1 x) (lower1 c).

(** A literal string under [re.IGNORECASE]. *)
Definition lit_ci (s : string) : regex := map (fun c => One (ci c)) (b s).

(** A literal string, case-sensitive. *)
Definition lit (s : string) : regex := map (fun c => One (is_byte c)) (b s).

(** [[^...]] *)
Definition none_of (l : list byte) : byte -> bool :=
  fun x => negb (existsb (Byte.eqb x) l).

End Re.
Import Re.

(** ** [re.sub] *)

Module Sub.

(** A replacement template, parsed: literal bytes and group references. *)
Inductive titem :=
| TLit (s : bytes)
| TGroup (g : nat).

Definition expand (inp : bytes) (m : rmatch) (t : list titem) : bytes :=
  concat (map (fun i => match i with
                        | TLit s => s
                        | TGroup g => group_bytes inp m g
                        end) t).

(** [re.sub(r, template, inp, count=1)] *)
Definition sub1 (r : regex) (t : list titem) (inp : bytes) : bytes :=
  match search r inp with
  | None => inp
  | Some m =>
      firstn (fst (fst m)) inp ++ expand inp m t ++ skipn (snd (fst m)) inp
  end.

(** [re.sub(r, f, inp)] with a function [f] that may raise: every leftmost
    non-overlapping match is replaced by what [f] returns for it.  The
    patterns of the script match no empty string, so the scan resumes at the
    end of each match; [n] bounds the number of matches. *)
Fixpoint sub_all_fuel (n : nat) (r : regex) (f : bytes -> option bytes)
  (inp : bytes) : option bytes :=
  match n with
  | 0 => Some inp
  | S n' =>
      match search r inp with
      | None => Some inp
      | Some m =>
          match f (matched inp m) with
          | None => None
          | Some t =>
              match sub_all_fuel n' r f (skipn (snd (fst m)) inp) with
              | None => None
              | Some rest => Some (firstn (fst (fst m)) inp ++ t ++ rest)
              end
          end
      end
  end.

Definition sub_all (r : regex) (f : bytes -> option bytes) (inp : bytes)
  : option bytes :=
  sub_all_fuel (length inp) r f inp.

End Sub.
Import Sub.

(** ** The patterns of the script *)

Module Pat.

Definition GT : byte := x3e.
Definition LT : byte := x3c.
Definition EQUALS : byte := x3d.

(** [boundary=Q([^Q]+)Q] where [Q] is the double quote, IGNORECASE
    (line 67) *)
Definition BOUNDARY : regex :=
  lit_ci "boundary=" ++
  [One (is_byte DQUOTE); Open 1; Plus (none_of [DQUOTE]); Close 1;
   One (is_byte DQUOTE)].

(** [Content-Location: ?([^\r\n]+)], IGNORECASE (line 95) *)
Definition LOCATION : regex :=
  lit_ci "Content-Location:" ++
  [Opt (is_byte SP); Open 1; Plus (none_of [CR; LF]); Close 1].

(** [Content-ID: ?<([^>]+)>], IGNORECASE (line 120) *)
Definition CONTENT_ID : regex :=
  lit_ci "Content-ID:" ++
  [Opt (is_byte SP); One (is_byte LT); Open 1; Plus (none_of [GT]); Close 1;
   One (is_byte GT)].

(** [Content-ID: ?<[^>]+>], IGNORECASE (line 127) *)
Definition CONTENT_ID_SUB : regex :=
  lit_ci "Content-ID:" ++
  [Opt (is_byte SP); One (is_byte LT); Plus (none_of [GT]); One (is_byte GT)].

(** [(Content-Location: ?[^\r\n]+)], IGNORECASE (line 132) *)
Definition LOCATION_SUB : regex :=
  [Open 1] ++ lit_ci "Content-Location:" ++
  [Opt (is_byte SP); Plus (none_of [CR; LF]); Close 1].

(** [Content-Transfer-Encoding: ?([^\r\n]+)], IGNORECASE (line 141) *)
Definition ENCODING : regex :=
  lit_ci "Content-Transfer-Encoding:" ++
  [Opt (is_byte SP); Open 1; Plus (none_of [CR; LF]); Close 1].

(** [\r?\n\r?\n] (line 161) *)
Definition HEADER_END : regex :=
  [Opt (is_byte CR); One (is_byte LF); Opt (is_byte CR); One (is_byte LF)].

Definition is_quote (x : byte) : bool := is_byte DQUOTE x || is_byte SQUOTE x.

Definition src_value_class : byte -> bool := none_of [DQUOTE; SQUOTE; SP; GT].

(** [src\s*=\s*([Q']?)([^Q' >]+)\1] where [Q] is the double quote,
    IGNORECASE (line 177) *)
Definition SRC : regex :=
  lit_ci "src" ++
  [Star is_space; One (is_byte EQUALS); Star is_space;
   Open 1; Opt is_quote; Close 1;
   Open 2; Plus src_value_class; Close 2; Backref 1].

(** [src\s*=\s*([Q']?)[^Q' >]+\1], IGNORECASE (line 202) *)
Definition SRC_SUB : regex :=
  lit_ci "src" ++
  [Star is_space; One (is_byte EQUALS); Star is_space;
   Open 1; Opt is_quote; Close 1;
   Plus src_value_class; Backref 1].

(** [<img[^>]+>], IGNORECASE (line 217) *)
Definition IMG : regex :=
  lit_ci "<img" ++ [Plus (none_of [GT]); One (is_byte GT)].

End Pat.
Import Pat.

(* ================================================================== *)
(** * Strings ([str]) and the codecs *)

Module Str.

Local Open Scope N_scope.

(** A [str] is a list of code points. *)
Definition str := list N.

(** A [str] literal (ASCII). *)
Definition s_ (s : string) : str := map Byte.to_N (b s).

Fixpoint str_eqb (s t : str) : bool :=
  match s, t with
  | [], [] => true
  | x :: s', y :: t' => (x =? y) && str_eqb s' t'
  | _, _ => false
  end.

Definition is_cont (x : byte) : bool :=
  let n := Byte.to_N x in (0x80 <=? n) && (n <=? 0xBF).

Definition low6 (x : byte) : N := N.land (Byte.to_N x) 0x3F.

(** CPython's UTF-8 decoder, one result per decoded code point ([Some]) or
    per reported error ([None]).  An error covers the bytes of the
    sequence that were accepted before the offending one (an invalid start
    byte alone; all the remaining bytes for a truncated sequence at the end
    of the data), and decoding resumes after them. *)
Fixpoint utf8_items (s : bytes) : list (option N) :=
  match s with
  | [] => []
  | c0 :: s1 =>
      let n0 := Byte.to_N c0 in
      if n0 <? 0x80 then Some n0 :: utf8_items s1
      else if n0 <? 0xC2 then None :: utf8_items s1
      else if n0 <? 0xE0 then
        match s1 with
        | [] => [None]
        | c1 :: s2 =>
            if is_cont c1
            then Some (N.lor (N.shiftl (N.land n0 0x1F) 6) (low6 c1))
                 :: utf8_items s2
            else None :: utf8_items s1
        end
      else if n0 <? 0xF0 then
        match s1 with
        | [] => [None]
        | c1 :: s2 =>
            let n1 := Byte.to_N c1 in
            if negb (is_cont c1)
               || (if n1 <? 0xA0 then n0 =? 0xE0 else n0 =? 0xED)
            then None :: utf8_items s1
            else
              match s2 with
              | [] => [None]
              | c2 :: s3 =>
                  if is_cont c2
                  then Some (N.lor (N.shiftl (N.land n0 0x0F) 12)
                               (N.lor (N.shiftl (low6 c1) 6) (low6 c2)))
                       :: utf8_items s3
                  else None :: utf8_items s2
              end
        end
      else if n0 <? 0xF5 then
        match s1 with
        | [] => [None]
        | c1 :: s2 =>
            let n1 := Byte.to_N c1 in
            if negb (is_cont c1)
               || (if n1 <? 0x90 then n0 =? 0xF0 else n0 =? 0xF4)
            then None :: utf8_items s1
            else
              match s2 with
              | [] => [None]
              | c2 :: s3 =>
                  if negb (is_cont c2) then None :: utf8_items s2
                  else
                    match s3 with
                    | [] => [None]
                    | c3 :: s4 =>
                        if is_cont c3
                        then Some (N.lor (N.shiftl (N.land n0 0x07) 18)
                                     (N.lor (N.shiftl (low6 c1) 12)
                                        (N.lor (N.shiftl (low6 c2) 6)
                                           (low6 c3))))
                             :: utf8_items s4
                        else None :: utf8_items s3
                    end
              end
        end
      else None :: utf8_items s1
  end.

(** [s.decode('utf-8', 'ignore')] *)
Definition decode_ignore (s : bytes) : str :=
  flat_map (fun i => match i with Some c => [c] | None => [] end)
    (utf8_items s).

(** [s.decode()] raises [UnicodeDecodeError] on any error. *)
Definition decodable (s : bytes) : bool :=
  forallb (fun i => match i with Some _ => true | None => false end)
    (utf8_items s).

Definition byte_of (n : N) : option byte := Byte.of_N n.

Fixpoint sequence (l : list (option byte)) : option bytes :=
  match l with
  | [] => Some []
  | Some x :: l' => option_map (cons x) (sequence l')
  | None :: _ => None
  end.

(** [s.encode('ascii')]: [None] stands for [UnicodeEncodeError]. *)
Definition encode_ascii (s : str) : option bytes :=
  sequence (map (fun c => if c <? 0x80 then byte_of c else None) s).

Definition utf8_char (c : N) : list (option byte) :=
  if c <? 0x80 then [byte_of c]
  else if c <? 0x800 then
    [byte_of (N.lor 0xC0 (N.shiftr c 6));
     byte_of (N.lor 0x80 (N.land c 0x3F))]
  else if (0xD800 <=? c) && (c <=? 0xDFFF) then [None]
  else if c <? 0x10000 then
    [byte_of (N.lor 0xE0 (N.shiftr c 12));
     byte_of (N.lor 0x80 (N.land (N.shiftr c 6) 0x3F));
     byte_of (N.lor 0x80 (N.land c 0x3F))]
  else if c <? 0x110000 then
    [byte_of (N.lor 0xF0 (N.shiftr c 18));
     byte_of (N.lor 0x80 (N.land (N.shiftr c 12) 0x3F));
     byte_of (N.lor 0x80 (N.land (N.shiftr c 6) 0x3F));
     byte_of (N.lor 0x80 (N.land c 0x3F))]
  else [None].

(** [s.encode('utf-8')]: [None] stands for [UnicodeEncodeError] (a lone
    surrogate). *)
Definition encode_utf8 (s : str) : option bytes :=
  sequence (flat_map utf8_char s).

Definition SLASH : N := 47.
Definition HYPHEN : N := 45.
Definition UNDERSCORE : N := 95.
Definition DOT : N := 46.

Fixpoint take_until_slash (s : str) : str :=
  match s with
  | [] => []
  | c :: s' => if c =? SLASH then [] else c :: take_until_slash s'
  end.

(** [os.path.basename(p)] of [posixpath]: [p[p.rfind('/') + 1:]]. *)
Definition basename (p : str) : str := rev (take_until_slash (rev p)).

(** The class [[a-zA-Z0-9._-]] of line 105. *)
Definition cid_char (c : N) : bool :=
  ((97 <=? c) && (c <=? 122)) || ((65 <=? c) && (c <=? 90))
  || ((48 <=? c) && (c <=? 57))
  || (c =? DOT) || (c =? UNDERSCORE) || (c =? HYPHEN).

(** [re.sub(r'[^a-zA-Z0-9._-]', '_', filename)] (line 105) *)
Definition sanitize (filename : str) : str :=
  map (fun c => if cid_char c then c else UNDERSCORE) filename.

(** [str.lower] on the characters that matter for [startswith('cid:')]: no
    character other than C, I, D lowers to c, i, d, and the only character
    whose lower case is longer than one character lowers to i followed by a
    combining dot, so the test sees the first four characters only. *)
Definition lower_ascii (c : N) : N := if (65 <=? c) && (c <=? 90) then c + 32 else c.

Fixpoint str_startswith (p s : str) : bool :=
  match p, s with
  | [], _ => true
  | _ :: _, [] => false
  | c :: p', x :: s' => (c =? x) && str_startswith p' s'
  end.

Definition hex_digit (d : N) : N := if d <? 10 then 48 + d else 87 + d.

(** The eight hexadecimal digits of a 32-bit number, most significant
    first, zero padded: what [format(x, '08x')] prints. *)
Definition hex8 (x : N) : str :=
  map (fun i => hex_digit (N.land (N.shiftr x (4 * i)) 0xF))
    [7; 6; 5; 4; 3; 2; 1; 0].

End Str.
Import Str.

(* ================================================================== *)
(** * Quoted-printable: [quopri], that is [binascii.a2b_qp] and [b2a_qp] *)

Module Quopri.

Local Open Scope N_scope.

Definition MAXLINESIZE : nat := 76.

Definition is_hex (x : byte) : bool :=
  let n := Byte.to_N x in
  ((48 <=? n) && (n <=? 57)) || ((65 <=? n) && (n <=? 70))
  || ((97 <=? n) && (n <=? 102)).

Definition hex_value (x : byte) : N :=
  let n := Byte.to_N x in
  if n <=? 57 then n - 48 else if n <=? 70 then n - 55 else n - 87.

Definition of_hex (d e : byte) : byte :=
  match Byte.of_N (N.lor (N.shiftl (hex_value d) 4) (hex_value e)) with
  | Some x => x
  | None => x00
  end.

(** The loop of [a2b_qp] with [header] off.  [skip] is the inner loop that
    runs to the line feed that ends a soft line break. *)
Fixpoint a2b_qp_loop (skip : bool) (s : bytes) : bytes :=
  match s with
  | [] => []
  | c :: s1 =>
      if skip then a2b_qp_loop (negb (is_byte LF c)) s1
      else if is_byte EQUALS c then
        match s1 with
        | [] => []
        | d :: s2 =>
            if is_byte LF d then a2b_qp_loop false s2
            else if is_byte CR d then a2b_qp_loop true s2
            else if is_byte EQUALS d then EQUALS :: a2b_qp_loop false s2
            else
              match s2 with
              | e :: s3 =>
                  if is_hex d && is_hex e
                  then of_hex d e :: a2b_qp_loop false s3
                  else EQUALS :: a2b_qp_loop false s1
              | [] => EQUALS :: a2b_qp_loop false s1
              end
        end
      else c :: a2b_qp_loop false s1
  end.

(** [quopri.decodestring(s)] *)
Definition decodestring (s : bytes) : bytes := a2b_qp_loop false s.

Definition hex_char (d : N) : byte :=
  match Byte.of_N (if d <? 10 then 48 + d else 55 + d) with
  | Some x => x
  | None => x00
  end.

Definition to_hex_hi (c : byte) : byte := hex_char (N.shiftr (Byte.to_N c) 4).
Definition to_hex_lo (c : byte) : byte := hex_char (N.land (Byte.to_N c) 15).

(** The data use CRLF line ends when the first line feed follows a carriage
    return. *)
Fixpoint detect_crlf (prev : option byte) (s : bytes) : bool :=
  match s with
  | [] => false
  | c :: s' =>
      if is_byte LF c
      then match prev with Some p => is_byte CR p | None => false end
      else detect_crlf (Some c) s'
  end.

Definition next_is (p : byte -> bool) (rest : bytes) : bool :=
  match rest with x :: _ => p x | [] => false end.

Definition at_end (rest : bytes) : bool :=
  match rest with [] => true | _ => false end.

Definition DOTB : byte := x2e.

(** The bytes [b2a_qp] writes as [=XX] (text mode, [quotetabs] and
    [header] off); [rest] is the data after [c]. *)
Definition must_quote (c : byte) (rest : bytes) (linelen : nat) : bool :=
  let n := Byte.to_N c in
  (126 <? n)
  || is_byte EQUALS c
  || (is_byte DOTB c && Nat.eqb linelen 0
      && (at_end rest || next_is (is_byte LF) rest || next_is (is_byte CR) rest
          || next_is (is_byte x00) rest))
  || ((is_byte TAB c || is_byte SP c) && at_end rest)
  || ((n <? 33) && negb (is_byte CR c) && negb (is_byte LF c)
      && (negb (is_byte TAB c) && negb (is_byte SP c))).

(** The output is kept reversed: its head is the last byte written. *)
Definition soft_break (crlf : bool) (out : bytes) : bytes :=
  LF :: (if crlf then [CR] else []) ++ EQUALS :: out.

Definition line_end (crlf : bool) (out : bytes) : bytes :=
  LF :: (if crlf then [CR] else []) ++ out.

(** White space at the end of a line is rewritten as [=20] or [=09]. *)
Definition protect (out : bytes) : bytes :=
  match out with
  | x :: out' =>
      if is_byte SP x || is_byte TAB x
      then to_hex_lo x :: to_hex_hi x :: EQUALS :: out'
      else out
  | [] => []
  end.

(** The writing loop of [b2a_qp]. *)
Fixpoint b2a_qp_loop (crlf : bool) (data : bytes) (linelen : nat) (out : bytes)
  : bytes :=
  match data with
  | [] => rev out
  | c :: rest =>
      if must_quote c rest linelen then
        let broke := Nat.leb MAXLINESIZE (linelen + 3) in
        let out1 := if broke then soft_break crlf out else out in
        let linelen1 := if broke then 0%nat else linelen in
        b2a_qp_loop crlf rest (linelen1 + 3)
          (to_hex_lo c :: to_hex_hi c :: EQUALS :: out1)
      else if is_byte LF c then
        b2a_qp_loop crlf rest 0 (line_end crlf (protect out))
      else
        match rest with
        | d :: rest' =>
            if is_byte CR c && is_byte LF d then
              b2a_qp_loop crlf rest' 0 (line_end crlf (protect out))
            else
              let broke := negb (is_byte LF d)
                           && Nat.leb MAXLINESIZE (linelen + 1) in
              let out1 := if broke then soft_break crlf out else out in
              let linelen1 := if broke then 0%nat else linelen in
              b2a_qp_loop crlf rest (linelen1 + 1) (c :: out1)
        | [] => b2a_qp_loop crlf rest (linelen + 1) (c :: out)
        end
  end.

(** [quopri.encodestring(s)] *)
Definition encodestring (s : bytes) : bytes :=
  b2a_qp_loop (detect_crlf None s) s 0 [].

End Quopri.

(* ================================================================== *)
(** * The script: [fix_mhtml_image_references] *)

Module Fix.

(** ** Pass 1: the loop over the parts (lines 90-149) *)

(** [ref_map]: a Python dict keeps its keys in insertion order, and
    assigning to a key that is present keeps its place. *)
Definition dict := list (str * str).

Fixpoint dict_get (k : str) (d : dict) : option str :=
  match d with
  | [] => None
  | (k', v) :: d' => if str_eqb k k' then Some v else dict_get k d'
  end.

Fixpoint dict_set (k v : str) (d : dict) : dict :=
  match d with
  | [] => [(k, v)]
  | (k', v') :: d' =>
      if str_eqb k k' then (k', v) :: d' else (k', v') :: dict_set k v d'
  end.

(** [html_part_info] *)
Record html_info := HtmlInfo {
  index : nat;
  encoding : bytes;
  part : bytes
}.

(** The variables of the loop, and the number of calls of [uuid.uuid4] so
    far. *)
Record state := State {
  ref_map : dict;
  html_part_info : option html_info;
  modified_content_parts : list bytes;
  uuid_calls : nat
}.

Definition init : state := State [] None [] 0.

(** The three branches of the loop body (lines 92, 139, 148). *)
Inductive kind := Image | Markup | Other.

Definition classify (part_bytes : bytes) : kind :=
  if contains (b "Content-Type: image") part_bytes then Image
  else if contains (b "Content-Type: text/html") part_bytes then Markup
  else Other.

(** Lines 105-108. *)
Definition sanitized_name (filename : str) : str :=
  let sanitized_filename := sanitize filename in
  if str_startswith [HYPHEN] sanitized_filename
  then s_ "image" ++ sanitized_filename
  else sanitized_filename.

(** Line 112; [r] is the 32-bit value whose digits [uuid4().hex[:8]] are. *)
Definition make_cid (filename : str) (r : N) : str :=
  sanitized_name filename ++ s_ "." ++ hex8 r ++ s_ "@mhtml.fixer".

Section Pass1.

(** [uuid4 k]: the leading 32 bits of the [k]-th UUID drawn in the run. *)
Variable uuid4 : nat -> N.

(** Lines 93-136.  [None]: [encode('ascii')] raised. *)
Definition image_part (st : state) (part_bytes : bytes) : option state :=
  match search LOCATION part_bytes with
  | None =>
      Some (State (ref_map st) (html_part_info st)
              (modified_content_parts st ++ [part_bytes]) (uuid_calls st))
  | Some loc_match =>
      let original_location :=
        decode_ignore (strip (group_bytes part_bytes loc_match 1)) in
      let filename := basename original_location in
      let new_cid := make_cid filename (uuid4 (uuid_calls st)) in
      let ref_map1 := dict_set original_location new_cid (ref_map st) in
      match search CONTENT_ID part_bytes with
      | Some old_cid_match =>
          let old_cid :=
            decode_ignore (strip (group_bytes part_bytes old_cid_match 1)) in
          let ref_map2 := dict_set old_cid new_cid ref_map1 in
          match encode_ascii (s_ "Content-ID: <" ++ new_cid ++ s_ ">") with
          | None => None
          | Some header =>
              let modified_part :=
                sub1 CONTENT_ID_SUB [TLit header] part_bytes in
              Some (State ref_map2 (html_part_info st)
                      (modified_content_parts st ++ [modified_part])
                      (S (uuid_calls st)))
          end
      | None =>
          match encode_ascii new_cid with
          | None => None
          | Some cid_bytes =>
              let modified_part :=
                sub1 LOCATION_SUB
                  [TGroup 1; TLit (CRLF ++ b "Content-ID: <");
                   TLit cid_bytes; TLit (b ">")] part_bytes in
              Some (State ref_map1 (html_part_info st)
                      (modified_content_parts st ++ [modified_part])
                      (S (uuid_calls st)))
          end
      end
  end.

(** Lines 141-142. *)
Definition encoding_of (part_bytes : bytes) : bytes :=
  match search ENCODING part_bytes with
  | Some encoding_match =>
      lower (strip (group_bytes part_bytes encoding_match 1))
  | None => b "7bit"
  end.

(** Lines 141-145. *)
Definition markup_part (st : state) (part_bytes : bytes) : state :=
  State (ref_map st)
    (Some (HtmlInfo (length (modified_content_parts st))
             (encoding_of part_bytes) part_bytes))
    (modified_content_parts st ++ [part_bytes]) (uuid_calls st).

(** One iteration. *)
Definition step (st : state) (part_bytes : bytes) : option state :=
  match classify part_bytes with
  | Image => image_part st part_bytes
  | Markup => Some (markup_part st part_bytes)
  | Other =>
      Some (State (ref_map st) (html_part_info st)
              (modified_content_parts st ++ [part_bytes]) (uuid_calls st))
  end.

Fixpoint pass1 (st : state) (content_parts : list bytes) : option state :=
  match content_parts with
  | [] => Some st
  | part_bytes :: rest =>
      match step st part_bytes with
      | None => None
      | Some st' => pass1 st' rest
      end
  end.

End Pass1.

(** ** Pass 2: the markup part (lines 153-230) *)

Definition truthy (v : option str) : bool :=
  match v with Some (_ :: _) => true | _ => false end.

(** Lines 193-196: the first key of the map with the same base name. *)
Fixpoint by_basename (name : str) (d : dict) : option str :=
  match d with
  | [] => None
  | (loc, cid_val) :: d' =>
      if str_eqb (basename loc) name then Some cid_val else by_basename name d'
  end.

(** Lines 187-196. *)
Definition lookup (ref_map : dict) (src_value : str) : option str :=
  let key_to_check :=
    if str_startswith (s_ "cid:") (map lower_ascii src_value)
    then skipn 4 src_value else src_value in
  let new_cid := dict_get key_to_check ref_map in
  if truthy new_cid then new_cid
  else match by_basename (basename key_to_check) ref_map with
       | Some cid_val => Some cid_val
       | None => new_cid
       end.

Definition SELF_CLOSE : bytes := b "/>".

(** Lines 180-182: a tag without a src attribute. *)
Definition close_plain (img_tag_bytes : bytes) : bytes :=
  if endswith SELF_CLOSE img_tag_bytes then img_tag_bytes
  else if endswith [GT] img_tag_bytes
       then removelast img_tag_bytes ++ SELF_CLOSE
       else img_tag_bytes.

(** Lines 208-213. *)
Definition close_tag (modified_tag : bytes) : bytes :=
  if endswith SELF_CLOSE modified_tag then modified_tag
  else if endswith [GT] modified_tag
       then removelast modified_tag ++ SELF_CLOSE
       else modified_tag ++ SELF_CLOSE.

(** Lines 198-205: the tag with its src attribute rewritten, when the
    reference resolves.  [None]: [encode('utf-8')] raised.  The template of
    [re.sub] is taken literally: an identifier holds no backslash. *)
Definition rewrite_src (new_cid : option str) (img_tag_bytes : bytes)
  : option bytes :=
  match new_cid with
  | Some (c :: cid) =>
      match encode_utf8 (s_ "src=" ++ [Byte.to_N DQUOTE] ++ s_ "cid:"
                           ++ (c :: cid) ++ [Byte.to_N DQUOTE]) with
      | None => None
      | Some new_src_attr =>
          Some (sub1 SRC_SUB [TLit new_src_attr] img_tag_bytes)
      end
  | _ => Some img_tag_bytes
  end.

(** The callback of [re.sub] (lines 173-213). *)
Definition fix_img_tag (ref_map : dict) (img_tag_bytes : bytes) : option bytes :=
  match search SRC img_tag_bytes with
  | None => Some (close_plain img_tag_bytes)
  | Some src_match =>
      let src_value := decode_ignore (group_bytes img_tag_bytes src_match 2) in
      let new_cid := lookup ref_map src_value in
      match rewrite_src new_cid img_tag_bytes with
      | None => None
      | Some modified_tag => Some (close_tag modified_tag)
      end
  end.

Definition QP : bytes := b "quoted-printable".

(** Lines 167-170. *)
Definition decode_body (encoding body : bytes) : bytes :=
  if beqb encoding QP then Quopri.decodestring body else body.

(** Lines 224-227. *)
Definition encode_body (encoding body : bytes) : bytes :=
  if beqb encoding QP then Quopri.encodestring body else body.

(** Lines 216-221. *)
Definition rewrite_body (ref_map : dict) (html_body_decoded : bytes)
  : option bytes :=
  sub_all IMG (fix_img_tag ref_map) html_body_decoded.

(** [l[i] = v] for [i] in range. *)
Fixpoint list_set (i : nat) (v : bytes) (l : list bytes) : list bytes :=
  match l, i with
  | [], _ => []
  | _ :: l', 0 => v :: l'
  | x :: l', S i' => x :: list_set i' v l'
  end.

(** What stops a run before the end. *)
Inductive error :=
| FileNotFound            (* line 47 *)
| ReadFailed              (* line 62 *)
| MissingBoundary         (* line 69 *)
| MissingMarkupPart       (* line 154 *)
| UnicodeDecodeError      (* raised by line 72 *)
| UnicodeEncodeError      (* raised by lines 127, 133 or 201 *)
| AttributeError          (* raised by line 162 *)
| WriteFailed.            (* line 248 *)

(** Lines 158-230: the parts after the markup part was rewritten. *)
Definition pass2 (st : state) (info : html_info) : error + list bytes :=
  let html_part_bytes := part info in
  match search HEADER_END html_part_bytes with
  | None => inl AttributeError
  | Some header_end_match =>
      let header_end_pos := snd (fst header_end_match) in
      let html_headers := firstn header_end_pos html_part_bytes in
      let html_body_encoded := skipn header_end_pos html_part_bytes in
      let html_body_decoded := decode_body (encoding info) html_body_encoded in
      match rewrite_body (ref_map st) html_body_decoded with
      | None => inl UnicodeEncodeError
      | Some html_body_modified =>
          let final_html_body := encode_body (encoding info) html_body_modified in
          inr (list_set (index info) (html_headers ++ final_html_body)
                 (modified_content_parts st))
      end
  end.

(** ** Reassembly (lines 237-245) *)

Definition write_part (boundary part_bytes : bytes) : bytes :=
  boundary ++ (if startswith CRLF part_bytes then [] else CRLF) ++ part_bytes.

Definition reassemble (header_part boundary : bytes) (parts : list bytes) : bytes :=
  header_part ++ concat (map (write_part boundary) parts)
  ++ boundary ++ b "--" ++ CRLF.

(** ** The whole run *)

(** What a run meets outside the program. *)
Record env := Env {
  input_exists : bool;          (* os.path.exists(input_file) *)
  input_read : option bytes;    (* the content read, unless IOError *)
  output_open : bool;           (* open(output_file, 'wb') succeeds *)
  uuid4 : nat -> N              (* the UUIDs drawn, in order *)
}.

(** The archive in memory once both passes are done. *)
Record archive := Archive {
  header_part : bytes;
  boundary : bytes;
  parts : list bytes
}.

(** Line 71. *)
Definition boundary_of (content : bytes) (boundary_match : rmatch) : bytes :=
  b "--" ++ group_bytes content boundary_match 1.

(** Line 77: [parts[1:-1]]. *)
Definition content_parts_of (boundary content : bytes) : list bytes :=
  removelast (tl (split boundary content)).

(** Lines 67-230. *)
Definition process (rnd : nat -> N) (content : bytes) : error + archive :=
  match search BOUNDARY content with
  | None => inl MissingBoundary
  | Some boundary_match =>
      let boundary := boundary_of content boundary_match in
      if negb (decodable boundary) then inl UnicodeDecodeError
      else
        let header_part := hd [] (split boundary content) in
        let content_parts := content_parts_of boundary content in
        match pass1 rnd init content_parts with
        | None => inl UnicodeEncodeError
        | Some st =>
            match html_part_info st with
            | None => inl MissingMarkupPart
            | Some info =>
                match pass2 st info with
                | inl e => inl e
                | inr parts' => inr (Archive header_part boundary parts')
                end
            end
        end
  end.

(** The transform between reading and writing. *)
Definition transform (rnd : nat -> N) (content : bytes) : error + bytes :=
  match process rnd content with
  | inl e => inl e
  | inr a => inr (reassemble (header_part a) (boundary a) (parts a))
  end.

(** The result of a run: how it ended, and the content of the output file
    if it was opened. *)
Record result := Result {
  status : option error;
  output : option bytes
}.

Definition run (e : env) : result :=
  if negb (input_exists e) then Result (Some FileNotFound) None
  else
    match input_read e with
    | None => Result (Some ReadFailed) None
    | Some content =>
        match transform (uuid4 e) content with
        | inl err => Result (Some err) None
        | inr data =>
            if output_open e then Result None (Some data)
            else Result (Some WriteFailed) None
        end
    end.

End Fix.
Import Fix.

(* ================================================================== *)
(** * Notions used to state the properties *)

Module Notions.

(** ** Strings *)

Definition ascii (s : str) : Prop := Forall (fun c => (c < 128)%N) s.

(** The bytes of an ASCII string. *)
Definition ascii_bytes (s : str) : bytes :=
  map (fun c => match Byte.of_N c with Some x => x | None => x00 end) s.

(** A lower-case hexadecimal digit. *)
Definition is_hex_digit (c : N) : Prop :=
  (48 <= c <= 57)%N \/ (97 <= c <= 102)%N.

(** The characters of an identifier: the class of line 105 and the at
    sign. *)
Definition id_char (c : N) : bool := cid_char c || (c =? 64)%N.

(** Every value of the map is an identifier made by line 112. *)
Definition cids (d : dict) : Prop :=
  Forall (fun kv => exists filename r, snd kv = make_cid filename r) d.

(** ** Derivations of a pattern *)

(** [derives inp r s pos c w c']: the pattern [r] can consume the word [w]
    at the head of [s], which is at position [pos], taking the groups from
    [c] to [c']. *)
Inductive derives (inp : bytes) :
  regex -> bytes -> nat -> caps -> bytes -> caps -> Prop :=
| d_nil s pos c : derives inp [] s pos c [] c
| d_one p r x s pos c w c' :
    p x = true -> derives inp r s (S pos) c w c' ->
    derives inp (One p :: r) (x :: s) pos c (x :: w) c'
| d_opt_take p r x s pos c w c' :
    p x = true -> derives inp r s (S pos) c w c' ->
    derives inp (Opt p :: r) (x :: s) pos c (x :: w) c'
| d_opt_skip p r s pos c w c' :
    derives inp r s pos c w c' -> derives inp (Opt p :: r) s pos c w c'
| d_star p r u s pos c w c' :
    forallb p u = true -> derives inp r s (pos + length u) c w c' ->
    derives inp (Star p :: r) (u ++ s) pos c (u ++ w) c'
| d_plus p r u s pos c w c' :
    forallb p u = true -> u <> [] ->
    derives inp r s (pos + length u) c w c' ->
    derives inp (Plus p :: r) (u ++ s) pos c (u ++ w) c'
| d_open g r s pos c w c' :
    derives inp r s pos (open_group g pos c) w c' ->
    derives inp (Open g :: r) s pos c w c'
| d_close g r s pos c w c' :
    derives inp r s pos (close_group g pos c) w c' ->
    derives inp (Close g :: r) s pos c w c'
| d_backref g r i j s pos c w c' :
    group c g = Some (i, j) ->
    derives inp r s (pos + length (slice i j inp)) c w c' ->
    derives inp (Backref g :: r) (slice i j inp ++ s) pos c
      (slice i j inp ++ w) c'.

(** The pattern without the parentheses of the groups in [G]. *)
Fixpoint erase (G : nat -> bool) (r : regex) : regex :=
  match r with
  | [] => []
  | Open g :: r' => if G g then erase G r' else Open g :: erase G r'
  | Close g :: r' => if G g then erase G r' else Close g :: erase G r'
  | it :: r' => it :: erase G r'
  end.

Definition agree (G : nat -> bool) (c c' : caps) : Prop :=
  forall g, G g = false -> group c g = group c' g.

(** No back-reference of [r] names a group of [G]. *)
Fixpoint no_backref (G : nat -> bool) (r : regex) : bool :=
  match r with
  | [] => true
  | Backref g :: r' => negb (G g) && no_backref G r'
  | _ :: r' => no_backref G r'
  end.

(** Two results with the same end and the same groups outside [G]. *)
Definition same_end (G : nat -> bool) (a b : option (nat * caps)) : Prop :=
  match a, b with
  | Some (e, d), Some (e', d') => e = e' /\ agree G d d'
  | None, None => True
  | _, _ => False
  end.

Definition sim (G : nat -> bool) (k k' : cont) : Prop :=
  forall s pos c c', agree G c c' -> same_end G (k s pos c) (k' s pos c').

(** ** Pass 1 *)

(** The state after a part went through unchanged. *)
Definition append_part (st : state) (p : bytes) : state :=
  State (ref_map st) (html_part_info st) (modified_content_parts st ++ [p])
    (uuid_calls st).

(** ** The matches that [re.sub] visits *)

(** For each match the text before it and the match, and the text after
    the last match. *)
Fixpoint scan_fuel (n : nat) (r : regex) (inp : bytes)
  : list (bytes * bytes) * bytes :=
  match n with
  | 0 => ([], inp)
  | S n' =>
      match search r inp with
      | None => ([], inp)
      | Some m =>
          let rest := scan_fuel n' r (skipn (snd (fst m)) inp) in
          ((firstn (fst (fst m)) inp, matched inp m) :: fst rest, snd rest)
      end
  end.

Definition scan (r : regex) (inp : bytes) : list (bytes * bytes) * bytes :=
  scan_fuel (length inp) r inp.

(** The matched substrings, in order: [re.findall(r, inp)]. *)
Definition tags (r : regex) (inp : bytes) : list bytes :=
  map snd (fst (scan r inp)).

(** The texts between the matches. *)
Definition texts (r : regex) (inp : bytes) : list bytes :=
  map fst (fst (scan r inp)).

(** The data put together again from texts, tags and the last text. *)
Fixpoint weave (txts tgs : list bytes) (last : bytes) : bytes :=
  match txts, tgs with
  | txt :: txts', tag :: tgs' => txt ++ tag ++ weave txts' tgs' last
  | _, _ => last
  end.

(** ** Header fields *)





(** The header line written for an identifier. *)
Definition identifier_header (cid : str) : bytes :=
  b "Content-ID: <" ++ ascii_bytes cid ++ b ">".

(** ** The blank line after the headers *)

(** [P] holds of the data from some place on. *)
Fixpoint anywhere (P : bytes -> bool) (s : bytes) : bool :=
  P s || match s with [] => false | _ :: s' => anywhere P s' end.

(** An empty line: a line feed, and a line feed again after an optional
    carriage return. *)
Definition blank_line_here (s : bytes) : bool :=
  startswith [LF; LF] s || startswith [LF; CR; LF] s.

Definition has_blank_line (part_bytes : bytes) : bool :=
  contains [LF; LF] part_bytes || contains [LF; CR; LF] part_bytes.

Definition is_some {A : Type} (o : option A) : bool :=
  match o with Some _ => true | None => false end.



(** ** Classification *)

Definition IMAGE_MARK : bytes := b "Content-Type: image".
Definition HTML_MARK : bytes := b "Content-Type: text/html".

(** ** The run *)

(** The fatal conditions of a run, before anything is written. *)
Definition fatal (e : env) : Prop :=
  input_exists e = false
  \/ input_read e = None
  \/ (exists content, input_read e = Some content
                      /\ search BOUNDARY content = None)
  \/ (exists content m,
        input_read e = Some content
        /\ search BOUNDARY content = Some m
        /\ Forall (fun q => classify q <> Markup)
             (content_parts_of (boundary_of content m) content)).

(** ** Splitting the output again *)

(** Pieces put together with a delimiter between them. *)
Fixpoint join (sep : bytes) (pieces : list bytes) : bytes :=
  match pieces with
  | [] => []
  | q :: rest =>
      match rest with
      | [] => q
      | _ :: _ => q ++ sep ++ join sep rest
      end
  end.

(** A part as line 241 writes it. *)
Definition with_line_break (part_bytes : bytes) : bytes :=
  (if startswith CRLF part_bytes then [] else CRLF) ++ part_bytes.

(** What stands between the delimiters of the output. *)
Definition pieces_of (a : archive) : list bytes :=
  header_part a :: map with_line_break (parts a) ++ [b "--" ++ CRLF].

(** No occurrence of the delimiter begins inside [q] when the delimiter
    follows it. *)
Definition clean (sep q : bytes) : Prop :=
  find sep (q ++ sep) = Some (length q).

(** ** Line ends and quoted-printable *)

(** Some line feed of [s] does not follow a carriage return; [prev] is the
    byte before [s]. *)
Fixpoint has_bare_lf (prev : option byte) (s : bytes) : bool :=
  match s with
  | [] => false
  | c :: s' =>
      (is_byte LF c
       && negb match prev with Some p => is_byte CR p | None => false end)
      || has_bare_lf (Some c) s'
  end.

(** The line ends of [s] are all CRLF or none is. *)
Definition uniform_line_ends (s : bytes) : Prop :=
  contains CRLF s = false \/ has_bare_lf None s = false.

(** [encodes out d]: the output [out] of the encoder, last byte first, is
    made of literal bytes, [=XX] triples and soft line breaks that stand
    for the data [d]. *)
Inductive encodes : bytes -> bytes -> Prop :=
| enc_nil : encodes [] []
| enc_literal out d c :
    encodes out d -> c <> EQUALS -> encodes (c :: out) (d ++ [c])
| enc_quoted out d c :
    encodes out d ->
    encodes (Quopri.to_hex_lo c :: Quopri.to_hex_hi c :: EQUALS :: out)
      (d ++ [c])
| enc_soft_lf out d :
    encodes out d -> encodes (LF :: EQUALS :: out) d
| enc_soft_crlf out d :
    encodes out d -> encodes (LF :: CR :: EQUALS :: out) d.

End Notions.
Import Notions.

(* ================================================================== *)
(** * Small archives and tags used as instances *)

Module Examples.

(** The UUIDs of the instances: all zero. *)
Definition rnd0 : nat -> N := fun _ => 0%N.

Definition header_of (token : string) : bytes :=
  b "MIME-Version: 1.0" ++ CRLF
  ++ b "Content-Type: multipart/related; boundary=" ++ [DQUOTE] ++ b token
  ++ [DQUOTE] ++ CRLF ++ CRLF.

Definition markup (body : bytes) : bytes :=
  CRLF ++ b "Content-Type: text/html" ++ CRLF ++ CRLF ++ body ++ CRLF.

Definition markup_qp (body : bytes) : bytes :=
  CRLF ++ b "Content-Type: text/html" ++ CRLF
  ++ b "Content-Transfer-Encoding: quoted-printable" ++ CRLF ++ CRLF ++ body.

Definition image (location : string) : bytes :=
  CRLF ++ b "Content-Type: image/png" ++ CRLF
  ++ b "Content-Location: " ++ b location ++ CRLF ++ CRLF ++ b "DATA" ++ CRLF.



Definition other_part : bytes :=
  CRLF ++ b "Content-Type: text/css" ++ CRLF ++ CRLF ++ b "p {}" ++ CRLF.

Definition archive_of (token : string) (content_parts : list bytes) : bytes :=
  header_of token
  ++ concat (map (fun p => b "--" ++ b token ++ p) content_parts)
  ++ b "--" ++ b token ++ b "--" ++ CRLF.

(** Two markup parts. *)
Definition first_markup : bytes := markup (b "<img src=one.png>").
Definition second_markup : bytes := markup (b "<img src=two.png>").
Definition two_markup : bytes := archive_of "AAA" [first_markup; second_markup].

(** A markup part, an image part and another part. *)
Definition page : bytes := markup (b "<p><img alt=x src='a.png'></p>").
Definition plain : bytes :=
  archive_of "AAA" [page; image "dir/a.png"; other_part].

(** An archive whose delimiter shows in the identifier of its image. *)
Definition clash : bytes :=
  archive_of "_" [markup (b "<p>x</p>"); image "a--?.png"].

(** An archive without a markup part. *)
Definition no_markup : bytes := archive_of "AAA" [image "a.png"].

(** A body with a CRLF line end and a bare line feed. *)
Definition mixed_body : bytes := b "<p>a" ++ CRLF ++ b "b" ++ [LF] ++ b "c</p>".

Definition crlf_body : bytes := b "<p>a" ++ CRLF ++ b "b  " ++ CRLF ++ b "c=d</p>".


(** The state after pass 1 on the parts of [plain]. *)
Definition plain_parts : list bytes := [page; image "dir/a.png"; other_part].

Definition plain_state : state :=
  match pass1 rnd0 init plain_parts with Some st => st | None => init end.

Definition run_of (content : bytes) : env := Env true (Some content) true rnd0.

(** The archive in memory at the end of the run on [plain]. *)
Definition plain_archive : archive :=
  match process rnd0 plain with
  | inr a => a
  | inl _ => Archive [] [] []
  end.


(** The match of the location pattern in [image "dir/a.png"]. *)
Definition location_caps : caps := [(1, (45, 54)); (1, (45, 45))].

End Examples.
Import Examples.

(* ================================================================== *)
(** * The name of the output file (lines 51-52) *)

Module Cli.

(** [p.rfind(c)]; [None] stands for -1. *)
Fixpoint rfind (c : N) (p : str) : option nat :=
  match p with
  | [] => None
  | x :: p' =>
      match rfind c p' with
      | Some i => Some (S i)
      | None => if (x =? c)%N then Some 0 else None
      end
  end.

(** The loop of [genericpath._splitext] that skips the leading dots of the
    file name: [k] is [dotIndex - filenameIndex], and the result tells
    whether a character other than a dot was met before [dotIndex]. *)
Fixpoint name_before (k filenameIndex : nat) (p : str) : bool :=
  match k with
  | 0 => false
  | S k' =>
      match nth_error p filenameIndex with
      | Some x =>
          if negb (x =? DOT)%N then true
          else name_before k' (S filenameIndex) p
      | None => true
      end
  end.

(** [os.path.splitext(p)] of [posixpath]. *)
Definition splitext (p : str) : str * str :=
  let filenameIndex :=
    match rfind SLASH p with Some sepIndex => S sepIndex | None => 0 end in
  match rfind DOT p with
  | Some dotIndex =>
      if Nat.leb filenameIndex dotIndex
         && name_before (dotIndex - filenameIndex) filenameIndex p
      then (firstn dotIndex p, skipn dotIndex p)
      else (p, [])
  | None => (p, [])
  end.

(** Lines 51-52. *)
Definition output_file (input_file : str) : str :=
  let (base, ext) := splitext input_file in
  base ++ s_ "_fixed" ++ ext.

End Cli.
Import Cli.

(* ================================================================== *)
(** * The parts that pass 1 rewrites *)

Module Located.


(** The key that line 187 looks up for a src value. *)
Definition key_of (src_value : str) : str :=
  if str_startswith (s_ "cid:") (map lower_ascii src_value)
  then skipn 4 src_value else src_value.

End Located.
Import Located.

(* ================================================================== *)
(** * Notions for the identifiers and for the tags of the rewritten body *)

Module Words.



(** [scanned r inp l last]: the matches of [r] in [inp], leftmost first and
    each after the end of the one before, with the text before each, and
    the text [last] after the last one, where [r] finds nothing more. *)
Inductive scanned (r : regex) : bytes -> list (bytes * bytes) -> bytes -> Prop :=
| scanned_end inp : search r inp = None -> scanned r inp [] inp
| scanned_match inp m l last :
    search r inp = Some m ->
    scanned r (skipn (snd (fst m)) inp) l last ->
    scanned r inp ((firstn (fst (fst m)) inp, matched inp m) :: l) last.

(** A tag as the pattern of the image tags matches it at the head of
    [s]. *)
Definition img_prefix (s w : bytes) : Prop :=
  exists name attrs rest,
    s = w ++ rest /\ w = name ++ attrs ++ [GT]
    /\ lower name = b "<img" /\ attrs <> []
    /\ forallb (none_of [GT]) attrs = true.

(** No byte of [s] is the closing bracket. *)
Definition gt_free (s : bytes) : Prop := forallb (none_of [GT]) s = true.

End Words.
Import Words.

(* ================================================================== *)
(** * More instances *)

Module Samples.



(** Two image parts with the same location, and a part between them. *)
Definition same_location : list bytes :=
  [image "a.png"; other_part; image "a.png"].


(** An archive with nothing to rewrite. *)
Definition quiet_markup : bytes := markup (b "<p>x</p>").
Definition quiet : bytes := archive_of "AAA" [quiet_markup; other_part].

(** A header whose boundary value is one byte that no UTF-8 text holds. *)
Definition bad_boundary : bytes :=
  b "Content-Type: multipart/related; boundary=" ++ [DQUOTE; xff; DQUOTE]
  ++ CRLF.

End Samples.
Import Samples.

(* ================================================================== *)
(** * Facts about strings and identifiers *)

Module StrFacts.

Local Open Scope N_scope.

Lemma byte_of_small c : c < 128 -> exists x, Byte.of_N c = Some x.
Proof.
  intros H. destruct (Byte.of_N c) eqn:E; [eauto|].
  pose proof (Byte.to_of_N_option_map c) as M. rewrite E in M. simpl in M.
  destruct (N.leb_spec c 255); [discriminate | lia].
Qed.

Lemma encode_ascii_ok s : ascii s -> encode_ascii s = Some (ascii_bytes s).
Proof.
  unfold encode_ascii, ascii_bytes, byte_of. induction 1 as [|c s Hc Hs IH]; simpl; [reflexivity|].
  destruct (N.ltb_spec c 128); [|lia].
  destruct (byte_of_small c Hc) as [x Hx]. rewrite Hx. simpl.
  rewrite IH. reflexivity.
Qed.

Lemma encode_utf8_ok s : ascii s -> encode_utf8 s = Some (ascii_bytes s).
Proof.
  unfold encode_utf8, ascii_bytes. induction 1 as [|c s Hc Hs IH]; simpl; [reflexivity|].
  unfold utf8_char at 1, byte_of. destruct (N.ltb_spec c 128); [|lia]. simpl.
  destruct (byte_of_small c Hc) as [x Hx]. rewrite Hx. simpl.
  rewrite IH. reflexivity.
Qed.

Lemma ascii_app s t : ascii s -> ascii t -> ascii (s ++ t).
Proof. apply Forall_app_intro || (intros; apply Forall_app; auto). Qed.

Lemma ascii_bytes_app s t : ascii_bytes (s ++ t) = ascii_bytes s ++ ascii_bytes t.
Proof. apply map_app. Qed.

Lemma cid_char_small c : cid_char c = true -> c < 128.
Proof.
  unfold cid_char, DOT, UNDERSCORE, HYPHEN. intros H.
  repeat (apply orb_true_iff in H; destruct H as [H|H]);
    try (apply andb_true_iff in H; destruct H as [_ H]; apply N.leb_le in H; lia);
    apply N.eqb_eq in H; lia.
Qed.

(** Every character of a sanitized name is in the class of line 105. *)
Lemma sanitize_chars filename : Forall (fun c => cid_char c = true) (sanitize filename).
Proof.
  unfold sanitize. induction filename as [|c f IH]; simpl; constructor; auto.
  destruct (cid_char c) eqn:E; auto.
Qed.

Lemma sanitized_name_chars filename :
  Forall (fun c => cid_char c = true) (sanitized_name filename).
Proof.
  unfold sanitized_name. destruct (str_startswith _ _).
  - apply Forall_app. split; [|apply sanitize_chars].
    repeat constructor.
  - apply sanitize_chars.
Qed.

Lemma hex_digit_range d : d < 16 ->
  (48 <= hex_digit d <= 57) \/ (97 <= hex_digit d <= 102).
Proof. unfold hex_digit. intros H. destruct (N.ltb_spec d 10); lia. Qed.

Lemma land15 x : N.land x 15 < 16.
Proof.
  change 15 with (N.ones 4). rewrite N.land_ones. apply N.mod_lt. discriminate.
Qed.

Lemma hex8_digits r : length (hex8 r) = 8%nat /\ Forall is_hex_digit (hex8 r).
Proof.
  split; [reflexivity|]. unfold hex8.
  apply Forall_map. apply Forall_forall. intros i _.
  apply hex_digit_range. change 0xF with 15. apply land15.
Qed.

Lemma hex_digit_cid_char c : is_hex_digit c -> cid_char c = true.
Proof.
  unfold is_hex_digit, cid_char. intros [H|H].
  - replace ((48 <=? c) && (c <=? 57)) with true; [now rewrite !orb_true_r|].
    symmetry. apply andb_true_iff. split; apply N.leb_le; lia.
  - replace ((97 <=? c) && (c <=? 122)) with true; [reflexivity|].
    symmetry. apply andb_true_iff. split; apply N.leb_le; lia.
Qed.

Lemma id_char_small c : id_char c = true -> c < 128.
Proof.
  unfold id_char. intros H. apply orb_true_iff in H. destruct H as [H|H].
  - now apply cid_char_small.
  - apply N.eqb_eq in H. lia.
Qed.

Lemma make_cid_chars filename r :
  Forall (fun c => id_char c = true) (make_cid filename r).
Proof.
  unfold make_cid. repeat (apply Forall_app; split).
  - eapply Forall_impl; [|apply sanitized_name_chars].
    intros c H. unfold id_char. now rewrite H.
  - repeat constructor.
  - eapply Forall_impl; [|apply hex8_digits].
    intros c H. unfold id_char. now rewrite (hex_digit_cid_char c H).
  - repeat constructor.
Qed.

Lemma make_cid_ascii filename r : ascii (make_cid filename r).
Proof.
  eapply Forall_impl; [|apply make_cid_chars]. intros c. apply id_char_small.
Qed.

Lemma make_cid_nonempty filename r : make_cid filename r <> [].
Proof.
  unfold make_cid. intros H. apply (f_equal (@length N)) in H.
  rewrite !length_app in H. simpl in H. lia.
Qed.



End StrFacts.
Import StrFacts.

(* ================================================================== *)
(** * Facts about pass 1 *)

Module Pass1Facts.

Section WithUuid.

Variable rnd : nat -> N.

Lemma image_part_total st p : exists st', image_part rnd st p = Some st'.
Proof.
  unfold image_part. destruct (search LOCATION p); [|eauto].
  destruct (search CONTENT_ID p).
  - rewrite encode_ascii_ok; [eauto|].
    apply ascii_app; [repeat constructor|].
    apply ascii_app; [apply make_cid_ascii | repeat constructor].
  - rewrite encode_ascii_ok; [eauto|]. apply make_cid_ascii.
Qed.

Lemma step_total st p : exists st', step rnd st p = Some st'.
Proof.
  unfold step. destruct (classify p); eauto using image_part_total.
Qed.

(** The loop never raises. *)
Lemma pass1_total content_parts :
  forall st, exists st', pass1 rnd st content_parts = Some st'.
Proof.
  induction content_parts as [|p l IH]; intros st; simpl; [eauto|].
  destruct (step_total st p) as [st1 ->]. apply IH.
Qed.

Lemma pass1_app l1 l2 st :
  pass1 rnd st (l1 ++ l2) =
  match pass1 rnd st l1 with Some st1 => pass1 rnd st1 l2 | None => None end.
Proof.
  revert st. induction l1 as [|p l IH]; intros st; simpl; [reflexivity|].
  destruct (step rnd st p); [apply IH | reflexivity].
Qed.

(** Each iteration appends one part and keeps what is there. *)
Lemma step_appends st p st' :
  step rnd st p = Some st' ->
  exists p', modified_content_parts st' = modified_content_parts st ++ [p'].
Proof.
  unfold step, image_part, markup_part.
  destruct (classify p).
  - destruct (search LOCATION p).
    + destruct (search CONTENT_ID p).
      * destruct (encode_ascii _); [|discriminate]. intros [= <-]. simpl. eauto.
      * destruct (encode_ascii _); [|discriminate]. intros [= <-]. simpl. eauto.
    + intros [= <-]. simpl. eauto.
  - intros [= <-]. simpl. eauto.
  - intros [= <-]. simpl. eauto.
Qed.

Lemma pass1_appends l : forall st st',
  pass1 rnd st l = Some st' ->
  exists l', modified_content_parts st' = modified_content_parts st ++ l'
             /\ length l' = length l.
Proof.
  induction l as [|p l IH]; intros st st'; simpl.
  - intros [= <-]. exists []. now rewrite app_nil_r.
  - destruct (step rnd st p) as [st1|] eqn:E; [|discriminate]. intros H.
    destruct (step_appends _ _ _ E) as [p' Hp'].
    destruct (IH _ _ H) as [l' [Hl' Hlen]].
    exists (p' :: l'). rewrite Hl', Hp', <- app_assoc. simpl. auto.
Qed.

Lemma pass1_length l st st' :
  pass1 rnd st l = Some st' ->
  length (modified_content_parts st') = length (modified_content_parts st) + length l.
Proof.
  intros H. destruct (pass1_appends _ _ _ H) as [l' [-> Hl]].
  rewrite length_app. lia.
Qed.

(** A part that is not markup leaves [html_part_info] alone. *)
Lemma step_keeps_info st p st' :
  classify p <> Markup -> step rnd st p = Some st' ->
  html_part_info st' = html_part_info st.
Proof.
  unfold step, image_part. destruct (classify p); [| congruence |].
  - intros _. destruct (search LOCATION p).
    + destruct (search CONTENT_ID p);
        (destruct (encode_ascii _); [|discriminate]); now intros [= <-].
    + now intros [= <-].
  - now intros _ [= <-].
Qed.

Lemma pass1_keeps_info l : forall st st',
  Forall (fun p => classify p <> Markup) l -> pass1 rnd st l = Some st' ->
  html_part_info st' = html_part_info st.
Proof.
  induction l as [|p l IH]; intros st st' HF; simpl.
  - now intros [= <-].
  - apply Forall_cons_iff in HF. destruct HF as [Hp Hl].
    destruct (step rnd st p) as [st1|] eqn:E; [|discriminate]. intros H.
    rewrite (IH _ _ Hl H). eapply step_keeps_info; eauto.
Qed.

Lemma step_markup st p :
  classify p = Markup ->
  step rnd st p =
  Some (State (ref_map st)
          (Some (HtmlInfo (length (modified_content_parts st)) (encoding_of p) p))
          (modified_content_parts st ++ [p]) (uuid_calls st)).
Proof. unfold step. intros ->. reflexivity. Qed.

(** After the loop, [html_part_info] describes the last markup part. *)
Lemma pass1_last_markup pre p post st :
  classify p = Markup -> Forall (fun q => classify q <> Markup) post ->
  pass1 rnd init (pre ++ p :: post) = Some st ->
  html_part_info st = Some (HtmlInfo (length pre) (encoding_of p) p)
  /\ nth_error (modified_content_parts st) (length pre) = Some p.
Proof.
  intros Hp Hpost. rewrite pass1_app.
  destruct (pass1 rnd init pre) as [st1|] eqn:E1; [|discriminate].
  simpl. rewrite (step_markup st1 p Hp). intros H.
  pose proof (pass1_length _ _ _ E1) as L1. simpl in L1.
  split.
  - rewrite (pass1_keeps_info _ _ _ Hpost H). simpl. now rewrite L1.
  - destruct (pass1_appends _ _ _ H) as [l' [-> _]]. simpl.
    rewrite <- app_assoc. simpl.
    rewrite nth_error_app2 by lia. now rewrite L1, Nat.sub_diag.
Qed.

Lemma pass1_no_markup l st :
  Forall (fun q => classify q <> Markup) l ->
  pass1 rnd init l = Some st -> html_part_info st = None.
Proof. intros HF H. now rewrite (pass1_keeps_info _ _ _ HF H). Qed.


End WithUuid.

End Pass1Facts.
Import Pass1Facts.

(* ================================================================== *)
(** * Facts about pass 2 *)

Module Pass2Facts.

Lemma list_set_length i v l : length (list_set i v l) = length l.
Proof.
  revert i. induction l as [|x l IH]; intros [|i]; simpl; auto.
Qed.

Lemma list_set_other i v l j :
  j <> i -> nth_error (list_set i v l) j = nth_error l j.
Proof.
  revert i j. induction l as [|x l IH]; intros [|i] [|j] H; simpl; auto.
  congruence.
Qed.

Lemma list_set_same i v l :
  i < length l -> nth_error (list_set i v l) i = Some v.
Proof.
  revert i. induction l as [|x l IH]; intros [|i] H; simpl in *; try lia; auto.
  apply IH. lia.
Qed.

(** What pass 2 returns when it returns: the parts of pass 1 with the part
    at the recorded index rebuilt from its header block and the rewritten
    body. *)
Lemma pass2_inr st info parts' :
  pass2 st info = inr parts' ->
  exists m body',
    search HEADER_END (part info) = Some m
    /\ rewrite_body (ref_map st)
         (decode_body (encoding info) (skipn (snd (fst m)) (part info)))
       = Some body'
    /\ parts' = list_set (index info)
                  (firstn (snd (fst m)) (part info)
                   ++ encode_body (encoding info) body')
                  (modified_content_parts st).
Proof.
  unfold pass2. destruct (search HEADER_END (part info)) as [m|]; [|discriminate].
  destruct (rewrite_body _ _) as [body'|] eqn:E; [|discriminate].
  intros [= <-]. exists m, body'. auto.
Qed.

End Pass2Facts.
Import Pass2Facts.

(* ================================================================== *)
(** * Facts about bytes *)

Module BytesFacts.

Lemma eqb_spec (x y : byte) : reflect (x = y) (Byte.eqb x y).
Proof.
  destruct (Byte.eqb x y) eqn:E; constructor.
  - now apply Byte.byte_dec_bl.
  - intros ->. rewrite (Byte.byte_dec_lb eq_refl) in E. discriminate.
Qed.

Lemma eqb_refl (x : byte) : Byte.eqb x x = true.
Proof. now apply Byte.byte_dec_lb. Qed.

Lemma startswith_iff p s : startswith p s = true <-> exists t, s = p ++ t.
Proof.
  revert s. induction p as [|c p IH]; intros s; simpl.
  - split; eauto.
  - destruct s as [|x s].
    + split; [discriminate | intros [t H]; discriminate].
    + rewrite andb_true_iff, IH. split.
      * intros [E [t ->]]. apply Byte.byte_dec_bl in E. subst. eauto.
      * intros [t [= -> ->]]. split; [apply eqb_refl | eauto].
Qed.

Lemma startswith_app p t : startswith p (p ++ t) = true.
Proof. apply startswith_iff. eauto. Qed.

Lemma startswith_length p s : startswith p s = true -> length p <= length s.
Proof.
  intros H. apply startswith_iff in H. destruct H as [t ->].
  rewrite length_app. lia.
Qed.

(** A window that fits in [s] does not see what follows [s]. *)
Lemma startswith_app_long p s t :
  length p <= length s -> startswith p (s ++ t) = startswith p s.
Proof.
  revert s. induction p as [|c p IH]; intros [|x s] H; simpl in *; try lia; auto.
  rewrite IH by lia. reflexivity.
Qed.

Lemma find_bound p s i : find p s = Some i -> i + length p <= length s.
Proof.
  revert i. induction s as [|x s IH]; intros i; simpl.
  - destruct (startswith p []) eqn:E; [|discriminate].
    intros [= <-]. apply startswith_length in E. simpl in *. lia.
  - destruct (startswith p (x :: s)) eqn:E.
    + intros [= <-]. apply startswith_length in E. simpl in *. lia.
    + destruct (find p s) as [j|]; [|discriminate].
      intros [= <-]. specialize (IH j eq_refl). lia.
Qed.

Lemma find_unfold p s :
  find p s = if startswith p s then Some 0
             else match s with
                  | [] => None
                  | _ :: s' => option_map S (find p s')
                  end.
Proof. destruct s; reflexivity. Qed.

(** Appending to the data keeps the leftmost occurrence. *)
Lemma find_app_r p s t i : find p s = Some i -> find p (s ++ t) = Some i.
Proof.
  revert i. induction s as [|x s IH]; intros i H.
  - pose proof (find_bound _ _ _ H) as B. simpl in B.
    assert (length p = 0) by lia. destruct p; [|discriminate].
    simpl in H. injection H as <-. destruct t; reflexivity.
  - pose proof (find_bound _ _ _ H) as B.
    rewrite find_unfold in H. simpl app. rewrite find_unfold.
    change (x :: s ++ t) with ((x :: s) ++ t).
    destruct (startswith p (x :: s)) eqn:E.
    + injection H as <-. rewrite startswith_app_long, E; [reflexivity|lia].
    + rewrite startswith_app_long, E by lia.
      destruct (find p s) as [j|]; [|discriminate].
      injection H as <-. simpl. now rewrite (IH j eq_refl).
Qed.

Lemma find_split p s i :
  find p s = Some i -> s = firstn i s ++ p ++ skipn (i + length p) s.
Proof.
  revert i. induction s as [|x s IH]; intros i; rewrite find_unfold.
  - destruct (startswith p []) eqn:E; [|discriminate]. intros [= <-].
    apply startswith_iff in E. destruct E as [t E].
    destruct p; [reflexivity | discriminate].
  - destruct (startswith p (x :: s)) eqn:E.
    + intros [= <-]. apply startswith_iff in E. destruct E as [t E].
      rewrite E at 1. simpl firstn. simpl app. f_equal.
      rewrite E. simpl. now rewrite skipn_app, skipn_all, Nat.sub_diag.
    + destruct (find p s) as [j|] eqn:F; [|discriminate]. intros [= <-].
      simpl. f_equal. now apply IH.
Qed.

Lemma contains_unfold p s :
  contains p s = startswith p s
                 || match s with [] => false | _ :: s' => contains p s' end.
Proof.
  unfold contains. rewrite find_unfold.
  destruct (startswith p s); [reflexivity|]. destruct s; [reflexivity|].
  simpl. destruct (find p s); reflexivity.
Qed.

Lemma contains_app_r p s t : contains p s = true -> contains p (s ++ t) = true.
Proof.
  unfold contains. destruct (find p s) as [i|] eqn:E; [|discriminate].
  now rewrite (find_app_r _ _ t _ E).
Qed.

Lemma contains_app_l p s t : contains p t = true -> contains p (s ++ t) = true.
Proof.
  intros H. induction s as [|x s IH]; [exact H|].
  simpl app. rewrite contains_unfold, IH. apply orb_true_r.
Qed.

(** A pattern is not found across a byte it does not hold. *)
Lemma startswith_across p s x t :
  ~ In x p -> startswith p (s ++ x :: t) = startswith p s.
Proof.
  revert s. induction p as [|c p IH]; intros s H; [destruct s; reflexivity|].
  destruct s as [|y s]; simpl.
  - destruct (eqb_spec c x) as [->|]; [|reflexivity].
    exfalso. apply H. now left.
  - rewrite IH; [reflexivity|]. intros I. apply H. now right.
Qed.

Lemma contains_across p s x t :
  p <> [] -> ~ In x p ->
  contains p (s ++ x :: t) = contains p s || contains p t.
Proof.
  intros Hp Hx. induction s as [|y s IH].
  - simpl app. rewrite (contains_unfold p (x :: t)).
    pose proof (startswith_across p [] x t Hx) as A. simpl app in A.
    rewrite A, (contains_unfold p []). destruct p; [congruence|reflexivity].
  - simpl app. rewrite (contains_unfold p (y :: s ++ x :: t)).
    rewrite (contains_unfold p (y :: s)), IH.
    change (y :: s ++ x :: t) with ((y :: s) ++ x :: t).
    rewrite startswith_across by assumption. now rewrite orb_assoc.
Qed.

End BytesFacts.
Import BytesFacts.


Module ReFacts.

Section Sound.

Variable inp : bytes.

Lemma greedy_derives p r :
  (forall s pos c e c', exec inp r s pos c = Some (e, c') ->
     exists w, derives inp r s pos c w c' /\ e = pos + length w) ->
  forall s pos c e c', greedy p (exec inp r) s pos c = Some (e, c') ->
    exists u s' w, s = u ++ s' /\ forallb p u = true
      /\ derives inp r s' (pos + length u) c w c' /\ e = pos + length u + length w.
Proof.
  intros IHr. induction s as [|x s IH]; intros pos c e c' H; simpl in H.
  - destruct (IHr _ _ _ _ _ H) as [w [D E]].
    exists [], [], w. simpl. rewrite Nat.add_0_r. auto.
  - assert (Stop : exec inp r (x :: s) pos c = Some (e, c') ->
                   exists u s' w, x :: s = u ++ s' /\ forallb p u = true
                     /\ derives inp r s' (pos + length u) c w c'
                     /\ e = pos + length u + length w).
    { intros K. destruct (IHr _ _ _ _ _ K) as [w [D E]].
      exists [], (x :: s), w. simpl. rewrite Nat.add_0_r. auto. }
    destruct (p x) eqn:Px; [|auto].
    destruct (greedy p (exec inp r) s (S pos) c) as [[e1 c1]|] eqn:G; [|auto].
    injection H as <- <-.
    destruct (IH _ _ _ _ G) as [u [s' [w [-> [Fu [D E]]]]]].
    exists (x :: u), s', w. simpl. rewrite Px, Fu.
    replace (pos + S (length u)) with (S pos + length u) by lia.
    repeat split; auto; lia.
Qed.

(** What [exec] finds is a derivation. *)
Lemma exec_sound r : forall s pos c e c',
  exec inp r s pos c = Some (e, c') ->
  exists w, derives inp r s pos c w c' /\ e = pos + length w.
Proof.
  induction r as [|it r IH]; intros s pos c e c' H.
  - simpl in H. injection H as <- <-. exists []. split; [constructor | simpl; lia].
  - destruct it as [p|p|p|p|g|g|g]; simpl in H.
    + destruct s as [|x s]; [discriminate|]. destruct (p x) eqn:Px; [|discriminate].
      destruct (IH _ _ _ _ _ H) as [w [D ->]].
      exists (x :: w). split; [now constructor | simpl; lia].
    + assert (Skip : exec inp r s pos c = Some (e, c') ->
                exists w, derives inp (Opt p :: r) s pos c w c' /\ e = pos + length w).
      { intros K. destruct (IH _ _ _ _ _ K) as [w [D ->]].
        exists w. split; [now apply d_opt_skip | reflexivity]. }
      destruct s as [|x s]; [auto|]. destruct (p x) eqn:Px; [|auto].
      destruct (exec inp r s (S pos) c) as [[e1 c1]|] eqn:K; [|auto].
      injection H as <- <-. destruct (IH _ _ _ _ _ K) as [w [D ->]].
      exists (x :: w). split; [now apply d_opt_take | simpl; lia].
    + destruct (greedy_derives p r IH _ _ _ _ _ H) as [u [s' [w [-> [Fu [D ->]]]]]].
      exists (u ++ w). split; [now constructor | rewrite length_app; lia].
    + destruct s as [|x s]; [discriminate|]. destruct (p x) eqn:Px; [|discriminate].
      destruct (greedy_derives p r IH _ _ _ _ _ H) as [u [s' [w [-> [Fu [D ->]]]]]].
      exists ((x :: u) ++ w). split.
      * change (x :: u ++ s') with ((x :: u) ++ s'). constructor.
        -- simpl. now rewrite Px.
        -- discriminate.
        -- simpl length. now replace (pos + S (length u)) with (S pos + length u) by lia.
      * simpl. rewrite length_app. lia.
    + destruct (IH _ _ _ _ _ H) as [w [D ->]]. exists w. split; [now constructor|reflexivity].
    + destruct (IH _ _ _ _ _ H) as [w [D ->]]. exists w. split; [now constructor|reflexivity].
    + destruct (group c g) as [[i j]|] eqn:Gg; [|discriminate].
      destruct (startswith (slice i j inp) s) eqn:St; [|discriminate].
      apply startswith_iff in St. destruct St as [t ->].
      rewrite skipn_app, skipn_all, Nat.sub_diag in H. simpl in H.
      destruct (IH _ _ _ _ _ H) as [w [D ->]].
      exists (slice i j inp ++ w). split.
      * now apply d_backref.
      * rewrite length_app. lia.
Qed.

(** A derivation consumes a prefix of the data. *)
Lemma derives_prefix r s pos c w c' :
  derives inp r s pos c w c' -> exists rest, s = w ++ rest.
Proof.
  induction 1; try (destruct IHderives as [rest ->]).
  - exists s. reflexivity.
  - exists rest. reflexivity.
  - exists rest. reflexivity.
  - exists rest. reflexivity.
  - exists rest. now rewrite app_assoc.
  - exists rest. now rewrite app_assoc.
  - exists rest. reflexivity.
  - exists rest. reflexivity.
  - exists rest. now rewrite app_assoc.
Qed.

Lemma skipn_S_tl (l : bytes) n : skipn (S n) l = tl (skipn n l).
Proof.
  revert l. induction n as [|n IH]; intros [|x l]; try reflexivity.
  exact (IH l).
Qed.

Lemma search_from_sound r : forall s pos st e c,
  s = skipn pos inp -> search_from inp r s pos = Some (st, e, c) ->
  pos <= st /\ exists w, derives inp r (skipn st inp) st [] w c /\ e = st + length w.
Proof.
  induction s as [|x s IH]; intros pos st e c Hs H; simpl in H.
  - destruct (exec inp r [] pos []) as [[e1 c1]|] eqn:E; [|discriminate].
    injection H as <- <- <-. split; [lia|]. rewrite <- Hs. now apply exec_sound.
  - destruct (exec inp r (x :: s) pos []) as [[e1 c1]|] eqn:E.
    + injection H as <- <- <-. split; [lia|]. rewrite <- Hs. now apply exec_sound.
    + assert (Hs' : s = skipn (S pos) inp) by (now rewrite skipn_S_tl, <- Hs).
      destruct (IH _ _ _ _ Hs' H) as [L R]. split; [lia | exact R].
Qed.

(** What [re.search] returns: the input is cut in three, and the middle is
    a word the pattern derives. *)
Lemma search_sound r st e c :
  search r inp = Some (st, e, c) ->
  exists w, derives inp r (skipn st inp) st [] w c
    /\ e = st + length w
    /\ inp = firstn st inp ++ w ++ skipn e inp
    /\ length (firstn st inp) = st
    /\ matched inp (st, e, c) = w.
Proof.
  intros H. destruct (search_from_sound r inp 0 st e c eq_refl H) as [_ [w [D ->]]].
  exists w. destruct (derives_prefix _ _ _ _ _ _ D) as [rest R].
  assert (L : st <= length inp).
  { destruct (Nat.le_gt_cases st (length inp)) as [|G]; [assumption|].
    rewrite skipn_all2 in R by lia. destruct w; [|discriminate].
    rewrite skipn_all2 in D by lia.
    clear - H G. exfalso. unfold search in H.
    assert (B : forall s pos st e c, search_from inp r s pos = Some (st, e, c) ->
                                     st <= pos + length s).
    { induction s as [|x s IH]; intros pos st0 e0 c0 K; simpl in K.
      - destruct (exec inp r [] pos []) as [[? ?]|]; [|discriminate].
        injection K as <- <- <-. lia.
      - destruct (exec inp r (x :: s) pos []) as [[? ?]|].
        + injection K as <- <- <-. lia.
        + apply IH in K. simpl. lia. }
    apply B in H. simpl in H. lia. }
  assert (Sk : skipn (st + length w) inp = rest).
  { rewrite Nat.add_comm, <- skipn_skipn, R, skipn_app, skipn_all, Nat.sub_diag. reflexivity. }
  repeat split; auto.
  - rewrite Sk, <- R. symmetry. apply firstn_skipn.
  - rewrite length_firstn. lia.
  - unfold matched, slice. simpl. rewrite R.
    replace (st + length w - st) with (length w) by lia.
    rewrite firstn_app, firstn_all, Nat.sub_diag. simpl. apply app_nil_r.
Qed.

End Sound.

(** ** Groups that no back-reference uses do not change where a pattern
    matches *)

Section Erase.

Variable inp : bytes.
Variable G : nat -> bool.

Lemma agree_open g pos c c' :
  agree G c c' -> agree G (open_group g pos c) (open_group g pos c').
Proof.
  intros A h Hh. unfold open_group. simpl. destruct (Nat.eqb h g); auto.
Qed.

Lemma agree_close g pos c c' :
  G g = false -> agree G c c' -> agree G (close_group g pos c) (close_group g pos c').
Proof.
  intros Hg A h Hh. unfold close_group. rewrite <- (A g Hg).
  destruct (group c g) as [[i j]|]; [|auto].
  simpl. destruct (Nat.eqb h g); auto.
Qed.

Lemma agree_open_l g pos c c' :
  G g = true -> agree G c c' -> agree G (open_group g pos c) c'.
Proof.
  intros Hg A h Hh. unfold open_group. simpl.
  destruct (Nat.eqb_spec h g) as [->|]; [congruence | auto].
Qed.

Lemma agree_close_l g pos c c' :
  G g = true -> agree G c c' -> agree G (close_group g pos c) c'.
Proof.
  intros Hg A h Hh. unfold close_group.
  destruct (group c g) as [[i j]|]; [|auto].
  simpl. destruct (Nat.eqb_spec h g) as [->|]; [congruence | auto].
Qed.

Lemma same_end_first a b a' b' :
  same_end G a a' -> same_end G b b' ->
  same_end G (match a with Some r => Some r | None => b end)
             (match a' with Some r => Some r | None => b' end).
Proof.
  destruct a as [[? ?]|], a' as [[? ?]|]; simpl; tauto.
Qed.

Lemma greedy_sim p k k' : sim G k k' -> sim G (greedy p k) (greedy p k').
Proof.
  intros S s. induction s as [|x s IH]; intros pos c c' A; simpl.
  - now apply S.
  - destruct (p x); [|now apply S].
    apply same_end_first; [now apply IH | now apply S].
Qed.

Lemma exec_erase r :
  no_backref G r = true -> sim G (exec inp r) (exec inp (erase G r)).
Proof.
  induction r as [|it r IH]; intros NB.
  - intros s pos c c' A. simpl. auto.
  - destruct it as [p|p|p|p|g|g|g]; simpl in NB; simpl erase.
    + intros s pos c c' A. simpl. destruct s as [|x s]; [exact I|].
      destruct (p x); [now apply IH | exact I].
    + intros s pos c c' A. simpl. destruct s as [|x s]; [now apply IH|].
      destruct (p x); [|now apply IH].
      apply same_end_first; now apply IH.
    + simpl. apply greedy_sim. now apply IH.
    + intros s pos c c' A. simpl. destruct s as [|x s]; [exact I|].
      destruct (p x); [|exact I]. apply greedy_sim; [now apply IH | exact A].
    + intros s pos c c' A. destruct (G g) eqn:Hg.
      * simpl. apply IH; [exact NB | now apply agree_open_l].
      * simpl. apply IH; [exact NB | now apply agree_open].
    + intros s pos c c' A. destruct (G g) eqn:Hg.
      * simpl. apply IH; [exact NB | now apply agree_close_l].
      * simpl. apply IH; [exact NB | now apply agree_close].
    + apply andb_true_iff in NB. destruct NB as [Hg NB].
      apply negb_true_iff in Hg.
      intros s pos c c' A. simpl. rewrite <- (A g Hg).
      destruct (group c g) as [[i j]|]; [|exact I].
      destruct (startswith (slice i j inp) s); [now apply IH | exact I].
Qed.

Lemma search_from_erase r :
  no_backref G r = true ->
  forall s pos,
    option_map fst (search_from inp r s pos)
    = option_map fst (search_from inp (erase G r) s pos).
Proof.
  intros NB. induction s as [|x s IH]; intros pos; simpl.
  - pose proof (exec_erase r NB [] pos [] [] (fun _ _ => eq_refl)) as E.
    destruct (exec inp r [] pos []) as [[? ?]|],
             (exec inp (erase G r) [] pos []) as [[? ?]|]; simpl in *;
      try tauto. destruct E as [-> _]. reflexivity.
  - pose proof (exec_erase r NB (x :: s) pos [] [] (fun _ _ => eq_refl)) as E.
    destruct (exec inp r (x :: s) pos []) as [[? ?]|],
             (exec inp (erase G r) (x :: s) pos []) as [[? ?]|]; simpl in *;
      try tauto.
    + destruct E as [-> _]. reflexivity.
    + apply IH.
Qed.

End Erase.

(** Two patterns that differ in unused parentheses only match at the same
    place. *)
Lemma search_same_place G r r' inp :
  no_backref G r = true -> no_backref G r' = true -> erase G r = erase G r' ->
  forall st e c, search r inp = Some (st, e, c) ->
    exists c', search r' inp = Some (st, e, c').
Proof.
  intros NB NB' E st e c H. unfold search in *.
  pose proof (search_from_erase inp G r NB inp 0) as A.
  pose proof (search_from_erase inp G r' NB' inp 0) as B.
  rewrite E, <- B, H in A. simpl in A.
  destruct (search_from inp r' inp 0) as [[[st' e'] c']|]; [|discriminate].
  simpl in A. injection A as <- <-. eauto.
Qed.

(** ** Reading a derivation item by item *)

Section Inversion.

Variable inp : bytes.

Lemma inv_nil s pos c w c' : derives inp [] s pos c w c' -> w = [] /\ c' = c.
Proof. inversion 1; auto. Qed.

Lemma inv_one p r s pos c w c' :
  derives inp (One p :: r) s pos c w c' ->
  exists x s' w', s = x :: s' /\ w = x :: w' /\ p x = true
    /\ derives inp r s' (S pos) c w' c'.
Proof. inversion 1; subst. eauto 8. Qed.

Lemma inv_opt p r s pos c w c' :
  derives inp (Opt p :: r) s pos c w c' ->
  exists u s' w', s = u ++ s' /\ w = u ++ w'
    /\ (u = [] \/ exists x, u = [x] /\ p x = true)
    /\ derives inp r s' (pos + length u) c w' c'.
Proof.
  inversion 1; subst.
  - exists [x], s0, w0. simpl. replace (pos + 1) with (S pos) by lia. eauto 8.
  - exists [], s, w. simpl. rewrite Nat.add_0_r. auto.
Qed.

Lemma inv_star p r s pos c w c' :
  derives inp (Star p :: r) s pos c w c' ->
  exists u s' w', s = u ++ s' /\ w = u ++ w' /\ forallb p u = true
    /\ derives inp r s' (pos + length u) c w' c'.
Proof. inversion 1; subst. eauto 8. Qed.

Lemma inv_plus p r s pos c w c' :
  derives inp (Plus p :: r) s pos c w c' ->
  exists u s' w', s = u ++ s' /\ w = u ++ w' /\ forallb p u = true /\ u <> []
    /\ derives inp r s' (pos + length u) c w' c'.
Proof. inversion 1; subst. eauto 10. Qed.

Lemma inv_open g r s pos c w c' :
  derives inp (Open g :: r) s pos c w c' ->
  derives inp r s pos (open_group g pos c) w c'.
Proof. inversion 1; subst. assumption. Qed.

Lemma inv_close g r s pos c w c' :
  derives inp (Close g :: r) s pos c w c' ->
  derives inp r s pos (close_group g pos c) w c'.
Proof. inversion 1; subst. assumption. Qed.

Lemma inv_backref g r s pos c w c' :
  derives inp (Backref g :: r) s pos c w c' ->
  exists i j s' w', group c g = Some (i, j)
    /\ s = slice i j inp ++ s' /\ w = slice i j inp ++ w'
    /\ derives inp r s' (pos + length (slice i j inp)) c w' c'.
Proof. inversion 1; subst. eauto 10. Qed.

(** A literal under IGNORECASE consumes the literal in some letter case. *)
Lemma inv_lit_ci l : forall r s pos c w c',
  derives inp (map (fun x => One (ci x)) l ++ r) s pos c w c' ->
  exists u s' w', s = u ++ s' /\ w = u ++ w' /\ lower u = lower l
    /\ derives inp r s' (pos + length l) c w' c'.
Proof.
  induction l as [|a l IH]; intros r s pos c w c' H; simpl in H.
  - exists [], s, w. simpl. rewrite Nat.add_0_r. auto.
  - apply inv_one in H. destruct H as [x [s1 [w1 [-> [-> [Px D]]]]]].
    apply IH in D. destruct D as [u [s' [w' [-> [-> [L D]]]]]].
    exists (x :: u), s', w'. simpl. rewrite L.
    unfold ci in Px. apply Byte.byte_dec_bl in Px. rewrite Px.
    replace (pos + S (length l)) with (S pos + length l) by lia. auto.
Qed.

End Inversion.

End ReFacts.
Import ReFacts.

(* ================================================================== *)
(** * Facts about the reference map *)

Module MapFacts.

Lemma dict_set_cids k v d :
  (exists filename r, v = make_cid filename r) -> cids d -> cids (dict_set k v d).
Proof.
  intros Hv. unfold cids. induction 1 as [|[k' v'] d Hk Hd IH]; simpl.
  - repeat constructor. exact Hv.
  - destruct (str_eqb k k'); constructor; auto.
Qed.

Lemma dict_get_cids k d v :
  cids d -> dict_get k d = Some v -> exists filename r, v = make_cid filename r.
Proof.
  unfold cids. induction 1 as [|[k' v'] d Hk Hd IH]; simpl; [discriminate|].
  destruct (str_eqb k k'); [|exact IH]. intros [= <-]. exact Hk.
Qed.

Lemma by_basename_cids name d v :
  cids d -> by_basename name d = Some v ->
  exists filename r, v = make_cid filename r.
Proof.
  unfold cids. induction 1 as [|[k' v'] d Hk Hd IH]; simpl; [discriminate|].
  destruct (str_eqb (basename k') name); [|exact IH]. intros [= <-]. exact Hk.
Qed.

(** What a look-up finds is an identifier of the map. *)
Lemma lookup_cids d src_value v :
  cids d -> lookup d src_value = Some v ->
  exists filename r, v = make_cid filename r.
Proof.
  intros Hd. unfold lookup.
  set (key := if str_startswith _ _ then _ else _).
  destruct (dict_get key d) as [w|] eqn:E.
  - destruct (truthy (Some w)).
    + intros [= <-]. eapply dict_get_cids; eauto.
    + destruct (by_basename (basename key) d) eqn:B.
      * intros [= <-]. eapply by_basename_cids; eauto.
      * intros [= <-]. eapply dict_get_cids; eauto.
  - simpl. destruct (by_basename (basename key) d) eqn:B; [|discriminate].
    intros [= <-]. eapply by_basename_cids; eauto.
Qed.

Section WithUuid.

Variable rnd : nat -> N.

Lemma step_cids st p st' :
  cids (ref_map st) -> step rnd st p = Some st' -> cids (ref_map st').
Proof.
  intros Hc. unfold step, image_part, markup_part.
  destruct (classify p).
  - destruct (search LOCATION p).
    + destruct (search CONTENT_ID p).
      * destruct (encode_ascii _); [|discriminate]. intros [= <-]. simpl.
        apply dict_set_cids; [eauto|]. apply dict_set_cids; [eauto|]. exact Hc.
      * destruct (encode_ascii _); [|discriminate]. intros [= <-]. simpl.
        apply dict_set_cids; [eauto|]. exact Hc.
    + intros [= <-]. exact Hc.
  - intros [= <-]. exact Hc.
  - intros [= <-]. exact Hc.
Qed.

Lemma pass1_cids l : forall st st',
  cids (ref_map st) -> pass1 rnd st l = Some st' -> cids (ref_map st').
Proof.
  induction l as [|p l IH]; intros st st' Hc; simpl.
  - now intros [= <-].
  - destruct (step rnd st p) as [st1|] eqn:E; [|discriminate].
    apply IH. eapply step_cids; eauto.
Qed.

Lemma pass1_init_cids l st : pass1 rnd init l = Some st -> cids (ref_map st).
Proof. apply pass1_cids. constructor. Qed.

End WithUuid.

End MapFacts.
Import MapFacts.

(* ================================================================== *)
(** * Facts about the rewriting of a tag *)

Module TagFacts.

Lemma endswith_app p s : endswith p (s ++ p) = true.
Proof. unfold endswith. rewrite rev_app_distr. apply startswith_app. Qed.

Lemma close_tag_ends t : endswith SELF_CLOSE (close_tag t) = true.
Proof.
  unfold close_tag. destruct (endswith SELF_CLOSE t) eqn:E; [exact E|].
  destruct (endswith [GT] t); apply endswith_app.
Qed.

Lemma close_plain_ends t :
  endswith [GT] t = true -> endswith SELF_CLOSE (close_plain t) = true.
Proof.
  intros H. unfold close_plain. destruct (endswith SELF_CLOSE t) eqn:E; [exact E|].
  rewrite H. apply endswith_app.
Qed.

(** A match of the image-tag pattern: the tag name in some letter case,
    at least one byte other than the closing bracket, the closing bracket. *)
Lemma img_shape inp st e c :
  search IMG inp = Some (st, e, c) ->
  exists name attrs,
    matched inp (st, e, c) = name ++ attrs ++ [GT]
    /\ lower name = b "<img" /\ attrs <> []
    /\ forallb (none_of [GT]) attrs = true
    /\ inp = firstn st inp ++ (name ++ attrs ++ [GT]) ++ skipn e inp
    /\ e = st + length (name ++ attrs ++ [GT]).
Proof.
  intros H. apply search_sound in H.
  destruct H as [w [D [He [Hinp [_ Hm]]]]].
  unfold IMG, lit_ci in D. apply inv_lit_ci in D.
  destruct D as [name [s1 [w1 [_ [-> [Hname D]]]]]].
  apply inv_plus in D. destruct D as [attrs [s2 [w2 [_ [-> [Hattrs [Hne D]]]]]]].
  apply inv_one in D. destruct D as [x [s3 [w3 [_ [-> [Hx D]]]]]].
  apply inv_nil in D. destruct D as [-> _].
  unfold is_byte in Hx. apply Byte.byte_dec_bl in Hx. subst x.
  exists name, attrs. rewrite Hm. repeat split; auto.
Qed.

Lemma img_match_ends inp m :
  search IMG inp = Some m -> endswith [GT] (matched inp m) = true.
Proof.
  destruct m as [[st e] c]. intros H. apply img_shape in H.
  destruct H as [name [attrs [-> _]]]. rewrite app_assoc. apply endswith_app.
Qed.

(** With the map of pass 1 the callback never raises, and what it returns
    is self-closed. *)
Lemma fix_img_tag_total d tag :
  cids d -> endswith [GT] tag = true ->
  exists tag', fix_img_tag d tag = Some tag' /\ endswith SELF_CLOSE tag' = true.
Proof.
  intros Hd Hend. unfold fix_img_tag.
  destruct (search SRC tag) as [m|].
  - destruct (lookup d _) as [v|] eqn:L.
    + destruct (lookup_cids _ _ _ Hd L) as [f [r ->]].
      unfold rewrite_src.
      destruct (make_cid f r) as [|c cid] eqn:M; [eauto using close_tag_ends|].
      rewrite encode_utf8_ok.
      * eauto using close_tag_ends.
      * rewrite <- M. do 3 (apply ascii_app; [repeat constructor|]).
        apply ascii_app; [apply make_cid_ascii | repeat constructor].
    + simpl. eauto using close_tag_ends.
  - eauto using close_plain_ends.
Qed.

End TagFacts.
Import TagFacts.

Module BodyFacts.

Lemma search_cut r inp st e c :
  search r inp = Some (st, e, c) ->
  inp = firstn st inp ++ matched inp (st, e, c) ++ skipn e inp.
Proof.
  intros H. apply search_sound in H. destruct H as [w [_ [_ [Hinp [_ ->]]]]].
  exact Hinp.
Qed.

(** [re.sub] visits the matches of [scan], keeps the texts between them
    and puts the value of the callback in the place of each match. *)
Lemma sub_all_fuel_scan d n :
  cids d -> forall inp,
  exists new_tags,
    Forall2 (fun tag tag' => fix_img_tag d tag = Some tag'
                             /\ endswith SELF_CLOSE tag' = true)
      (map snd (fst (scan_fuel n IMG inp))) new_tags
    /\ inp = weave (map fst (fst (scan_fuel n IMG inp)))
               (map snd (fst (scan_fuel n IMG inp))) (snd (scan_fuel n IMG inp))
    /\ sub_all_fuel n IMG (fix_img_tag d) inp
       = Some (weave (map fst (fst (scan_fuel n IMG inp))) new_tags
                 (snd (scan_fuel n IMG inp))).
Proof.
  intros Hd. induction n as [|n IH]; intros inp; simpl.
  - exists []. simpl. repeat split; constructor.
  - destruct (search IMG inp) as [[[st e] c]|] eqn:S.
    + destruct (fix_img_tag_total d (matched inp (st, e, c)) Hd
                  (img_match_ends _ _ S)) as [tag' [F E]].
      destruct (IH (skipn e inp)) as [new_tags [F2 [W R]]].
      exists (tag' :: new_tags). simpl. rewrite F, R. repeat split.
      * constructor; auto.
      * rewrite <- W. now apply (search_cut IMG).
    + exists []. simpl. repeat split; constructor.
Qed.

End BodyFacts.
Import BodyFacts.

Module SrcFacts.

Ltac app_norm :=
  repeat first [rewrite <- app_assoc | progress cbn [app]]; reflexivity.

Lemma slice_mid (A v B : bytes) :
  slice (length A) (length A + length v) (A ++ v ++ B) = v.
Proof.
  unfold slice. rewrite skipn_app, skipn_all, Nat.sub_diag. simpl.
  replace (length A + length v - length A) with (length v) by lia.
  rewrite firstn_app, firstn_all, Nat.sub_diag. simpl. apply app_nil_r.
Qed.

Lemma lower_length u l : lower u = lower l -> length u = length l.
Proof.
  intros H. apply (f_equal (@length byte)) in H. unfold lower in H.
  now rewrite !length_map in H.
Qed.

Lemma is_quote_cases x : is_quote x = true -> x = DQUOTE \/ x = SQUOTE.
Proof.
  unfold is_quote, is_byte. intros H. apply orb_true_iff in H.
  destruct H as [H|H]; apply Byte.byte_dec_bl in H; auto.
Qed.

(** A match of the src pattern: the attribute name in some letter case,
    white space, the equals sign, white space, an optional quote, the value,
    the same quote again; group 2 is the value. *)
Lemma src_shape tag st e c :
  search SRC tag = Some (st, e, c) ->
  exists name ws1 ws2 q value,
    tag = firstn st tag
          ++ (name ++ ws1 ++ [EQUALS] ++ ws2 ++ q ++ value ++ q)
          ++ skipn e tag
    /\ lower name = b "src"
    /\ forallb is_space ws1 = true /\ forallb is_space ws2 = true
    /\ (q = [] \/ q = [DQUOTE] \/ q = [SQUOTE])
    /\ value <> [] /\ forallb src_value_class value = true
    /\ group_bytes tag (st, e, c) 2 = value.
Proof.
  intros H. apply search_sound in H.
  destruct H as [w [D [He [Hinp [Hst Hm]]]]].
  pose proof (derives_prefix _ _ _ _ _ _ _ D) as [rest Hs].
  unfold SRC, lit_ci in D. apply inv_lit_ci in D.
  destruct D as [name [s1 [w1 [_ [-> [Hname D]]]]]].
  apply inv_star in D. destruct D as [ws1 [s2 [w2 [_ [-> [Hws1 D]]]]]].
  apply inv_one in D. destruct D as [x [s3 [w3 [_ [-> [Hx D]]]]]].
  apply inv_star in D. destruct D as [ws2 [s4 [w4 [_ [-> [Hws2 D]]]]]].
  apply inv_open in D. apply inv_opt in D.
  destruct D as [q [s5 [w5 [_ [-> [Hq D]]]]]].
  apply inv_close in D. apply inv_open in D. apply inv_plus in D.
  destruct D as [value [s6 [w6 [_ [-> [Hvalue [Hne D]]]]]]].
  apply inv_close in D. apply inv_backref in D.
  destruct D as [i [j [s7 [w7 [Hg [_ [-> D]]]]]]].
  apply inv_nil in D. destruct D as [-> Hc].
  unfold is_byte in Hx. apply Byte.byte_dec_bl in Hx. subst x.
  pose proof (lower_length _ _ Hname) as Ln.
  clear Hs Hm s1 s2 s3 s4 s5 s6 s7 rest.
  remember (S (st + length (b "src") + length ws1) + length ws2) as p1 eqn:Ep1.
  simpl in Hg, Hc. injection Hg as <- <-. subst c.
  set (A := firstn st tag ++ name ++ ws1 ++ [EQUALS] ++ ws2) in *.
  assert (LA : length A = p1).
  { unfold A. rewrite !length_app, Hst, Ln, Ep1. simpl. lia. }
  rewrite app_nil_r in Hinp.
  assert (Hq' : slice p1 (p1 + length q) tag = q).
  { rewrite <- LA. rewrite Hinp at 1.
    replace (firstn st tag
               ++ (name ++ ws1 ++ EQUALS :: ws2 ++ q ++ value
                     ++ slice p1 (p1 + length q) tag) ++ skipn e tag)
      with (A ++ q ++ (value ++ slice p1 (p1 + length q) tag ++ skipn e tag))
      by (unfold A; app_norm).
    apply slice_mid. }
  rewrite Hq' in Hinp.
  exists name, ws1, ws2, q, value.
  split; [|split; [|split; [|split; [|split; [|split; [|split]]]]]]; auto.
  - destruct Hq as [->|[y [-> Hy]]]; [auto|].
    destruct (is_quote_cases _ Hy) as [->| ->]; auto.
  - unfold group_bytes. simpl.
    replace (p1 + length q + length value) with (length (A ++ q) + length value)
      by (rewrite length_app; lia).
    replace (p1 + length q) with (length (A ++ q)) by (rewrite length_app; lia).
    rewrite Hinp at 1.
    replace (firstn st tag ++ (name ++ ws1 ++ EQUALS :: ws2 ++ q ++ value ++ q)
               ++ skipn e tag)
      with ((A ++ q) ++ value ++ (q ++ skipn e tag))
      by (unfold A; app_norm).
    apply slice_mid.
Qed.

(** The pattern of line 202 matches where the pattern of line 177 does. *)
Lemma src_sub_same_place tag st e c :
  search SRC tag = Some (st, e, c) ->
  exists c', search SRC_SUB tag = Some (st, e, c').
Proof.
  apply (search_same_place (Nat.eqb 2) SRC SRC_SUB tag); reflexivity.
Qed.

(** The attribute written for an identifier. *)
Lemma new_src_attr_bytes filename r :
  encode_utf8 (s_ "src=" ++ [Byte.to_N DQUOTE] ++ s_ "cid:"
                 ++ make_cid filename r ++ [Byte.to_N DQUOTE])
  = Some (b "src=" ++ [DQUOTE] ++ b "cid:"
            ++ ascii_bytes (make_cid filename r) ++ [DQUOTE]).
Proof.
  rewrite encode_utf8_ok.
  - now rewrite !ascii_bytes_app.
  - do 3 (apply ascii_app; [repeat constructor|]).
    apply ascii_app; [apply make_cid_ascii | repeat constructor].
Qed.

Lemma rewrite_src_resolved tag st e c filename r :
  search SRC tag = Some (st, e, c) ->
  rewrite_src (Some (make_cid filename r)) tag
  = Some (firstn st tag
          ++ (b "src=" ++ [DQUOTE] ++ b "cid:"
                ++ ascii_bytes (make_cid filename r) ++ [DQUOTE])
          ++ skipn e tag).
Proof.
  intros H. destruct (src_sub_same_place _ _ _ _ H) as [c' H'].
  unfold rewrite_src.
  destruct (make_cid filename r) as [|x cid] eqn:M;
    [now apply make_cid_nonempty in M|].
  rewrite <- M, new_src_attr_bytes. unfold sub1. rewrite H'. simpl.
  now rewrite app_nil_r.
Qed.

End SrcFacts.
Import SrcFacts.


(* ================================================================== *)
(** * Facts about counting a header name *)

Module CountFacts.










Lemma lower_idem s : lower (lower s) = lower s.
Proof.
  unfold lower. rewrite map_map. apply map_ext.
  intros x. destruct x; reflexivity.
Qed.




End CountFacts.
Import CountFacts.

(* ================================================================== *)
(** * Facts about the header of an image part *)

Module HeaderFacts.


Lemma content_id_sub_same_place p st e c :
  search CONTENT_ID p = Some (st, e, c) ->
  exists c', search CONTENT_ID_SUB p = Some (st, e, c').
Proof.
  apply (search_same_place (fun _ => true) CONTENT_ID CONTENT_ID_SUB p);
    reflexivity.
Qed.

Lemma location_sub_same_place p st e c :
  search LOCATION p = Some (st, e, c) ->
  exists c', search LOCATION_SUB p = Some (st, e, c').
Proof.
  apply (search_same_place (fun _ => true) LOCATION LOCATION_SUB p);
    reflexivity.
Qed.

(** Group 1 of the pattern of line 132 is the whole match. *)
Lemma location_sub_group p st e c :
  search LOCATION_SUB p = Some (st, e, c) ->
  group_bytes p (st, e, c) 1 = matched p (st, e, c)
  /\ p = firstn st p ++ matched p (st, e, c) ++ skipn e p.
Proof.
  intros H. pose proof (search_cut _ _ _ _ _ H) as Cut. split; [|exact Cut].
  apply search_sound in H.
  destruct H as [w [D [He [Hinp [Hst Hm]]]]].
  unfold LOCATION_SUB, lit_ci in D. simpl app in D.
  apply inv_open in D.
  change (One (ci "C") :: ?r) with (One (ci "C") :: r) in D.
  apply (inv_lit_ci p (b "Content-Location:")) in D.
  destruct D as [name [s1 [w1 [_ [-> [Hname D]]]]]].
  apply inv_opt in D. destruct D as [sp [s2 [w2 [_ [-> [Hsp D]]]]]].
  apply inv_plus in D. destruct D as [value [s4 [w4 [_ [-> [Hv [Hne D]]]]]]].
  apply inv_close in D. apply inv_nil in D. destruct D as [-> Hc].
  pose proof (lower_length _ _ Hname) as Ln.
  remember (st + length (b "Content-Location:") + length sp + length value)
    as e' eqn:Ee.
  assert (e' = e) as -> by (rewrite Ee, He, !length_app, Ln; simpl; lia).
  simpl in Hc. subst c. reflexivity.
Qed.








Section WithUuid.

Variable rnd : nat -> N.

Lemma header_bytes cid :
  ascii cid ->
  encode_ascii (s_ "Content-ID: <" ++ cid ++ s_ ">") = Some (identifier_header cid).
Proof.
  intros H. rewrite encode_ascii_ok.
  - now rewrite !ascii_bytes_app.
  - apply ascii_app; [repeat constructor|].
    apply ascii_app; [exact H | repeat constructor].
Qed.

(** Lines 121-128: the part has a bracketed identifier header. *)
Lemma step_replace st0 p m st2 e2 c2 :
  classify p = Image ->
  search LOCATION p = Some m ->
  search CONTENT_ID p = Some (st2, e2, c2) ->
  exists rm',
    step rnd st0 p
    = Some (State rm' (html_part_info st0)
              (modified_content_parts st0
               ++ [firstn st2 p
                   ++ identifier_header
                        (make_cid
                           (basename (decode_ignore (strip (group_bytes p m 1))))
                           (rnd (uuid_calls st0)))
                   ++ skipn e2 p])
              (S (uuid_calls st0))).
Proof.
  intros Hc Hl Hi. unfold step, image_part. rewrite Hc, Hl, Hi.
  rewrite header_bytes by apply make_cid_ascii.
  destruct (content_id_sub_same_place _ _ _ _ Hi) as [c' Hs].
  unfold sub1. rewrite Hs. simpl fst. simpl snd. unfold expand. simpl.
  rewrite app_nil_r. eauto.
Qed.

(** Lines 129-134: the part has no bracketed identifier header. *)
Lemma step_insert st0 p st e c :
  classify p = Image ->
  search LOCATION p = Some (st, e, c) ->
  search CONTENT_ID p = None ->
  exists rm',
    step rnd st0 p
    = Some (State rm' (html_part_info st0)
              (modified_content_parts st0
               ++ [firstn st p ++ matched p (st, e, c) ++ CRLF
                   ++ identifier_header
                        (make_cid
                           (basename
                              (decode_ignore (strip (group_bytes p (st, e, c) 1))))
                           (rnd (uuid_calls st0)))
                   ++ skipn e p])
              (S (uuid_calls st0))).
Proof.
  intros Hc Hl Hi. unfold step, image_part. rewrite Hc, Hl, Hi.
  rewrite encode_ascii_ok by apply make_cid_ascii.
  destruct (location_sub_same_place _ _ _ _ Hl) as [c' Hs].
  destruct (location_sub_group _ _ _ _ Hs) as [Hg _].
  unfold sub1. rewrite Hs. simpl fst. simpl snd. unfold expand.
  cbn [map concat]. rewrite Hg.
  change (matched p (st, e, c')) with (matched p (st, e, c)).
  eexists. do 3 f_equal. unfold identifier_header. app_norm.
Qed.

End WithUuid.

End HeaderFacts.
Import HeaderFacts.

(* ================================================================== *)
(** * Facts about the sanitized file name *)

Module LegalFacts.

Local Open Scope N_scope.








End LegalFacts.
Import LegalFacts.


(* ================================================================== *)
(** * Facts about the blank line that ends the headers *)

Module BlankFacts.

Lemma eqb_sym (x y : byte) : Byte.eqb x y = Byte.eqb y x.
Proof.
  destruct (eqb_spec x y) as [->|N]; [now rewrite eqb_refl|].
  destruct (eqb_spec y x) as [->|_]; [congruence | reflexivity].
Qed.

Lemma contains_anywhere p s : contains p s = anywhere (startswith p) s.
Proof.
  induction s as [|x s IH]; rewrite contains_unfold; simpl; [reflexivity|].
  now rewrite IH.
Qed.

Lemma anywhere_orb P Q s :
  anywhere (fun t => P t || Q t) s = anywhere P s || anywhere Q s.
Proof.
  induction s as [|x s IH]; simpl.
  - now rewrite !orb_false_r.
  - rewrite IH. destruct (P (x :: s)), (Q (x :: s)), (anywhere P s); reflexivity.
Qed.

Lemma has_blank_line_anywhere s : has_blank_line s = anywhere blank_line_here s.
Proof.
  unfold has_blank_line, blank_line_here.
  now rewrite anywhere_orb, !contains_anywhere.
Qed.

(** Where the pattern of line 161 matches: at an empty line, or at the
    carriage return before one. *)
Lemma header_end_here inp s pos c :
  is_some (exec inp HEADER_END s pos c)
  = blank_line_here s
    || match s with
       | x :: s' => is_byte CR x && blank_line_here s'
       | [] => false
       end.
Proof.
  unfold HEADER_END, blank_line_here, is_byte. simpl.
  destruct s as [|x [|y [|z [|u s]]]]; simpl;
    rewrite ?(eqb_sym LF), ?(eqb_sym CR);
    repeat match goal with
           | |- context [Byte.eqb ?a ?b] => destruct (Byte.eqb a b)
           end; reflexivity.
Qed.

Lemma search_from_header_end inp s : forall pos,
  is_some (search_from inp HEADER_END s pos)
  = anywhere (fun t => is_some (exec inp HEADER_END t 0 [])) s.
Proof.
  induction s as [|x s IH]; intros pos.
  - cbn [search_from anywhere].
    pose proof (header_end_here inp [] pos []) as A.
    pose proof (header_end_here inp [] 0 []) as B.
    destruct (exec inp HEADER_END [] pos []) as [[? ?]|];
      destruct (exec inp HEADER_END [] 0 []) as [[? ?]|]; simpl in *; congruence.
  - cbn [search_from anywhere]. rewrite <- (IH (S pos)).
    pose proof (header_end_here inp (x :: s) pos []) as A.
    pose proof (header_end_here inp (x :: s) 0 []) as B.
    destruct (exec inp HEADER_END (x :: s) pos []) as [[? ?]|];
      destruct (exec inp HEADER_END (x :: s) 0 []) as [[? ?]|];
      simpl in *; try congruence; reflexivity.
Qed.

Lemma anywhere_header_end inp s :
  anywhere (fun t => is_some (exec inp HEADER_END t 0 [])) s
  = anywhere blank_line_here s.
Proof.
  induction s as [|x s IH]; cbn [anywhere]; rewrite header_end_here.
  - now rewrite !orb_false_r.
  - rewrite IH. destruct s as [|y s]; cbn [anywhere].
    + destruct (blank_line_here [x]), (is_byte CR x), (blank_line_here []);
        reflexivity.
    + destruct (blank_line_here (x :: y :: s)), (is_byte CR x),
        (blank_line_here (y :: s)); reflexivity.
Qed.

(** The search of line 161 finds a match exactly when the part has an empty
    line. *)
Lemma search_header_end p :
  is_some (search HEADER_END p) = has_blank_line p.
Proof.
  unfold search.
  now rewrite search_from_header_end, anywhere_header_end, has_blank_line_anywhere.
Qed.

End BlankFacts.
Import BlankFacts.

(** C10.  The split of the markup part into header block and body fails (the
    position of the end of the headers is asked of a search that found
    nothing) exactly when the part has no blank-line separator, an empty
    line; with one, the part is cut after the first of them. *)
Theorem C10_header_split_fails_iff_no_blank_line st info :
  (pass2 st info = inl AttributeError <-> has_blank_line (part info) = false)
  /\ (has_blank_line (part info) = true <->
      exists m, search HEADER_END (part info) = Some m
                /\ part info = firstn (snd (fst m)) (part info)
                               ++ skipn (snd (fst m)) (part info)).
Proof.
  rewrite <- search_header_end. unfold pass2. split.
  - destruct (search HEADER_END (part info)) as [m|]; simpl.
    + split; [|discriminate].
      destruct (rewrite_body _ _); discriminate.
    + tauto.
  - destruct (search HEADER_END (part info)) as [m|]; simpl.
    + split; [|reflexivity]. intros _. exists m. split; [reflexivity|].
      symmetry. apply firstn_skipn.
    + split; [discriminate|]. intros [m [H _]]. discriminate.
Qed.

Module ClassFacts.

Ltac not_in_mark :=
  let I := fresh in
  intros I; cbv in I; repeat (destruct I as [I|I]; [discriminate|]); exact I.

(** A marker holds no line feed, so it is found in the header block or in
    the body, not across the empty line between them. *)
Lemma classify_split h body :
  classify (h ++ LF :: body)
  = if contains IMAGE_MARK h || contains IMAGE_MARK body then Image
    else if contains HTML_MARK h || contains HTML_MARK body then Markup
    else Other.
Proof.
  unfold classify. fold IMAGE_MARK HTML_MARK.
  rewrite !contains_across by (discriminate || not_in_mark). reflexivity.
Qed.

(** The part recorded in [html_part_info] is a markup part, and it stands
    at the recorded index. *)
Lemma pass1_info_markup rnd l : forall st0 st',
  pass1 rnd st0 l = Some st' ->
  forall i, html_part_info st' = Some i ->
  html_part_info st0 = Some i
  \/ exists q, nth_error (modified_content_parts st') (index i) = Some q
               /\ classify q = Markup.
Proof.
  induction l as [|q l IH]; intros st0 st' H i Hi; simpl in H.
  - injection H as <-. auto.
  - destruct (step rnd st0 q) as [sta|] eqn:S; [|discriminate].
    destruct (IH _ _ H i Hi) as [Ha|Hb]; [|auto].
    destruct (classify q) eqn:C.
    + left. rewrite <- (step_keeps_info rnd st0 q sta);
        [exact Ha | congruence | exact S].
    + rewrite (step_markup rnd st0 q C) in S. injection S as <-.
      simpl in Ha. injection Ha as <-. right. simpl. exists q.
      split; [|exact C].
      destruct (pass1_appends rnd _ _ _ H) as [l' [-> _]]. simpl.
      rewrite <- app_assoc. rewrite nth_error_app2 by lia.
      now rewrite Nat.sub_diag.
    + left. rewrite <- (step_keeps_info rnd st0 q sta);
        [exact Ha | congruence | exact S].
Qed.

End ClassFacts.
Import ClassFacts.

(** C8.  The kind of a part is decided by the two markers,
    [Content-Type: image] and then [Content-Type: text/html], looked for in
    all the bytes of the part, header block and body alike: two parts with
    the same header block are of the same kind when neither body holds a
    marker. *)
Theorem C8_same_headers_same_kind h body1 body2 :
  contains IMAGE_MARK body1 = false -> contains HTML_MARK body1 = false ->
  contains IMAGE_MARK body2 = false -> contains HTML_MARK body2 = false ->
  classify (h ++ LF :: body1) = classify (h ++ LF :: body2)
  /\ classify (h ++ LF :: body1)
     = (if contains IMAGE_MARK h then Image
        else if contains HTML_MARK h then Markup else Other).
Proof.
  intros A1 B1 A2 B2. rewrite !classify_split, A1, B1, A2, B2.
  rewrite !orb_false_r. auto.
Qed.


(** C1.  The loop of pass 1 never raises.  When no part of the
    archive is markup, nothing is recorded and the run ends with the
    missing-markup error, the output file never opened.  When some part is
    markup, what is recorded, and then rewritten by pass 2, is the last such
    part in part order; every other part is as pass 1 left it. *)
Theorem C1_last_markup_part_is_processed rnd content_parts :
  exists st,
    pass1 rnd init content_parts = Some st
    /\ (Forall (fun q => classify q <> Markup) content_parts ->
        html_part_info st = None
        /\ forall e content m,
             input_exists e = true -> input_read e = Some content ->
             uuid4 e = rnd ->
             search BOUNDARY content = Some m ->
             decodable (boundary_of content m) = true ->
             content_parts_of (boundary_of content m) content = content_parts ->
             run e = Result (Some MissingMarkupPart) None)
    /\ (forall pre p post,
          content_parts = pre ++ p :: post ->
          classify p = Markup ->
          Forall (fun q => classify q <> Markup) post ->
          html_part_info st = Some (HtmlInfo (length pre) (encoding_of p) p)
          /\ nth_error (modified_content_parts st) (length pre) = Some p
          /\ forall parts',
               pass2 st (HtmlInfo (length pre) (encoding_of p) p) = inr parts' ->
               (forall i, i <> length pre ->
                          nth_error parts' i
                          = nth_error (modified_content_parts st) i)
               /\ exists m body',
                    search HEADER_END p = Some m
                    /\ rewrite_body (ref_map st)
                         (decode_body (encoding_of p) (skipn (snd (fst m)) p))
                       = Some body'
                    /\ nth_error parts' (length pre)
                       = Some (firstn (snd (fst m)) p
                               ++ encode_body (encoding_of p) body')).
Proof.
  destruct (pass1_total rnd content_parts init) as [st H].
  exists st. split; [exact H|]. split.
  - intros HF. pose proof (pass1_no_markup rnd _ _ HF H) as Hn.
    split; [exact Hn|].
    intros e content m He Hr Hu Hb Hd Hc.
    unfold run, transform, process. rewrite He, Hr, Hb, Hd, Hc, Hu, H, Hn.
    reflexivity.
  - intros pre p post -> Hp Hpost.
    destruct (pass1_last_markup rnd pre p post st Hp Hpost H) as [Hi Hn].
    split; [exact Hi|]. split; [exact Hn|].
    intros parts' H2.
    destruct (pass2_inr _ _ _ H2) as [m [body' [Hm [Hb ->]]]]. simpl in *.
    split.
    + intros i Hne. now apply list_set_other.
    + exists m, body'. split; [exact Hm|]. split; [exact Hb|].
      apply list_set_same. apply nth_error_Some. congruence.
Qed.

(** C5.  When the input file does not exist, cannot be read, declares no
    boundary or holds no markup part, the run ends with an error and the
    output file is never opened. *)
Theorem C5_fatal_before_output e :
  fatal e -> output (run e) = None /\ status (run e) <> None.
Proof.
  unfold run, transform, fatal.
  destruct (input_exists e); [|split; [reflexivity | discriminate]].
  destruct (input_read e) as [content|]; [|split; [reflexivity | discriminate]].
  simpl. intros [F|[F|[[c [E F]]|[c [m [E [Hb HF]]]]]]]; try discriminate.
  - injection E as ->. unfold process. rewrite F. split; [reflexivity | discriminate].
  - injection E as ->. unfold process. rewrite Hb.
    destruct (decodable _); simpl; [|split; [reflexivity | discriminate]].
    destruct (pass1_total (uuid4 e)
                (content_parts_of (boundary_of c m) c) init)
      as [st H].
    rewrite H, (pass1_no_markup _ _ _ HF H). split; [reflexivity | discriminate].
Qed.

(* ================================================================== *)
(** * Facts about splitting and joining *)

Module SplitFacts.

Lemma split_fuel_none n sep s : find sep s = None -> split_fuel n sep s = [s].
Proof. intros H. destruct n; simpl; [reflexivity | now rewrite H]. Qed.

(** Pieces that hide no delimiter are what the split of their join gives. *)
Lemma split_join sep : forall rest q n,
  Forall (clean sep) (removelast (q :: rest)) ->
  find sep (last (q :: rest) []) = None ->
  length rest <= n ->
  split_fuel n sep (join sep (q :: rest)) = q :: rest.
Proof.
  induction rest as [|q2 rest IH]; intros q n HF HL Hn.
  - simpl in *. now apply split_fuel_none.
  - destruct n as [|n]; [simpl in Hn; lia|].
    change (removelast (q :: q2 :: rest)) with (q :: removelast (q2 :: rest)) in HF.
    apply Forall_cons_iff in HF. destruct HF as [Hq HF].
    change (last (q :: q2 :: rest) []) with (last (q2 :: rest) []) in HL.
    change (join sep (q :: q2 :: rest)) with (q ++ sep ++ join sep (q2 :: rest)).
    cbn [split_fuel].
    unfold clean in Hq.
    rewrite app_assoc, (find_app_r _ _ (join sep (q2 :: rest)) _ Hq).
    rewrite firstn_app, firstn_app, firstn_all, Nat.sub_diag, firstn_O.
    replace (length q - length (q ++ sep)) with 0
      by (rewrite length_app; lia).
    simpl firstn. rewrite !app_nil_r.
    rewrite <- (length_app q sep), skipn_app, skipn_all, Nat.sub_diag.
    cbn [app skipn]. rewrite IH; auto. simpl in Hn. lia.
Qed.

Lemma join_length sep pieces :
  sep <> [] -> length pieces - 1 <= length (join sep pieces).
Proof.
  intros Hs. induction pieces as [|q rest IH]; [simpl; lia|].
  destruct rest as [|q2 rest]; [simpl; lia|].
  change (join sep (q :: q2 :: rest)) with (q ++ sep ++ join sep (q2 :: rest)).
  rewrite !length_app. destruct sep; [congruence|]. simpl in *. lia.
Qed.

Lemma split_join_data sep q rest :
  sep <> [] ->
  Forall (clean sep) (removelast (q :: rest)) ->
  find sep (last (q :: rest) []) = None ->
  split sep (join sep (q :: rest)) = q :: rest.
Proof.
  intros Hs HF HL. unfold split. apply split_join; auto.
  pose proof (join_length sep (q :: rest) Hs) as L.
  change (length (q :: rest)) with (S (length rest)) in L. lia.
Qed.

Lemma join_cons sep q q2 rest :
  join sep (q :: q2 :: rest) = q ++ sep ++ join sep (q2 :: rest).
Proof. reflexivity. Qed.

Lemma reassemble_join h d ps :
  reassemble h d ps = join d (h :: map with_line_break ps ++ [b "--" ++ CRLF]).
Proof.
  unfold reassemble. revert h. induction ps as [|p ps IH]; intros h.
  - simpl. reflexivity.
  - cbn [map concat app]. rewrite join_cons.
    rewrite <- (IH (with_line_break p)). unfold with_line_break, write_part.
    repeat rewrite <- app_assoc. reflexivity.
Qed.

Lemma removelast_app_one (A : Type) (l : list A) x : removelast (l ++ [x]) = l.
Proof. rewrite removelast_app by discriminate. simpl. apply app_nil_r. Qed.

Lemma length_removelast_tl (A : Type) (l : list A) :
  length (removelast (tl l)) = length l - 2.
Proof.
  destruct l as [|x l]; [reflexivity|]. simpl tl.
  destruct l as [|y l] using rev_ind; [reflexivity|].
  rewrite removelast_app_one. simpl. rewrite length_app. simpl. lia.
Qed.

End SplitFacts.
Import SplitFacts.

Module RunFacts.

(** What a run that reaches the end went through. *)
Lemma process_inr rnd content a :
  process rnd content = inr a ->
  exists m st info,
    search BOUNDARY content = Some m
    /\ boundary a = boundary_of content m
    /\ header_part a = hd [] (split (boundary a) content)
    /\ pass1 rnd init (content_parts_of (boundary a) content) = Some st
    /\ html_part_info st = Some info
    /\ pass2 st info = inr (parts a).
Proof.
  unfold process. destruct (search BOUNDARY content) as [m|]; [|discriminate].
  destruct (decodable _); simpl; [|discriminate].
  destruct (pass1 rnd init _) as [st|] eqn:P; [|discriminate].
  destruct (html_part_info st) as [info|] eqn:I; [|discriminate].
  destruct (pass2 st info) as [e|ps] eqn:P2; [discriminate|].
  intros [= <-]. simpl. exists m, st, info. repeat split; auto.
Qed.

(** A delimiter is never empty. *)
Lemma boundary_nonempty content m : boundary_of content m <> [].
Proof. discriminate. Qed.

(** A part that is neither image nor markup is in the output sequence as
    it was, at its place. *)
Lemma other_part_kept rnd pre q post st info parts' :
  classify q = Other ->
  pass1 rnd init (pre ++ q :: post) = Some st ->
  html_part_info st = Some info -> pass2 st info = inr parts' ->
  nth_error parts' (length pre) = Some q.
Proof.
  intros Hc H Hi Hp.
  assert (Hn : nth_error (modified_content_parts st) (length pre) = Some q).
  { rewrite pass1_app in H.
    destruct (pass1 rnd init pre) as [st1|] eqn:H1; [|discriminate].
    simpl in H. unfold step in H. rewrite Hc in H.
    pose proof (pass1_length rnd _ _ _ H1) as L. simpl in L.
    destruct (pass1_appends rnd _ _ _ H) as [l' [-> _]]. simpl.
    rewrite <- app_assoc. simpl.
    rewrite nth_error_app2 by lia. now rewrite L, Nat.sub_diag. }
  destruct (pass2_inr _ _ _ Hp) as [m [body' [_ [_ ->]]]].
  rewrite list_set_other; [exact Hn|].
  intros E.
  destruct (pass1_info_markup rnd _ _ _ H info Hi) as [Ha|[q' [Hq Cq]]];
    [discriminate|].
  rewrite <- E, Hn in Hq. injection Hq as <-. congruence.
Qed.

End RunFacts.
Import RunFacts.

(** C6.  When the run reaches the writing of the output, and no occurrence
    of the delimiter begins inside the header part or inside a part as it
    is written (with its leading line break) once the delimiter follows it,
    and the closing line holds no occurrence of the delimiter, splitting
    what is written on the delimiter gives back the header part, the
    written parts in their order and the closing line; the number of pieces
    is that of the input split on the same delimiter, and a part that is
    neither an image nor markup stands at its own place, with the line
    break that precedes every part. *)
Theorem C6_resplit_when_no_delimiter_inside rnd content a :
  process rnd content = inr a ->
  Forall (clean (boundary a)) (header_part a :: map with_line_break (parts a)) ->
  find (boundary a) (b "--" ++ CRLF) = None ->
  split (boundary a) (reassemble (header_part a) (boundary a) (parts a))
  = pieces_of a
  /\ length (split (boundary a)
               (reassemble (header_part a) (boundary a) (parts a)))
     = length (split (boundary a) content)
  /\ forall i q,
       nth_error (content_parts_of (boundary a) content) i = Some q ->
       classify q = Other ->
       nth_error (split (boundary a)
                    (reassemble (header_part a) (boundary a) (parts a))) (S i)
       = Some (with_line_break q).
Proof.
  intros H HF HL.
  destruct (process_inr _ _ _ H) as [m [st [info [Hb [Hd [Hh [P1 [Hi P2]]]]]]]].
  assert (S : split (boundary a)
                (reassemble (header_part a) (boundary a) (parts a))
              = pieces_of a).
  { rewrite reassemble_join. unfold pieces_of. apply split_join_data.
    - rewrite Hd. apply boundary_nonempty.
    - change (header_part a :: map with_line_break (parts a) ++ [b "--" ++ CRLF])
        with ((header_part a :: map with_line_break (parts a))
                ++ [b "--" ++ CRLF]).
      rewrite removelast_app_one. exact HF.
    - change (header_part a :: map with_line_break (parts a) ++ [b "--" ++ CRLF])
        with ((header_part a :: map with_line_break (parts a))
                ++ [b "--" ++ CRLF]).
      rewrite last_last. exact HL. }
  assert (Lp : length (parts a)
               = length (content_parts_of (boundary a) content)).
  { destruct (pass2_inr _ _ _ P2) as [m2 [body' [_ [_ ->]]]].
    rewrite list_set_length. now rewrite (pass1_length rnd _ _ _ P1). }
  split; [exact S|]. split.
  - rewrite S. unfold pieces_of. simpl. rewrite length_app, length_map, Lp.
    unfold content_parts_of. rewrite length_removelast_tl.
    assert (1 <= length (content_parts_of (boundary a) content)).
    { destruct (content_parts_of (boundary a) content) eqn:E; [|simpl; lia].
      simpl in P1. injection P1 as <-. discriminate. }
    unfold content_parts_of in H0. rewrite length_removelast_tl in H0.
    simpl. lia.
  - intros i q Hq Hc. rewrite S. unfold pieces_of. simpl.
    destruct (nth_error_split _ _ Hq) as [pre [post [E Li]]].
    rewrite E in P1.
    pose proof (other_part_kept rnd pre q post st info (parts a) Hc P1 Hi P2) as K.
    rewrite Li in K.
    rewrite nth_error_app1.
    + now apply map_nth_error.
    + rewrite length_map. apply nth_error_Some. congruence.
Qed.

Import Quopri.

(* ================================================================== *)
(** * Facts about quoted-printable *)

Module QuopriFacts.

(** Decoding a [=XX] triple of the encoder gives the byte back. *)
Lemma decode_quoted c Y :
  a2b_qp_loop false (EQUALS :: to_hex_hi c :: to_hex_lo c :: Y)
  = c :: a2b_qp_loop false Y.
Proof. destruct c; reflexivity. Qed.

Lemma decode_literal c Y :
  c <> EQUALS -> a2b_qp_loop false (c :: Y) = c :: a2b_qp_loop false Y.
Proof.
  intros H. cbn [a2b_qp_loop]. unfold is_byte.
  destruct (eqb_spec c EQUALS); [contradiction | reflexivity].
Qed.

Lemma decode_soft_lf Y :
  a2b_qp_loop false (EQUALS :: LF :: Y) = a2b_qp_loop false Y.
Proof. reflexivity. Qed.

Lemma decode_soft_crlf Y :
  a2b_qp_loop false (EQUALS :: CR :: LF :: Y) = a2b_qp_loop false Y.
Proof. reflexivity. Qed.

(** The decoder reads an output of the encoder piece by piece. *)
Lemma encodes_decode out d :
  encodes out d ->
  forall Y, a2b_qp_loop false (rev out ++ Y) = d ++ a2b_qp_loop false Y.
Proof.
  induction 1 as [|out d c E IH Hc|out d c E IH|out d E IH|out d E IH]; intros Y.
  - reflexivity.
  - cbn [rev]. rewrite <- !app_assoc. cbn [app].
    rewrite IH, decode_literal by assumption. reflexivity.
  - cbn [rev]. rewrite <- !app_assoc. cbn [app].
    rewrite IH, decode_quoted. reflexivity.
  - cbn [rev]. rewrite <- !app_assoc. cbn [app].
    rewrite IH, decode_soft_lf. reflexivity.
  - cbn [rev]. rewrite <- !app_assoc. cbn [app].
    rewrite IH, decode_soft_crlf. reflexivity.
Qed.

Lemma hex_lo_not_space c :
  is_byte SP (to_hex_lo c) || is_byte TAB (to_hex_lo c) = false.
Proof. destruct c; reflexivity. Qed.

(** Rewriting the white space at the end of a line keeps what the output
    stands for. *)
Lemma encodes_protect out d : encodes out d -> encodes (protect out) d.
Proof.
  intros E. unfold protect. destruct out as [|x out]; [exact E|].
  destruct (is_byte SP x || is_byte TAB x) eqn:W; [|exact E].
  inversion E; subst.
  - now apply enc_quoted.
  - rewrite hex_lo_not_space in W. discriminate.
  - discriminate.
  - discriminate.
Qed.

Lemma encodes_soft_break crlf out d :
  encodes out d -> encodes (soft_break crlf out) d.
Proof.
  intros E. unfold soft_break. destruct crlf; cbn [app].
  - now apply enc_soft_crlf.
  - now apply enc_soft_lf.
Qed.

Lemma not_quoted_not_equals c rest linelen :
  must_quote c rest linelen = false -> c <> EQUALS.
Proof.
  intros Q ->. discriminate Q.
Qed.

Lemma cr_not_quoted c rest linelen :
  is_byte CR c = true -> must_quote c rest linelen = false.
Proof.
  unfold is_byte. intros H. apply Byte.byte_dec_bl in H. subst c. reflexivity.
Qed.

Lemma decode_output out d :
  encodes out d -> a2b_qp_loop false (rev out) = d.
Proof.
  intros E. rewrite <- (app_nil_r (rev out)), (encodes_decode _ _ E).
  apply app_nil_r.
Qed.

Lemma encodes_step crlf (broke : bool) out d c :
  encodes out d -> c <> EQUALS ->
  encodes (c :: (if broke then soft_break crlf out else out)) (d ++ [c]).
Proof.
  intros E Hc. apply enc_literal; [|exact Hc].
  destruct broke; [now apply encodes_soft_break | exact E].
Qed.

Lemma encodes_quote_step crlf (broke : bool) out d c :
  encodes out d ->
  encodes (to_hex_lo c :: to_hex_hi c :: EQUALS
             :: (if broke then soft_break crlf out else out)) (d ++ [c]).
Proof.
  intros E. apply enc_quoted.
  destruct broke; [now apply encodes_soft_break | exact E].
Qed.

(** Data without CRLF, encoded with LF line ends, decode to themselves. *)
Lemma roundtrip_lf data : forall linelen out d,
  encodes out d -> contains CRLF data = false ->
  a2b_qp_loop false (b2a_qp_loop false data linelen out) = d ++ data.
Proof.
  induction data as [|c rest IH]; intros linelen out d E H.
  - cbn [b2a_qp_loop]. rewrite (decode_output _ _ E). now rewrite app_nil_r.
  - rewrite contains_unfold in H. apply orb_false_iff in H. destruct H as [H1 H2].
    cbn [b2a_qp_loop]. destruct (must_quote c rest linelen) eqn:Q.
    + rewrite (IH _ _ (d ++ [c])); [now rewrite <- app_assoc | | exact H2].
      apply encodes_quote_step. exact E.
    + pose proof (not_quoted_not_equals _ _ _ Q) as Hc.
      destruct (is_byte LF c) eqn:L.
      * rewrite (IH _ _ (d ++ [c])); [now rewrite <- app_assoc | | exact H2].
        unfold line_end. cbn [app]. unfold is_byte in L.
        apply Byte.byte_dec_bl in L. subst c.
        apply enc_literal; [now apply encodes_protect | discriminate].
      * destruct rest as [|d0 rest'].
        -- rewrite (IH _ _ (d ++ [c])); [now rewrite <- app_assoc | | exact H2].
           now apply enc_literal.
        -- destruct (is_byte CR c && is_byte LF d0) eqn:P.
           ++ exfalso. apply andb_true_iff in P. destruct P as [P1 P2].
              unfold is_byte in P1, P2. apply Byte.byte_dec_bl in P1, P2.
              subst. discriminate H1.
           ++ rewrite (IH _ _ (d ++ [c])); [now rewrite <- app_assoc | | exact H2].
              apply encodes_step; assumption.
Qed.

Lemma bare_tail c rest :
  has_bare_lf None (c :: rest) = false ->
  is_byte CR c = false \/ next_is (is_byte LF) rest = false ->
  has_bare_lf None rest = false.
Proof.
  destruct rest as [|d0 rest']; [reflexivity|]. cbn [has_bare_lf next_is].
  intros H. apply orb_false_iff in H. destruct H as [_ H].
  apply orb_false_iff in H. destruct H as [H1 H2]. rewrite H2.
  intros [K|K]; rewrite K in *; [|reflexivity].
  cbn [negb] in H1. rewrite andb_true_r in H1. now rewrite H1.
Qed.

(** Data whose line feeds all follow a carriage return, encoded with CRLF
    line ends, decode to themselves. *)
Lemma roundtrip_crlf n : forall data, length data <= n ->
  forall linelen out d,
  encodes out d -> has_bare_lf None data = false ->
  a2b_qp_loop false (b2a_qp_loop true data linelen out) = d ++ data.
Proof.
  induction n as [|n IH]; intros data Hn linelen out d E H.
  - destruct data; [|simpl in Hn; lia].
    cbn [b2a_qp_loop]. rewrite (decode_output _ _ E). now rewrite app_nil_r.
  - destruct data as [|c rest].
    { cbn [b2a_qp_loop]. rewrite (decode_output _ _ E). now rewrite app_nil_r. }
    simpl in Hn. cbn [b2a_qp_loop].
    destruct (must_quote c rest linelen) eqn:Q.
    + rewrite (IH rest ltac:(lia) _ _ (d ++ [c])); [now rewrite <- app_assoc | | ].
      * apply encodes_quote_step. exact E.
      * apply (bare_tail c); [exact H|]. left.
        destruct (is_byte CR c) eqn:C; [|reflexivity].
        rewrite (cr_not_quoted _ rest linelen C) in Q. discriminate.
    + pose proof (not_quoted_not_equals _ _ _ Q) as Hc.
      destruct (is_byte LF c) eqn:L.
      * exfalso. cbn [has_bare_lf] in H. rewrite L in H. discriminate.
      * destruct rest as [|d0 rest'].
        -- rewrite (IH [] ltac:(simpl; lia) _ _ (d ++ [c]));
             [now rewrite <- app_assoc | | reflexivity].
           now apply enc_literal.
        -- destruct (is_byte CR c && is_byte LF d0) eqn:P.
           ++ apply andb_true_iff in P. destruct P as [P1 P2].
              unfold is_byte in P1, P2. apply Byte.byte_dec_bl in P1, P2.
              subst c d0. simpl in Hn.
              rewrite (IH rest' ltac:(lia) _ _ ((d ++ [CR]) ++ [LF]));
                [now rewrite <- !app_assoc | | ].
              ** unfold line_end. cbn [app].
                 apply enc_literal; [|discriminate].
                 apply enc_literal; [|discriminate].
                 now apply encodes_protect.
              ** cbn [has_bare_lf] in H. simpl in H.
                 destruct rest' as [|e0 r]; [reflexivity|].
                 cbn [has_bare_lf] in *. simpl in H. exact H.
           ++ rewrite (IH (d0 :: rest') ltac:(simpl in *; lia) _ _ (d ++ [c]));
                [now rewrite <- app_assoc | | ].
              ** apply encodes_step; assumption.
              ** apply (bare_tail c); [exact H|].
                 apply andb_false_iff in P. exact P.
Qed.

Lemma no_line_feed x : forall prev,
  has_bare_lf prev x = false -> detect_crlf prev x = false ->
  forallb (fun c => negb (is_byte LF c)) x = true.
Proof.
  induction x as [|c x IH]; intros prev H D; [reflexivity|].
  cbn [has_bare_lf detect_crlf forallb] in *.
  apply orb_false_iff in H. destruct H as [H1 H2].
  destruct (is_byte LF c) eqn:L.
  - exfalso. destruct prev as [p|]; simpl in H1; [|discriminate].
    rewrite D in H1. discriminate.
  - simpl. apply (IH (Some c)); assumption.
Qed.

Lemma crlf_has_line_feed x :
  forallb (fun c => negb (is_byte LF c)) x = true -> contains CRLF x = false.
Proof.
  induction x as [|c x IH]; intros H; [reflexivity|].
  cbn [forallb] in H. apply andb_true_iff in H. destruct H as [H1 H2].
  rewrite contains_unfold, (IH H2), orb_false_r.
  destruct x as [|d0 x]; simpl; [now rewrite andb_false_r|].
  cbn [forallb] in H2. apply andb_true_iff in H2. destruct H2 as [H3 _].
  unfold is_byte in H3. rewrite eqb_sym in H3.
  apply negb_true_iff in H3. rewrite H3. now rewrite andb_false_r.
Qed.

Lemma detect_crlf_found x : forall prev,
  detect_crlf prev x = true ->
  contains CRLF x = true
  \/ (exists p, prev = Some p /\ is_byte CR p = true).
Proof.
  induction x as [|c x IH]; intros prev D; [discriminate|].
  cbn [detect_crlf] in D. destruct (is_byte LF c) eqn:L.
  - right. destruct prev as [p|]; [eauto | discriminate].
  - destruct (IH _ D) as [K|[p [[= <-] K]]].
    + left. rewrite contains_unfold, K. apply orb_true_r.
    + left. rewrite contains_unfold.
      destruct x as [|d0 x]; [discriminate|].
      cbn [detect_crlf] in D. destruct (is_byte LF d0) eqn:L2.
      * unfold is_byte in K, L2. apply Byte.byte_dec_bl in K, L2. subst.
        reflexivity.
      * clear - IH D L2.
        assert (A : contains CRLF (d0 :: x) = true).
        { destruct (IH (Some c)) as [A|[p [_ _]]].
          - cbn [detect_crlf]. now rewrite L2.
          - exact A.
          - (* the first line feed follows a carriage return further on *)
            clear IH. revert d0 D L2. induction x as [|e x IHx]; intros d0 D L2;
              [discriminate|].
            cbn [detect_crlf] in D. destruct (is_byte LF e) eqn:L3.
            + unfold is_byte in D, L3. apply Byte.byte_dec_bl in D, L3. subst.
              reflexivity.
            + rewrite contains_unfold, (IHx e D L3). apply orb_true_r. }
        rewrite A. apply orb_true_r.
Qed.

(** Quoted-printable round trip: data with uniform line ends decode to
    themselves after encoding. *)
Lemma quopri_roundtrip x :
  uniform_line_ends x -> decodestring (encodestring x) = x.
Proof.
  unfold decodestring, encodestring. intros U.
  destruct (detect_crlf None x) eqn:D.
  - destruct U as [U|U].
    + destruct (detect_crlf_found _ _ D) as [K|[p [K _]]]; congruence.
    + apply (roundtrip_crlf (length x) x (le_n _) 0 [] [] enc_nil U).
  - apply (roundtrip_lf x 0 [] [] enc_nil).
    destruct U as [U|U]; [exact U|].
    apply crlf_has_line_feed. now apply (no_line_feed x None).
Qed.

End QuopriFacts.
Import QuopriFacts.

(** C7.  For a body whose line ends are all CRLF or all bare line feeds,
    decoding the re-encoded body gives the body back, for the
    quoted-printable encoding (decode after encode) and for every other
    declared encoding (where neither step touches the body). *)
Theorem C7_reencoded_body_decodes_back encoding body :
  uniform_line_ends body ->
  decode_body encoding (encode_body encoding body) = body.
Proof.
  intros U. unfold decode_body, encode_body.
  destruct (beqb encoding QP); [now apply quopri_roundtrip | reflexivity].
Qed.

(** C1, counterexample: of two markup parts the first is left as it was and
    the second is the one rewritten. *)
Lemma C1_first_markup_part_not_processed :
  classify first_markup = Markup
  /\ classify second_markup = Markup
  /\ process rnd0 two_markup
     = inr (Archive (header_of "AAA") (b "--AAA")
              [first_markup; markup (b "<img src=two.png/>")]).
Proof. vm_compute. repeat split. Qed.



(** C6, counterexample: no part of the input holds the delimiter, the
    identifier written into the image part does, and the output splits
    into one part more than the input. *)
Lemma C6_output_splits_into_more_parts :
  match process rnd0 clash with
  | inr a =>
      Forall (fun p => contains (boundary a) p = false)
        (content_parts_of (boundary a) clash)
      /\ length (split (boundary a) clash) = 4
      /\ length (split (boundary a)
                   (reassemble (header_part a) (boundary a) (parts a))) = 5
  | inl _ => False
  end.
Proof. vm_compute. repeat constructor. Qed.

(** C7, counterexample: a body with a CRLF and a bare line feed, rewritten
    as the body of a quoted-printable part, does not decode back. *)
Lemma C7_mixed_line_ends_not_restored :
  encoding_of (markup_qp mixed_body) = QP
  /\ rewrite_body [] (decode_body QP mixed_body) = Some mixed_body
  /\ decode_body QP (encode_body QP mixed_body)
     = b "<p>a" ++ CRLF ++ b "b" ++ CRLF ++ b "c</p>"
  /\ decode_body QP (encode_body QP mixed_body) <> mixed_body.
Proof.
  split; [vm_compute; reflexivity|]. split; [vm_compute; reflexivity|].
  split; [vm_compute; reflexivity | vm_compute; discriminate].
Qed.

(** C8, counterexample: the same header block, two bodies, two kinds. *)
Lemma C8_body_decides_kind :
  classify ((CRLF ++ b "Content-Type: text/html" ++ CRLF ++ [CR]) ++ LF
              :: b "<p>x</p>") = Markup
  /\ classify ((CRLF ++ b "Content-Type: text/html" ++ CRLF ++ [CR]) ++ LF
                 :: b "<p>Content-Type: image</p>") = Image.
Proof. vm_compute. split; reflexivity. Qed.



(** C5 at an archive without a markup part. *)
Lemma C5_witness :
  fatal (run_of no_markup)
  /\ output (run (run_of no_markup)) = None
  /\ status (run (run_of no_markup)) <> None.
Proof.
  assert (F : fatal (run_of no_markup)).
  { right. right. right. exists no_markup. eexists.
    split; [reflexivity|]. split; [vm_compute; reflexivity|].
    vm_compute. repeat constructor. discriminate. }
  split; [exact F | exact (C5_fatal_before_output _ F)].
Defined.

(** C6 at the archive [plain]. *)
Lemma C6_witness :
  process rnd0 plain = inr plain_archive
  /\ Forall (clean (boundary plain_archive))
       (header_part plain_archive
        :: map with_line_break (parts plain_archive))
  /\ find (boundary plain_archive) (b "--" ++ CRLF) = None
  /\ split (boundary plain_archive)
       (reassemble (header_part plain_archive) (boundary plain_archive)
          (parts plain_archive))
     = pieces_of plain_archive
  /\ length (split (boundary plain_archive)
               (reassemble (header_part plain_archive)
                  (boundary plain_archive) (parts plain_archive)))
     = length (split (boundary plain_archive) plain).
Proof.
  assert (H1 : process rnd0 plain = inr plain_archive)
    by (vm_compute; reflexivity).
  assert (H2 : Forall (clean (boundary plain_archive))
                 (header_part plain_archive
                  :: map with_line_break (parts plain_archive)))
    by (repeat (apply Forall_cons; [vm_compute; reflexivity|]);
        apply Forall_nil).
  assert (H3 : find (boundary plain_archive) (b "--" ++ CRLF) = None)
    by (vm_compute; reflexivity).
  destruct (C6_resplit_when_no_delimiter_inside rnd0 plain plain_archive
              H1 H2 H3) as [K1 [K2 _]].
  split; [exact H1|]. split; [exact H2|]. split; [exact H3|].
  split; [exact K1 | exact K2].
Defined.

(** C7 at a body with CRLF line ends, trailing spaces and an equals sign. *)
Lemma C7_witness :
  uniform_line_ends crlf_body
  /\ decode_body QP (encode_body QP crlf_body) = crlf_body.
Proof.
  assert (U : uniform_line_ends crlf_body) by (right; vm_compute; reflexivity).
  split; [exact U | exact (C7_reencoded_body_decodes_back QP crlf_body U)].
Defined.

(** C8 at two bodies without a marker. *)
Lemma C8_witness :
  classify ((CRLF ++ b "Content-Type: text/html" ++ CRLF ++ [CR]) ++ LF
              :: b "<p>x</p>")
  = classify ((CRLF ++ b "Content-Type: text/html" ++ CRLF ++ [CR]) ++ LF
                :: b "<p>y</p>").
Proof.
  apply (C8_same_headers_same_kind
           (CRLF ++ b "Content-Type: text/html" ++ CRLF ++ [CR])
           (b "<p>x</p>") (b "<p>y</p>")); vm_compute; reflexivity.
Defined.


(* ================================================================== *)
(** * Facts about the name of the output file *)

Module CliFacts.

Lemma rfind_none c p : rfind c p = None -> ~ In c p.
Proof.
  induction p as [|x p IH]; simpl; [tauto|].
  destruct (rfind c p) as [i|]; [discriminate|].
  destruct (N.eqb_spec x c) as [->|Hx]; [discriminate|].
  intros _ [H|H]; [congruence | now apply IH].
Qed.

Lemma rfind_some c p : forall i,
  rfind c p = Some i ->
  skipn i p = c :: skipn (S i) p /\ ~ In c (skipn (S i) p).
Proof.
  induction p as [|x p IH]; simpl; [discriminate|].
  destruct (rfind c p) as [j|] eqn:E.
  - intros i [= <-]. destruct (IH j eq_refl) as [H1 H2]. split; assumption.
  - destruct (N.eqb_spec x c) as [->|Hx]; [|discriminate].
    intros i [= <-]. simpl. split; [reflexivity | now apply rfind_none].
Qed.

Lemma in_skipn_le (c : N) i j (p : str) :
  i <= j -> In c (skipn j p) -> In c (skipn i p).
Proof.
  intros L H. replace j with ((j - i) + i) in H by lia.
  rewrite <- skipn_skipn in H.
  rewrite <- (firstn_skipn (j - i) (skipn i p)). apply in_or_app. now right.
Qed.

(** The extension holds no slash. *)
Lemma splitext_no_slash p : ~ In SLASH (snd (splitext p)).
Proof.
  unfold splitext.
  destruct (rfind DOT p) as [d|] eqn:Ed; [|simpl; tauto].
  destruct (rfind SLASH p) as [s|] eqn:Es.
  - destruct (Nat.leb (S s) d) eqn:L; simpl; [|tauto].
    destruct (name_before (d - S s) (S s) p); simpl; [|tauto].
    apply Nat.leb_le in L. destruct (rfind_some _ _ _ Es) as [_ N].
    intros H. apply N. now apply (in_skipn_le _ (S s) d).
  - simpl. destruct (name_before (d - 0) 0 p); simpl; [|tauto].
    intros H. apply (rfind_none _ _ Es).
    rewrite <- (firstn_skipn d p). apply in_or_app. now right.
Qed.

(** The extension is empty, or a dot followed by characters other than a
    dot. *)
Lemma splitext_ext p :
  snd (splitext p) = []
  \/ exists e, snd (splitext p) = DOT :: e /\ ~ In DOT e.
Proof.
  unfold splitext.
  destruct (rfind DOT p) as [d|] eqn:Ed; [|now left].
  destruct (_ && _); [|now left].
  right. destruct (rfind_some _ _ _ Ed) as [H1 H2].
  exists (skipn (S d) p). simpl. split; assumption.
Qed.

Lemma splitext_join p : fst (splitext p) ++ snd (splitext p) = p.
Proof.
  unfold splitext.
  destruct (rfind DOT p) as [d|]; [|apply app_nil_r].
  destruct (_ && _); [apply firstn_skipn | apply app_nil_r].
Qed.

Lemma rfind_notin c l : ~ In c l -> rfind c l = None.
Proof.
  induction l as [|x l IH]; simpl; [reflexivity|]. intros H.
  rewrite IH by tauto.
  destruct (N.eqb_spec x c) as [->|_]; [exfalso; apply H; now left|].
  reflexivity.
Qed.

(** The last occurrence. *)
Lemma rfind_last c a e : ~ In c e -> rfind c (a ++ c :: e) = Some (length a).
Proof.
  intros H. induction a as [|x a IH]; simpl.
  - rewrite (rfind_notin _ _ H), N.eqb_refl. reflexivity.
  - now rewrite IH.
Qed.

Lemma rfind_before c a l k :
  ~ In c l -> rfind c (a ++ l) = Some k -> k < length a.
Proof.
  intros H. revert k. induction a as [|x a IH]; intros k; simpl.
  - now rewrite (rfind_notin _ _ H).
  - destruct (rfind c (a ++ l)) as [j|].
    + intros [= <-]. specialize (IH j eq_refl). lia.
    + destruct (x =? c)%N; [intros [= <-]; lia | discriminate].
Qed.

(** Where the last path component begins. *)
Lemma filename_index dir comp :
  dir = [] \/ (exists d, dir = d ++ [SLASH]) -> ~ In SLASH comp ->
  match rfind SLASH (dir ++ comp) with Some i => S i | None => 0 end
  = length dir.
Proof.
  intros [->|[d ->]] H.
  - simpl. now rewrite (rfind_notin _ _ H).
  - rewrite <- app_assoc. simpl app. rewrite (rfind_last _ _ _ H).
    rewrite length_app. simpl. lia.
Qed.

Lemma name_before_found stem : forall dir rest,
  (exists ch, In ch stem /\ ch <> DOT) ->
  name_before (length stem) (length dir) (dir ++ stem ++ rest) = true.
Proof.
  induction stem as [|x stem IH]; intros dir rest [ch [I Hch]]; [destruct I|].
  cbn [length name_before].
  rewrite nth_error_app2, Nat.sub_diag by lia. cbn [app nth_error].
  destruct (N.eqb_spec x DOT) as [->|Hx]; [|reflexivity].
  cbn [negb]. destruct I as [<-|I]; [congruence|].
  specialize (IH (dir ++ [DOT]) rest (ex_intro _ ch (conj I Hch))).
  rewrite length_app in IH. simpl in IH.
  rewrite Nat.add_1_r, <- app_assoc in IH. exact IH.
Qed.

Lemma name_before_dots dots : forall dir rest,
  Forall (eq DOT) dots ->
  name_before (length dots) (length dir) (dir ++ dots ++ rest) = false.
Proof.
  induction dots as [|x dots IH]; intros dir rest F; [reflexivity|].
  apply Forall_cons_iff in F. destruct F as [<- F].
  cbn [length name_before].
  rewrite nth_error_app2, Nat.sub_diag by lia. cbn [app nth_error].
  rewrite N.eqb_refl. cbn [negb].
  specialize (IH (dir ++ [DOT]) rest F).
  rewrite length_app in IH. simpl in IH.
  rewrite Nat.add_1_r, <- app_assoc in IH. exact IH.
Qed.

(** The cut of a path whose last component has an extension. *)
Lemma splitext_ext_found dir stem e :
  dir = [] \/ (exists d, dir = d ++ [SLASH]) ->
  ~ In SLASH (stem ++ DOT :: e) -> ~ In DOT e ->
  (exists ch, In ch stem /\ ch <> DOT) ->
  splitext (dir ++ stem ++ DOT :: e) = (dir ++ stem, DOT :: e).
Proof.
  intros Hd Hs He Hn. unfold splitext.
  rewrite (filename_index dir (stem ++ DOT :: e) Hd Hs).
  rewrite app_assoc, (rfind_last _ _ _ He), length_app.
  replace (Nat.leb (length dir) (length dir + length stem)) with true
    by (symmetry; apply Nat.leb_le; lia).
  replace (length dir + length stem - length dir) with (length stem) by lia.
  rewrite <- app_assoc, (name_before_found stem dir (DOT :: e) Hn).
  cbn [andb]. rewrite app_assoc, <- length_app.
  rewrite firstn_app, firstn_all, Nat.sub_diag. cbn [firstn].
  rewrite app_nil_r, skipn_app, skipn_all, Nat.sub_diag. reflexivity.
Qed.

(** The cut of a path whose last component has no extension: no dot, or
    leading dots only. *)
Lemma splitext_no_ext dir comp :
  dir = [] \/ (exists d, dir = d ++ [SLASH]) -> ~ In SLASH comp ->
  ~ In DOT comp
  \/ (exists dots e, comp = dots ++ DOT :: e /\ Forall (eq DOT) dots
                     /\ ~ In DOT e) ->
  splitext (dir ++ comp) = (dir ++ comp, []).
Proof.
  intros Hd Hs Hc. unfold splitext.
  rewrite (filename_index dir comp Hd Hs).
  destruct Hc as [Hc|[dots [e [-> [F He]]]]].
  - destruct (rfind DOT (dir ++ comp)) as [k|] eqn:R; [|reflexivity].
    apply (rfind_before _ _ _ _ Hc) in R.
    replace (Nat.leb (length dir) k) with false
      by (symmetry; apply Nat.leb_gt; lia).
    reflexivity.
  - rewrite app_assoc, (rfind_last _ _ _ He), length_app.
    replace (length dir + length dots - length dir) with (length dots) by lia.
    rewrite <- app_assoc, (name_before_dots dots dir (DOT :: e) F).
    now rewrite andb_false_r.
Qed.

(** The last dot of a name, and what stands before it. *)
Lemma last_dot comp :
  In DOT comp -> exists x e, comp = x ++ DOT :: e /\ ~ In DOT e.
Proof.
  induction comp as [|ch comp IH]; [intros []|]. intros I.
  destruct (in_dec N.eq_dec DOT comp) as [I'|N'].
  - destruct (IH I') as [x [e [-> He]]]. exists (ch :: x), e. auto.
  - destruct I as [->|I]; [|contradiction]. exists [], comp. auto.
Qed.

Lemma dots_or_name x :
  Forall (eq DOT) x \/ exists ch, In ch x /\ ch <> DOT.
Proof.
  induction x as [|c x [IH|[ch [I H]]]].
  - left. constructor.
  - destruct (N.eq_dec c DOT) as [->|Hc].
    + left. constructor; [reflexivity | exact IH].
    + right. exists c. split; [now left | exact Hc].
  - right. exists ch. split; [now right | exact H].
Qed.

End CliFacts.
Import CliFacts.

(** The output file is named after the input file, cut as
    [os.path.splitext] cuts it.  When the last path component holds a dot
    that is preceded, in this component, by a character other than a dot,
    [_fixed] is put before the last dot of the component.  When the
    component holds no dot, or only leading dots and one last dot after
    them, [_fixed] is put at the end of the name.  In both cases the
    directory is kept; one of the two cases applies to every name; the
    output name is six characters longer than the input name, and it is
    never the name of the input file. *)
Theorem output_file_beside_input dir comp :
  dir = [] \/ (exists d, dir = d ++ [SLASH]) -> ~ In SLASH comp ->
  (forall stem e,
     comp = stem ++ DOT :: e -> ~ In DOT e ->
     (exists ch, In ch stem /\ ch <> DOT) ->
     output_file (dir ++ comp) = dir ++ stem ++ s_ "_fixed" ++ DOT :: e)
  /\ (~ In DOT comp
      \/ (exists dots e, comp = dots ++ DOT :: e /\ Forall (eq DOT) dots
                         /\ ~ In DOT e) ->
      output_file (dir ++ comp) = dir ++ comp ++ s_ "_fixed")
  /\ ((exists stem e,
         comp = stem ++ DOT :: e /\ ~ In DOT e
         /\ exists ch, In ch stem /\ ch <> DOT)
      \/ ~ In DOT comp
      \/ (exists dots e, comp = dots ++ DOT :: e /\ Forall (eq DOT) dots
                         /\ ~ In DOT e))
  /\ length (output_file (dir ++ comp)) = length (dir ++ comp) + 6
  /\ output_file (dir ++ comp) <> dir ++ comp.
Proof.
  intros Hd Hs.
  assert (Cases : (exists stem e,
                     comp = stem ++ DOT :: e /\ ~ In DOT e
                     /\ exists ch, In ch stem /\ ch <> DOT)
                  \/ ~ In DOT comp
                  \/ (exists dots e, comp = dots ++ DOT :: e
                                     /\ Forall (eq DOT) dots /\ ~ In DOT e)).
  { destruct (in_dec N.eq_dec DOT comp) as [I|N]; [|auto].
    destruct (last_dot comp I) as [x [e [-> He]]].
    destruct (dots_or_name x) as [F|Hn].
    - right. right. exists x, e. auto.
    - left. exists x, e. auto. }
  assert (L : length (output_file (dir ++ comp)) = length (dir ++ comp) + 6).
  { unfold output_file.
    pose proof (splitext_join (dir ++ comp)) as J.
    destruct (splitext (dir ++ comp)) as [base ext]. simpl in J.
    rewrite <- J. rewrite !length_app. simpl. lia. }
  split; [|split; [|split; [exact Cases|split; [exact L|]]]].
  - intros stem e -> He Hn. unfold output_file.
    rewrite (splitext_ext_found dir stem e Hd Hs He Hn).
    now rewrite <- app_assoc.
  - intros Hc. unfold output_file.
    rewrite (splitext_no_ext dir comp Hd Hs Hc).
    now rewrite app_nil_r, <- app_assoc.
  - intros E. rewrite E in L. lia.
Qed.

(** The name [dir/test.mhtml]. *)
Lemma output_file_beside_input_witness :
  ~ In SLASH (s_ "test.mhtml")
  /\ output_file (s_ "dir/" ++ s_ "test.mhtml")
     = s_ "dir/" ++ s_ "test" ++ s_ "_fixed" ++ DOT :: s_ "mhtml".
Proof.
  assert (Hd : s_ "dir/" = [] \/ (exists d, s_ "dir/" = d ++ [SLASH]))
    by (right; exists (s_ "dir"); reflexivity).
  assert (Hs : ~ In SLASH (s_ "test.mhtml")).
  { vm_compute. intros K.
    repeat (destruct K as [K|K]; [discriminate|]). exact K. }
  destruct (output_file_beside_input (s_ "dir/") (s_ "test.mhtml") Hd Hs)
    as [K _].
  split; [exact Hs|].
  apply (K (s_ "test") (s_ "mhtml")).
  - reflexivity.
  - vm_compute. intros I.
    repeat (destruct I as [I|I]; [discriminate|]). exact I.
  - exists 116%N. split; [now left | discriminate].
Defined.

(* ================================================================== *)
(** * Facts about the split of the input on the delimiter *)

Module CutFacts.

Lemma startswith_app_short p u t :
  startswith p (u ++ t) = true -> length p <= length u -> startswith p u = true.
Proof.
  revert u. induction p as [|c p IH]; intros u; [reflexivity|].
  destruct u as [|x u]; simpl; [lia|].
  destruct (Byte.eqb c x); simpl; [|discriminate].
  intros H L. apply IH; [assumption | lia].
Qed.

(** An occurrence that ends inside a prefix is an occurrence in the
    prefix. *)
Lemma find_prefix p : forall u t i,
  find p (u ++ t) = Some i -> i + length p <= length u -> find p u = Some i.
Proof.
  induction u as [|x u IH]; intros t i.
  - simpl app. intros H L. simpl in L.
    assert (length p = 0) by lia. destruct p; [|discriminate].
    assert (i = 0) by lia. subst. reflexivity.
  - rewrite (find_unfold p ((x :: u) ++ t)), (find_unfold p (x :: u)).
    destruct (startswith p ((x :: u) ++ t)) eqn:E.
    + intros [= <-] L. simpl in L.
      now rewrite (startswith_app_short _ _ _ E L).
    + destruct (startswith p (x :: u)) eqn:E2.
      * pose proof (startswith_length _ _ E2) as L2.
        rewrite (startswith_app_long _ _ t L2) in E. congruence.
      * simpl app. cbv beta iota.
        destruct (find p (u ++ t)) as [j|] eqn:F;
          [|simpl; discriminate].
        simpl. intros [= <-] L. simpl in L.
        rewrite (IH t j F); [reflexivity | lia].
Qed.

Lemma find_nil_data p : p <> [] -> find p [] = None.
Proof. destruct p; [congruence | reflexivity]. Qed.

(** The piece before the leftmost occurrence hides no occurrence. *)
Lemma clean_before p s i : find p s = Some i -> clean p (firstn i s).
Proof.
  intros H. unfold clean.
  pose proof (find_bound _ _ _ H) as B.
  rewrite length_firstn, Nat.min_l by lia.
  apply (find_prefix p _ (skipn (i + length p) s)).
  - rewrite <- app_assoc, <- find_split; assumption.
  - rewrite length_app, length_firstn, Nat.min_l; lia.
Qed.

Lemma split_fuel_spec sep : sep <> [] -> forall n s,
  length s <= n ->
  split_fuel n sep s <> []
  /\ join sep (split_fuel n sep s) = s
  /\ Forall (clean sep) (removelast (split_fuel n sep s))
  /\ find sep (last (split_fuel n sep s) []) = None.
Proof.
  intros Hs. induction n as [|n IH]; intros s L.
  - destruct s; [|simpl in L; lia].
    split; [discriminate|]. split; [reflexivity|].
    split; [constructor | now apply find_nil_data].
  - cbn [split_fuel]. destruct (find sep s) as [i|] eqn:F.
    + pose proof (find_bound _ _ _ F) as B.
      assert (Ls : 0 < length sep) by (destruct sep; [congruence | simpl; lia]).
      destruct (IH (skipn (i + length sep) s)) as [N [J [C Z]]].
      { rewrite length_skipn. lia. }
      destruct (split_fuel n sep (skipn (i + length sep) s)) as [|q l] eqn:E;
        [congruence|].
      repeat split.
      * discriminate.
      * rewrite join_cons, J. symmetry. now apply find_split.
      * change (removelast (firstn i s :: q :: l))
          with (firstn i s :: removelast (q :: l)).
        constructor; [now apply clean_before | assumption].
      * exact Z.
    + split; [discriminate|]. split; [reflexivity|].
      split; [constructor | exact F].
Qed.

(** More cuts than the data has bytes are never made. *)
Lemma split_fuel_enough sep : sep <> [] -> forall n s,
  length s <= n -> split_fuel n sep s = split sep s.
Proof.
  intros Hs n s L. unfold split.
  destruct (split_fuel_spec sep Hs n s L) as [N [J [C Z]]].
  destruct (split_fuel n sep s) as [|q l] eqn:E; [congruence|].
  assert (K : length l <= length s).
  { pose proof (join_length sep (q :: l) Hs) as M. rewrite J in M.
    simpl in M. lia. }
  rewrite <- J. symmetry. apply split_join; try assumption.
  now rewrite J.
Qed.

End CutFacts.
Import CutFacts.

(** The split of line 74, for a delimiter that is not empty: the pieces of
    the data are the one list of pieces that, joined with the delimiter
    between them, give the data, and of which none but the last hides an
    occurrence of the delimiter (not even one that runs into the delimiter
    that follows the piece), the last holding none.  So the input is its
    pieces put together again, and no part of the input holds the
    delimiter. *)
Theorem split_is_the_inverse_of_join sep s pieces :
  sep <> [] ->
  (split sep s = pieces
   <-> pieces <> []
       /\ join sep pieces = s
       /\ Forall (clean sep) (removelast pieces)
       /\ find sep (last pieces []) = None).
Proof.
  intros Hs. split.
  - intros <-. unfold split. apply split_fuel_spec; [assumption | lia].
  - intros [N [J [C Z]]]. destruct pieces as [|q l]; [congruence|].
    rewrite <- J. now apply split_join_data.
Qed.

(** At the delimiter [--x] the data [a--xb--x--] is cut in three pieces. *)
Lemma split_is_the_inverse_of_join_witness :
  b "--x" <> []
  /\ (split (b "--x") (b "a--xb--x--") = [b "a"; b "b"; b "--"]
      <-> [b "a"; b "b"; b "--"] <> []
          /\ join (b "--x") [b "a"; b "b"; b "--"] = b "a--xb--x--"
          /\ Forall (clean (b "--x")) (removelast [b "a"; b "b"; b "--"])
          /\ find (b "--x") (last [b "a"; b "b"; b "--"] []) = None).
Proof.
  assert (H : b "--x" <> []) by discriminate.
  split; [exact H|].
  exact (split_is_the_inverse_of_join (b "--x") (b "a--xb--x--")
           [b "a"; b "b"; b "--"] H).
Defined.

(* ================================================================== *)
(** * Facts about the map of pass 1 and the identifiers in it *)

Module TraceFacts.

Lemma str_eqb_eq s : forall t, str_eqb s t = true <-> s = t.
Proof.
  induction s as [|x s IH]; intros [|y t]; simpl; split;
    try reflexivity; try discriminate.
  - intros H. apply andb_true_iff in H. destruct H as [H1 H2].
    apply N.eqb_eq in H1. apply IH in H2. now subst.
  - intros [= -> ->]. rewrite N.eqb_refl. simpl. now apply IH.
Qed.

Lemma str_eqb_refl s : str_eqb s s = true.
Proof. now apply str_eqb_eq. Qed.

(** Reading a key after an assignment. *)
Lemma dict_get_set k k' v d :
  dict_get k (dict_set k' v d)
  = if str_eqb k k' then Some v else dict_get k d.
Proof.
  induction d as [|[k0 v0] d IH]; simpl.
  - reflexivity.
  - destruct (str_eqb k' k0) eqn:E0; simpl.
    + apply str_eqb_eq in E0. subst k0.
      destruct (str_eqb k k'); reflexivity.
    + destruct (str_eqb k k0) eqn:E1.
      * apply str_eqb_eq in E1. subst k0.
        destruct (str_eqb k k') eqn:E2; [|reflexivity].
        apply str_eqb_eq in E2. subst k'. rewrite str_eqb_refl in E0.
        discriminate.
      * exact IH.
Qed.







Lemma contains_self p : contains p p = true.
Proof.
  unfold contains. destruct p as [|c p]; [reflexivity|].
  rewrite find_unfold.
  replace (startswith (c :: p) (c :: p)) with true; [reflexivity|].
  symmetry. rewrite <- (app_nil_r (c :: p)) at 2. apply startswith_app.
Qed.

Lemma contains_middle p s t : contains p (s ++ p ++ t) = true.
Proof. apply contains_app_l, contains_app_r, contains_self. Qed.

End TraceFacts.
Import TraceFacts.

(* ================================================================== *)
(** * Facts about the loop of pass 1, part by part *)

Module LoopFacts.

Section WithUuid.

Variable rnd : nat -> N.

(** An image part with a location header: the state after it. *)
Lemma step_image st p m :
  classify p = Image -> search LOCATION p = Some m ->
  exists p',
    step rnd st p
    = Some (State
              (match search CONTENT_ID p with
               | Some m2 =>
                   dict_set (decode_ignore (strip (group_bytes p m2 1)))
                     (make_cid
                        (basename (decode_ignore (strip (group_bytes p m 1))))
                        (rnd (uuid_calls st)))
                     (dict_set (decode_ignore (strip (group_bytes p m 1)))
                        (make_cid
                           (basename
                              (decode_ignore (strip (group_bytes p m 1))))
                           (rnd (uuid_calls st)))
                        (ref_map st))
               | None =>
                   dict_set (decode_ignore (strip (group_bytes p m 1)))
                     (make_cid
                        (basename (decode_ignore (strip (group_bytes p m 1))))
                        (rnd (uuid_calls st)))
                     (ref_map st)
               end)
              (html_part_info st) (modified_content_parts st ++ [p'])
              (S (uuid_calls st)))
    /\ contains
         (identifier_header
            (make_cid (basename (decode_ignore (strip (group_bytes p m 1))))
               (rnd (uuid_calls st)))) p' = true.
Proof.
  intros Hc Hl. destruct m as [[s e] c].
  destruct (search CONTENT_ID p) as [[[s2 e2] c2]|] eqn:Ei.
  - destruct (step_replace rnd st p (s, e, c) s2 e2 c2 Hc Hl Ei) as [rm' S].
    pose proof S as S'. unfold step, image_part in S'.
    rewrite Hc, Hl, Ei in S'.
    destruct (encode_ascii _); [|discriminate].
    injection S' as R _. eexists. split; [|apply contains_middle].
    rewrite S, <- R. reflexivity.
  - destruct (step_insert rnd st p s e c Hc Hl Ei) as [rm' S].
    pose proof S as S'. unfold step, image_part in S'.
    rewrite Hc, Hl, Ei in S'.
    destruct (encode_ascii _); [|discriminate].
    injection S' as R _. eexists. split.
    + rewrite S, <- R. reflexivity.
    + rewrite !app_assoc. rewrite <- app_assoc. apply contains_middle.
Qed.

(** The three ways through the body of the loop. *)
Lemma step_cases st p st' :
  step rnd st p = Some st' ->
  (classify p = Image /\ exists m, search LOCATION p = Some m)
  \/ ((classify p = Other \/ (classify p = Image /\ search LOCATION p = None))
      /\ st' = append_part st p)
  \/ (classify p = Markup
      /\ st' = State (ref_map st)
                 (Some (HtmlInfo (length (modified_content_parts st))
                          (encoding_of p) p))
                 (modified_content_parts st ++ [p]) (uuid_calls st)).
Proof.
  unfold step. destruct (classify p) eqn:C.
  - destruct (search LOCATION p) as [m|] eqn:L; [left; eauto|].
    unfold image_part. rewrite L. intros [= <-]. right. left. auto.
  - intros [= <-]. right. right. auto.
  - intros [= <-]. right. left. auto.
Qed.

(** Induction on the parts gone through. *)
Lemma pass1_ind (P : list bytes -> state -> Prop) :
  P [] init ->
  (forall l st1 p st,
     pass1 rnd init l = Some st1 -> P l st1 -> step rnd st1 p = Some st ->
     P (l ++ [p]) st) ->
  forall content_parts st, pass1 rnd init content_parts = Some st ->
                           P content_parts st.
Proof.
  intros H0 HS content_parts.
  induction content_parts as [|p l IH] using rev_ind; intros st H.
  - injection H as <-. exact H0.
  - rewrite pass1_app in H.
    destruct (pass1 rnd init l) as [st1|] eqn:E; [|discriminate].
    simpl in H. destruct (step rnd st1 p) as [st2|] eqn:E2; [|discriminate].
    injection H as <-. eapply HS; eauto.
Qed.

Ltac by_pass1_ind content_parts st :=
  let H := fresh in
  intros H; pattern content_parts, st; revert content_parts st H;
  apply pass1_ind; cbv beta.

Lemma pass1_parts content_parts st :
  pass1 rnd init content_parts = Some st ->
  length (modified_content_parts st) = length content_parts.
Proof. intros H. now rewrite (pass1_length rnd _ _ _ H). Qed.

Lemma nth_error_snoc (A : Type) (l : list A) x i y :
  nth_error l i = Some y -> nth_error (l ++ [x]) i = Some y.
Proof.
  intros H. rewrite nth_error_app1; [exact H|].
  apply nth_error_Some. congruence.
Qed.

Lemma nth_error_last (A : Type) (l : list A) x :
  nth_error (l ++ [x]) (length l) = Some x.
Proof. rewrite nth_error_app2, Nat.sub_diag; [reflexivity | lia]. Qed.


(** The part recorded for pass 2 is a markup part of the input, at its
    index. *)
Lemma pass1_info content_parts st :
  pass1 rnd init content_parts = Some st ->
  forall info, html_part_info st = Some info ->
    nth_error content_parts (index info) = Some (part info)
    /\ classify (part info) = Markup
    /\ encoding info = encoding_of (part info).
Proof.
  by_pass1_ind content_parts st.
  - intros info H. discriminate.
  - intros l st1 p st H1 IH S info Hi.
    pose proof (pass1_parts _ _ H1) as Len.
    destruct (step_cases _ _ _ S) as [[C [m L]]|[[_ ->]|[C ->]]].
    + destruct (step_image st1 p m C L) as [p' [S' Hp]].
      rewrite S' in S. injection S as <-. simpl in *.
      destruct (IH info Hi) as [A [B E]]. auto using nth_error_snoc.
    + simpl in *. destruct (IH info Hi) as [A [B E]].
      auto using nth_error_snoc.
    + simpl in *. injection Hi as <-. simpl. rewrite Len.
      auto using nth_error_last.
Qed.





(** A key of the map stays a key. *)
Lemma step_keeps_key st p st' k :
  step rnd st p = Some st' ->
  dict_get k (ref_map st) <> None -> dict_get k (ref_map st') <> None.
Proof.
  intros S. destruct (step_cases _ _ _ S) as [[C [m L]]|[[_ ->]|[_ ->]]];
    [|auto|auto].
  destruct (step_image st p m C L) as [p' [S' _]].
  rewrite S' in S. injection S as <-. simpl. intros H.
  destruct (search CONTENT_ID p); rewrite !dict_get_set;
    repeat (destruct (str_eqb _ _); [discriminate|]); exact H.
Qed.

(** The location of an image part, and the identifier it had between
    brackets, are keys of the map after the loop. *)
Lemma pass1_keys content_parts st :
  pass1 rnd init content_parts = Some st ->
  forall p m, In p content_parts -> classify p = Image ->
    search LOCATION p = Some m ->
    dict_get (decode_ignore (strip (group_bytes p m 1))) (ref_map st) <> None
    /\ forall m2, search CONTENT_ID p = Some m2 ->
         dict_get (decode_ignore (strip (group_bytes p m2 1))) (ref_map st)
         <> None.
Proof.
  by_pass1_ind content_parts st.
  - intros p m [].
  - intros l st1 q st H1 IH S p m Hin C L.
    apply in_app_or in Hin. destruct Hin as [Hin|[->|[]]].
    + destruct (IH p m Hin C L) as [A B].
      split; [|intros m2 H2]; eapply step_keeps_key; eauto.
    + destruct (step_image st1 p m C L) as [p' [S' _]].
      rewrite S' in S. injection S as <-. simpl.
      destruct (search CONTENT_ID p) as [m2|].
      * split.
        -- rewrite !dict_get_set. rewrite str_eqb_refl.
           destruct (str_eqb _ _); discriminate.
        -- intros m3 [= <-]. rewrite dict_get_set, str_eqb_refl. discriminate.
      * split; [|discriminate].
        rewrite dict_get_set, str_eqb_refl. discriminate.
Qed.

End WithUuid.

End LoopFacts.
Import LoopFacts.

(* ================================================================== *)
(** * Facts about a whole run *)

Module WholeFacts.

Lemma rewrite_body_total d body :
  cids d -> exists body', rewrite_body d body = Some body'.
Proof.
  intros Hd.
  destruct (sub_all_fuel_scan d (length body) Hd body) as [t [_ [_ H]]].
  unfold rewrite_body, sub_all. eauto.
Qed.

Lemma pass2_error rnd content_parts st info e :
  pass1 rnd init content_parts = Some st ->
  pass2 st info = inl e -> e = AttributeError.
Proof.
  intros H1. unfold pass2.
  destruct (search HEADER_END (part info)) as [m|]; [|congruence].
  destruct (rewrite_body_total (ref_map st)
              (decode_body (encoding info) (skipn (snd (fst m)) (part info)))
              (pass1_init_cids rnd _ _ H1)) as [body' ->].
  discriminate.
Qed.

Lemma process_error rnd content e :
  process rnd content = inl e -> e <> UnicodeEncodeError.
Proof.
  unfold process.
  destruct (search BOUNDARY content) as [m|]; [|intros [= <-]; discriminate].
  destruct (negb _); [intros [= <-]; discriminate|].
  destruct (pass1_total rnd (content_parts_of (boundary_of content m) content)
              init) as [st H1].
  rewrite H1. destruct (html_part_info st) as [info|];
    [|intros [= <-]; discriminate].
  destruct (pass2 st info) as [e2|ps] eqn:P; [|discriminate].
  intros [= <-]. rewrite (pass2_error _ _ _ _ _ H1 P). discriminate.
Qed.



End WholeFacts.
Import WholeFacts.

(** The calls of [encode] at lines 127, 133 and 201 never raise: what
    they encode is made of an identifier of the script's own making, which
    is ASCII.  So the loop of pass 1 always comes to its end, and with its
    map the rewriting of a body always returns.  And the assignment to the
    list at line 230 is always within the list: the recorded index is
    smaller than the number of parts, and pass 2 returns as many parts as
    the loop was given. *)
Theorem encode_and_index_never_raise rnd content_parts :
  exists st,
    pass1 rnd init content_parts = Some st
    /\ (forall body, exists body', rewrite_body (ref_map st) body = Some body')
    /\ (forall info e, pass2 st info = inl e -> e = AttributeError)
    /\ forall info,
         html_part_info st = Some info ->
         index info < length (modified_content_parts st)
         /\ forall parts', pass2 st info = inr parts' ->
                           length parts' = length content_parts.
Proof.
  destruct (pass1_total rnd content_parts init) as [st H1].
  exists st. split; [exact H1|]. split; [|split].
  - intros body. apply rewrite_body_total.
    exact (pass1_init_cids rnd _ _ H1).
  - intros info e. exact (pass2_error rnd _ _ info e H1).
  - intros info Hi.
    destruct (pass1_info _ _ _ H1 info Hi) as [A _].
    rewrite (pass1_parts _ _ _ H1).
    split; [apply nth_error_Some; congruence|].
    intros parts' P. destruct (pass2_inr _ _ _ P) as [m [body' [_ [_ ->]]]].
    rewrite list_set_length. apply (pass1_parts _ _ _ H1).
Qed.







(** After the loop, the location of every image part that has one is a key
    of the map, and so is the identifier the part had between brackets: a
    reference to the part by its location (when the location does not begin
    with [cid:]), or by [cid:] and its old identifier, resolves to an
    identifier of the script's own making. *)
Theorem located_image_is_referenceable rnd content_parts st p m :
  pass1 rnd init content_parts = Some st ->
  In p content_parts -> classify p = Image -> search LOCATION p = Some m ->
  (exists v filename r,
     dict_get (decode_ignore (strip (group_bytes p m 1))) (ref_map st) = Some v
     /\ v = make_cid filename r
     /\ (str_startswith (s_ "cid:")
           (map lower_ascii (decode_ignore (strip (group_bytes p m 1))))
         = false ->
         lookup (ref_map st) (decode_ignore (strip (group_bytes p m 1)))
         = Some v))
  /\ forall m2, search CONTENT_ID p = Some m2 ->
       exists v filename r,
         v = make_cid filename r
         /\ lookup (ref_map st)
              (s_ "cid:" ++ decode_ignore (strip (group_bytes p m2 1)))
            = Some v.
Proof.
  intros H1 Hin C L.
  pose proof (pass1_init_cids rnd _ _ H1) as Hc.
  destruct (pass1_keys rnd _ _ H1 p m Hin C L) as [K1 K2].
  assert (T : forall k v, dict_get k (ref_map st) = Some v ->
                exists filename r, v = make_cid filename r
                                   /\ truthy (dict_get k (ref_map st)) = true).
  { intros k v E. destruct (dict_get_cids _ _ _ Hc E) as [f [r ->]].
    exists f, r. split; [reflexivity|]. rewrite E.
    pose proof (make_cid_nonempty f r).
    destruct (make_cid f r); [congruence | reflexivity]. }
  split.
  - destruct (dict_get _ (ref_map st)) as [v|] eqn:E; [|congruence].
    destruct (T _ _ E) as [f [r [-> Tr]]].
    exists (make_cid f r), f, r. split; [reflexivity|]. split; [reflexivity|].
    intros Hs. unfold lookup. cbv zeta. rewrite Hs, Tr. exact E.
  - intros m2 H2. specialize (K2 m2 H2). clear K1.
    destruct (dict_get _ (ref_map st)) as [v|] eqn:E; [|congruence].
    destruct (T _ _ E) as [f [r [-> Tr]]].
    exists (make_cid f r), f, r. split; [reflexivity|].
    unfold lookup. cbv zeta.
    change (str_startswith (s_ "cid:")
              (map lower_ascii
                 (s_ "cid:" ++ decode_ignore (strip (group_bytes p m2 1)))))
      with true.
    cbv iota.
    change (skipn 4 (s_ "cid:" ++ decode_ignore (strip (group_bytes p m2 1))))
      with (decode_ignore (strip (group_bytes p m2 1))).
    rewrite Tr. exact E.
Qed.

(** The image part of [plain] is found by its location. *)
Lemma located_image_is_referenceable_witness :
  pass1 rnd0 init plain_parts = Some plain_state
  /\ In (image "dir/a.png") plain_parts
  /\ classify (image "dir/a.png") = Image
  /\ search LOCATION (image "dir/a.png") = Some (27, 54, location_caps)
  /\ exists v,
       lookup (ref_map plain_state)
         (decode_ignore
            (strip (group_bytes (image "dir/a.png") (27, 54, location_caps) 1)))
       = Some v.
Proof.
  assert (H1 : pass1 rnd0 init plain_parts = Some plain_state)
    by (vm_compute; reflexivity).
  assert (H2 : In (image "dir/a.png") plain_parts)
    by (right; left; reflexivity).
  assert (H3 : classify (image "dir/a.png") = Image)
    by (vm_compute; reflexivity).
  assert (H4 : search LOCATION (image "dir/a.png")
               = Some (27, 54, location_caps)) by (vm_compute; reflexivity).
  destruct (located_image_is_referenceable rnd0 plain_parts plain_state
              (image "dir/a.png") (27, 54, location_caps) H1 H2 H3 H4)
    as [[v [f [r [_ [_ K]]]]] _].
  split; [exact H1|]. split; [exact H2|]. split; [exact H3|].
  split; [exact H4|]. exists v. apply K. vm_compute. reflexivity.
Defined.

(* ================================================================== *)
(** * Facts about the delimiter and about archives with nothing to fix *)

Module QuietFacts.

(** A match of the pattern of line 67. *)
Lemma boundary_shape content st e c :
  search BOUNDARY content = Some (st, e, c) ->
  exists name value,
    content = firstn st content
              ++ (name ++ [DQUOTE] ++ value ++ [DQUOTE]) ++ skipn e content
    /\ matched content (st, e, c) = name ++ [DQUOTE] ++ value ++ [DQUOTE]
    /\ lower name = b "boundary="
    /\ value <> [] /\ forallb (none_of [DQUOTE]) value = true
    /\ group_bytes content (st, e, c) 1 = value.
Proof.
  intros H. apply search_sound in H.
  destruct H as [w [D [He [Hinp [Hst Hm]]]]].
  unfold BOUNDARY, lit_ci in D. apply inv_lit_ci in D.
  destruct D as [name [s1 [w1 [_ [-> [Hname D]]]]]].
  apply inv_one in D. destruct D as [x [s2 [w2 [_ [-> [Hx D]]]]]].
  apply inv_open in D. apply inv_plus in D.
  destruct D as [value [s3 [w3 [_ [-> [Hvalue [Hne D]]]]]]].
  apply inv_close in D. apply inv_one in D.
  destruct D as [y [s4 [w4 [_ [-> [Hy D]]]]]].
  apply inv_nil in D. destruct D as [-> Hc].
  unfold is_byte in Hx, Hy. apply Byte.byte_dec_bl in Hx, Hy. subst x y.
  pose proof (lower_length _ _ Hname) as Ln.
  remember (S (st + length (b "boundary="))) as p1 eqn:Ep1.
  simpl in Hc. subst c.
  set (A := firstn st content ++ name ++ [DQUOTE]) in *.
  assert (LA : length A = p1).
  { unfold A. rewrite !length_app, Hst, Ln, Ep1. simpl. lia. }
  exists name, value.
  split; [exact Hinp|]. split; [exact Hm|]. split; [exact Hname|].
  split; [exact Hne|]. split; [exact Hvalue|].
  unfold group_bytes. simpl. rewrite <- LA. rewrite Hinp at 1.
  replace (firstn st content ++ (name ++ DQUOTE :: value ++ [DQUOTE])
             ++ skipn e content)
    with (A ++ value ++ (DQUOTE :: skipn e content))
    by (unfold A; app_norm).
  apply slice_mid.
Qed.

Lemma none_of_not_in x v : forallb (none_of [x]) v = true -> ~ In x v.
Proof.
  induction v as [|y v IH]; simpl; [tauto|].
  intros H. apply andb_true_iff in H. destruct H as [H1 H2].
  intros [->|K]; [|now apply IH].
  unfold none_of in H1. simpl in H1. rewrite eqb_refl in H1. discriminate.
Qed.







End QuietFacts.
Import QuietFacts.

(** The delimiter of the parts is made of two hyphens and the value that
    the [boundary=] parameter matched at line 67 (its name in any letter
    case) holds between double quotes: this value is not empty and holds
    no double quote, so the delimiter is at least three bytes long. *)
Theorem delimiter_is_the_declared_boundary content m :
  search BOUNDARY content = Some m ->
  exists name value,
    matched content m = name ++ [DQUOTE] ++ value ++ [DQUOTE]
    /\ lower name = b "boundary="
    /\ value <> [] /\ ~ In DQUOTE value
    /\ boundary_of content m = b "--" ++ value
    /\ 3 <= length (boundary_of content m).
Proof.
  destruct m as [[st e] c]. intros H.
  destruct (boundary_shape _ _ _ _ H) as [name [value [_ [M [N [Ne [F G]]]]]]].
  exists name, value. unfold boundary_of. rewrite G.
  split; [exact M|]. split; [exact N|]. split; [exact Ne|].
  split; [now apply none_of_not_in|]. split; [reflexivity|].
  destruct value; [congruence | simpl; lia].
Qed.

(** The delimiter of the archive [quiet]. *)
Lemma delimiter_is_the_declared_boundary_witness :
  search BOUNDARY quiet = Some (52, 66, [(1, (62, 65)); (1, (62, 62))])
  /\ exists value,
       value <> []
       /\ boundary_of quiet (52, 66, [(1, (62, 65)); (1, (62, 62))])
          = b "--" ++ value.
Proof.
  assert (H : search BOUNDARY quiet
              = Some (52, 66, [(1, (62, 65)); (1, (62, 62))]))
    by (vm_compute; reflexivity).
  destruct (delimiter_is_the_declared_boundary quiet _ H)
    as [name [value [_ [_ [Ne [_ [E _]]]]]]].
  split; [exact H|]. exists value. split; [exact Ne | exact E].
Defined.



(* ================================================================== *)
(** * Facts about the end of a tag and about the text of the delimiter *)

Module EndFacts.

Lemma endswith_one x s :
  endswith [x] s = true <-> exists s', s = s' ++ [x].
Proof.
  unfold endswith. simpl rev. split.
  - intros H. apply startswith_iff in H. destruct H as [t H].
    exists (rev t). apply (f_equal (@rev byte)) in H.
    rewrite rev_involutive in H. rewrite H. simpl. reflexivity.
  - intros [s' ->]. rewrite rev_app_distr. simpl.
    now rewrite eqb_refl.
Qed.

(** Data that end with [x] after a piece that does not. *)
Lemma ends_after a z r x :
  z <> x -> endswith [x] ((a ++ [z]) ++ r) = true ->
  exists r', r = r' ++ [x].
Proof.
  intros Hz H. apply endswith_one in H. destruct H as [s' H].
  destruct r as [|y r _] using rev_ind.
  - rewrite app_nil_r in H. apply app_inj_tail in H. destruct H. congruence.
  - rewrite !app_assoc in H. apply app_inj_tail in H. destruct H as [_ ->].
    eauto.
Qed.

Lemma class_not_gt z : src_value_class z = true -> z <> GT.
Proof. intros H ->. vm_compute in H. discriminate. Qed.

(** A match of the src pattern ends with a byte other than [>]. *)
Lemma src_match_end tag st e c :
  search SRC tag = Some (st, e, c) ->
  exists a z, z <> GT /\ tag = (a ++ [z]) ++ skipn e tag.
Proof.
  intros H. destruct (src_shape _ _ _ _ H)
    as [name [ws1 [ws2 [q [value [T [_ [_ [_ [Hq [Hne [Hv _]]]]]]]]]]]].
  destruct (exists_last Hne) as [v' [z Ev]]. subst value.
  rewrite forallb_app in Hv. apply andb_true_iff in Hv.
  destruct Hv as [_ Hz]. simpl in Hz. rewrite andb_true_r in Hz.
  apply class_not_gt in Hz.
  destruct Hq as [->|[->| ->]].
  - exists (firstn st tag ++ name ++ ws1 ++ [EQUALS] ++ ws2 ++ v'), z.
    split; [exact Hz|]. rewrite T at 1. app_norm.
  - exists (firstn st tag ++ name ++ ws1 ++ [EQUALS] ++ ws2 ++ [DQUOTE]
              ++ v' ++ [z]), DQUOTE.
    split; [discriminate|]. rewrite T at 1. app_norm.
  - exists (firstn st tag ++ name ++ ws1 ++ [EQUALS] ++ ws2 ++ [SQUOTE]
              ++ v' ++ [z]), SQUOTE.
    split; [discriminate|]. rewrite T at 1. app_norm.
Qed.

(** Rewriting the src attribute of a tag that ends with [>] gives a tag
    that ends with [>]. *)
Lemma rewrite_src_end new_cid tag sm modified :
  endswith [GT] tag = true -> search SRC tag = Some sm ->
  rewrite_src new_cid tag = Some modified -> endswith [GT] modified = true.
Proof.
  intros He Hs. destruct sm as [[st e] c]. unfold rewrite_src.
  destruct new_cid as [[|x cid]|]; try (intros [= <-]; exact He).
  destruct (encode_utf8 _) as [attr|]; [|discriminate]. intros [= <-].
  destruct (src_sub_same_place _ _ _ _ Hs) as [c' Hs'].
  unfold sub1. rewrite Hs'. simpl fst. simpl snd.
  destruct (src_match_end _ _ _ _ Hs) as [a [z [Hz T]]].
  rewrite T in He. destruct (ends_after _ _ _ _ Hz He) as [r' ->].
  rewrite !app_assoc. apply endswith_app.
Qed.

Lemma ascii_decodable s :
  Forall (fun x => (Byte.to_N x < 0x80)%N) s -> decodable s = true.
Proof.
  unfold decodable. induction 1 as [|x s Hx Hs IH]; [reflexivity|].
  cbn [utf8_items]. cbv zeta.
  destruct (N.ltb_spec (Byte.to_N x) 0x80) as [_|G]; [exact IH | lia].
Qed.

Lemma decodable_app_ascii a s :
  Forall (fun x => (Byte.to_N x < 0x80)%N) a ->
  decodable (a ++ s) = decodable s.
Proof.
  unfold decodable. induction 1 as [|x a Hx Ha IH]; [reflexivity|].
  cbn [app utf8_items]. cbv zeta.
  destruct (N.ltb_spec (Byte.to_N x) 0x80) as [_|G]; [exact IH | lia].
Qed.

End EndFacts.
Import EndFacts.

(** For a tag that the pattern of the image tags matched, the ends of the
    callback that are there for a tag without [>] are never reached.  The
    tag that reaches the end of the callback (the matched tag when it has
    no src attribute, the value of [rewrite_src] otherwise) ends with [>],
    and what the callback returns is this tag with [/>] in the place of its
    last [>], or this tag itself when it already ended with [/>]. *)
Theorem tag_end_fallbacks_are_never_reached rnd content_parts st body m :
  pass1 rnd init content_parts = Some st ->
  search IMG body = Some m ->
  exists modified,
    match search SRC (matched body m) with
    | None => modified = matched body m
    | Some src_match =>
        rewrite_src
          (lookup (ref_map st)
             (decode_ignore (group_bytes (matched body m) src_match 2)))
          (matched body m)
        = Some modified
    end
    /\ endswith [GT] modified = true
    /\ fix_img_tag (ref_map st) (matched body m)
       = Some (if endswith SELF_CLOSE modified then modified
               else removelast modified ++ SELF_CLOSE).
Proof.
  intros H1 Hm. pose proof (img_match_ends _ _ Hm) as He.
  set (tag := matched body m) in *.
  destruct (fix_img_tag_total (ref_map st) tag (pass1_init_cids rnd _ _ H1) He)
    as [t' [F _]].
  unfold fix_img_tag in *.
  destruct (search SRC tag) as [sm|] eqn:Hs.
  - destruct (rewrite_src _ tag) as [modified|] eqn:R; [|discriminate].
    exists modified.
    pose proof (rewrite_src_end _ _ _ _ He Hs R) as Hg.
    split; [reflexivity|]. split; [exact Hg|].
    unfold close_tag. now rewrite Hg.
  - exists tag. split; [reflexivity|]. split; [exact He|].
    unfold close_plain. now rewrite He.
Qed.

(** The one tag of the markup part of [plain]. *)
Lemma tag_end_fallbacks_are_never_reached_witness :
  pass1 rnd0 init plain_parts = Some plain_state
  /\ search IMG (b "<p><img alt=x src='a.png'></p>") = Some (3, 26, [])
  /\ exists modified,
       endswith [GT] modified = true
       /\ fix_img_tag (ref_map plain_state)
            (matched (b "<p><img alt=x src='a.png'></p>") (3, 26, []))
          = Some (if endswith SELF_CLOSE modified then modified
                  else removelast modified ++ SELF_CLOSE).
Proof.
  assert (H1 : pass1 rnd0 init plain_parts = Some plain_state)
    by (vm_compute; reflexivity).
  assert (H2 : search IMG (b "<p><img alt=x src='a.png'></p>")
               = Some (3, 26, [])) by (vm_compute; reflexivity).
  destruct (tag_end_fallbacks_are_never_reached rnd0 plain_parts plain_state
              _ _ H1 H2) as [modified [_ [A B]]].
  split; [exact H1|]. split; [exact H2|]. exists modified.
  split; [exact A | exact B].
Defined.

(** The delimiter is decoded for a message (line 72) before anything else
    is done with it.  When the boundary value is ASCII this never raises;
    when the delimiter is not UTF-8 text the run ends there, with a decoding
    error and without output. *)
Theorem delimiter_message_raises_on_bad_bytes e content m :
  input_exists e = true -> input_read e = Some content ->
  search BOUNDARY content = Some m ->
  (decodable (boundary_of content m) = false ->
   run e = Result (Some UnicodeDecodeError) None)
  /\ (Forall (fun x => (Byte.to_N x < 0x80)%N) (group_bytes content m 1) ->
      decodable (boundary_of content m) = true
      /\ status (run e) <> Some UnicodeDecodeError).
Proof.
  intros Hx Hr Hb. unfold run, transform, process. rewrite Hx, Hr, Hb.
  simpl negb. cbv iota beta zeta. split.
  - intros ->. reflexivity.
  - intros Ha.
    assert (D : decodable (boundary_of content m) = true).
    { unfold boundary_of.
      rewrite (decodable_app_ascii (b "--")) by (repeat constructor).
      now apply ascii_decodable. }
    split; [exact D|]. rewrite D. simpl negb. cbv iota.
    destruct (pass1_total (uuid4 e)
                (content_parts_of (boundary_of content m) content) init)
      as [st H1].
    rewrite H1. destruct (html_part_info st) as [info|]; [|discriminate].
    destruct (pass2 st info) as [err|ps] eqn:P.
    + rewrite (pass2_error _ _ _ _ _ H1 P). discriminate.
    + destruct (output_open e); discriminate.
Qed.

(** A header whose boundary value is the byte FF. *)
Lemma delimiter_message_raises_on_bad_bytes_witness :
  search BOUNDARY bad_boundary = Some (33, 45, [(1, (43, 44)); (1, (43, 43))])
  /\ decodable
       (boundary_of bad_boundary (33, 45, [(1, (43, 44)); (1, (43, 43))]))
     = false
  /\ run (run_of bad_boundary) = Result (Some UnicodeDecodeError) None.
Proof.
  assert (H : search BOUNDARY bad_boundary
              = Some (33, 45, [(1, (43, 44)); (1, (43, 43))]))
    by (vm_compute; reflexivity).
  assert (D : decodable
                (boundary_of bad_boundary
                   (33, 45, [(1, (43, 44)); (1, (43, 43))])) = false)
    by (vm_compute; reflexivity).
  destruct (delimiter_message_raises_on_bad_bytes (run_of bad_boundary)
              bad_boundary _ eq_refl eq_refl H) as [K _].
  split; [exact H|]. split; [exact D | exact (K D)].
Defined.

(* ================================================================== *)
(** * Facts about the resolution of a reference and the draws *)

Module ResolveFacts.

Lemma dict_get_in k d v : dict_get k d = Some v -> In (k, v) d.
Proof.
  induction d as [|[k0 v0] d IH]; simpl; [discriminate|].
  destruct (str_eqb k k0) eqn:E.
  - apply str_eqb_eq in E. subst k0. intros [= <-]. now left.
  - intros H. right. now apply IH.
Qed.

Lemma by_basename_in name d v :
  by_basename name d = Some v -> exists k, In (k, v) d /\ basename k = name.
Proof.
  induction d as [|[k0 v0] d IH]; simpl; [discriminate|].
  destruct (str_eqb (basename k0) name) eqn:E.
  - apply str_eqb_eq in E. intros [= <-]. exists k0. split; [now left | exact E].
  - intros H. destruct (IH H) as [k [A B]]. exists k. split; [now right | exact B].
Qed.


End ResolveFacts.
Import ResolveFacts.

(** A reference resolves only to an entry of the map that answers to it:
    the identifier found is the one stored under the key looked up (the
    src value, without its [cid:] prefix in any letter case), or under a
    key with the same last path component. *)
Theorem resolved_reference_names_its_image d src_value v :
  lookup d src_value = Some v ->
  exists k, In (k, v) d
            /\ (k = key_of src_value
                \/ basename k = basename (key_of src_value)).
Proof.
  unfold lookup. cbv zeta.
  change (if str_startswith (s_ "cid:") (map lower_ascii src_value)
          then skipn 4 src_value else src_value) with (key_of src_value).
  destruct (truthy (dict_get (key_of src_value) d)).
  - intros H. apply dict_get_in in H. eauto.
  - destruct (by_basename _ d) as [w|] eqn:B.
    + intros [= <-]. destruct (by_basename_in _ _ _ B) as [k [A C]]. eauto.
    + intros H. apply dict_get_in in H. eauto.
Qed.

(** The reference [a.png] after pass 1 on the parts of [plain]. *)
Lemma resolved_reference_names_its_image_witness :
  lookup (ref_map plain_state) (s_ "a.png")
  = Some (s_ "a.png.00000000@mhtml.fixer")
  /\ exists k, In (k, s_ "a.png.00000000@mhtml.fixer") (ref_map plain_state)
               /\ (k = key_of (s_ "a.png")
                   \/ basename k = basename (key_of (s_ "a.png"))).
Proof.
  assert (H : lookup (ref_map plain_state) (s_ "a.png")
              = Some (s_ "a.png.00000000@mhtml.fixer"))
    by (vm_compute; reflexivity).
  split; [exact H|].
  exact (resolved_reference_names_its_image _ _ _ H).
Defined.



(* ================================================================== *)
(** * Facts about the image tags of the rewritten body *)

Module RescanFacts.

(** ** The matcher on the pattern of the image tags *)

Lemma exec_lit_ci inp l r : forall u s pos c,
  lower u = lower l ->
  exec inp (map (fun x => One (ci x)) l ++ r) (u ++ s) pos c
  = exec inp r s (pos + length l) c.
Proof.
  induction l as [|a l IH]; intros [|x u] s pos c H; try discriminate.
  - simpl. now rewrite Nat.add_0_r.
  - simpl in H. injection H as H1 H2.
    cbn [map app exec]. unfold ci at 1. rewrite H1, eqb_refl.
    rewrite (IH u s (S pos) c H2). f_equal. simpl. lia.
Qed.

(** A run of the class that stops at a byte outside the class. *)
Lemma greedy_run p (k : cont) x s c r : forall u pos,
  forallb p u = true -> p x = false ->
  k (x :: s) (pos + length u) c = Some r ->
  greedy p k (u ++ x :: s) pos c = Some r.
Proof.
  induction u as [|y u IH]; intros pos Hu Hx Hk.
  - simpl in *. rewrite Hx. now rewrite Nat.add_0_r in Hk.
  - simpl in Hu. apply andb_true_iff in Hu. destruct Hu as [Hy Hu].
    cbn [app greedy]. rewrite Hy.
    rewrite (IH (S pos) Hu Hx); [reflexivity|].
    rewrite <- Hk. f_equal. simpl. lia.
Qed.

Lemma none_of_gt x : none_of [GT] x = true <-> x <> GT.
Proof.
  unfold none_of. simpl. rewrite orb_false_r. split.
  - intros H ->. rewrite eqb_refl in H. discriminate.
  - intros H. destruct (eqb_spec x GT); [contradiction | reflexivity].
Qed.

Lemma exec_img_complete inp s w pos c :
  img_prefix s w -> exec inp IMG s pos c = Some (pos + length w, c).
Proof.
  intros [name [attrs [rest [-> [-> [Hn [Hne Ha]]]]]]].
  destruct attrs as [|a0 attrs]; [congruence|].
  simpl in Ha. apply andb_true_iff in Ha. destruct Ha as [Ha0 Ha].
  unfold IMG, lit_ci. rewrite <- !app_assoc.
  rewrite (exec_lit_ci inp (b "<img")) by (rewrite Hn; reflexivity).
  cbn [app exec]. rewrite Ha0.
  rewrite (greedy_run (none_of [GT])
             (exec inp [One (is_byte GT)]) GT rest c
             (pos + length (b "<img") + 1 + length attrs + 1, c)).
  - f_equal. f_equal. pose proof (lower_length name (b "<img") Hn) as L.
    rewrite !length_app. cbn [length]. rewrite ?length_app. cbn [length].
    rewrite L. change (length (b "<img")) with 4. lia.
  - exact Ha.
  - reflexivity.
  - cbn [exec]. unfold is_byte. rewrite eqb_refl. f_equal. f_equal.
    change (length (b "<img")) with 4. lia.
Qed.

Lemma exec_img_sound inp s pos c e c' :
  exec inp IMG s pos c = Some (e, c') ->
  exists w, img_prefix s w /\ e = pos + length w.
Proof.
  intros H. apply exec_sound in H. destruct H as [w [D ->]].
  exists w. split; [|reflexivity].
  destruct (derives_prefix _ _ _ _ _ _ _ D) as [rest Hs].
  unfold IMG, lit_ci in D. apply inv_lit_ci in D.
  destruct D as [name [s1 [w1 [_ [-> [Hname D]]]]]].
  apply inv_plus in D. destruct D as [attrs [s2 [w2 [_ [-> [Hattrs [Hne D]]]]]]].
  apply inv_one in D. destruct D as [x [s3 [w3 [_ [-> [Hx D]]]]]].
  apply inv_nil in D. destruct D as [-> _].
  unfold is_byte in Hx. apply Byte.byte_dec_bl in Hx. subst x.
  exists name, attrs, rest. auto.
Qed.

(** ** The leftmost match *)

Lemma search_from_inv inp r : forall s pos st e c,
  search_from inp r s pos = Some (st, e, c) ->
  exists t1 t2,
    s = t1 ++ t2 /\ st = pos + length t1
    /\ exec inp r t2 st [] = Some (e, c)
    /\ forall j, j < length t1 ->
         exec inp r (skipn j s) (pos + j) [] = None.
Proof.
  induction s as [|x s IH]; intros pos st e c H; simpl in H.
  - destruct (exec inp r [] pos []) as [[e1 c1]|] eqn:E; [|discriminate].
    injection H as <- <- <-. exists [], []. simpl. rewrite Nat.add_0_r.
    repeat split; auto. intros j Hj. lia.
  - destruct (exec inp r (x :: s) pos []) as [[e1 c1]|] eqn:E.
    + injection H as <- <- <-. exists [], (x :: s). simpl.
      rewrite Nat.add_0_r. repeat split; auto. intros j Hj. lia.
    + destruct (IH _ _ _ _ H) as [t1 [t2 [-> [-> [Hx Hn]]]]].
      exists (x :: t1), t2. simpl.
      split; [reflexivity|]. split; [lia|].
      split; [rewrite <- Hx; f_equal; lia|].
      intros [|j] Hj.
      * simpl. now rewrite Nat.add_0_r.
      * simpl. replace (pos + S j) with (S pos + j) by lia. apply Hn. lia.
Qed.

Lemma search_from_found inp r t2 e c : forall t1 pos,
  (forall j, j < length t1 ->
     exec inp r (skipn j (t1 ++ t2)) (pos + j) [] = None) ->
  exec inp r t2 (pos + length t1) [] = Some (e, c) ->
  search_from inp r (t1 ++ t2) pos = Some (pos + length t1, e, c).
Proof.
  induction t1 as [|x t1 IH]; intros pos Hn Hx.
  - simpl in *. rewrite Nat.add_0_r in *.
    destruct t2; simpl; now rewrite Hx.
  - cbn [app search_from].
    pose proof (Hn 0 ltac:(simpl; lia)) as H0. simpl in H0.
    rewrite Nat.add_0_r in H0. rewrite H0.
    rewrite (IH (S pos)).
    + f_equal. f_equal. f_equal. simpl. lia.
    + intros j Hj. specialize (Hn (S j) ltac:(simpl; lia)). simpl in Hn.
      now replace (S pos + j) with (pos + S j) by lia.
    + rewrite <- Hx. f_equal. simpl. lia.
Qed.

(** ** The tag that the callback returns *)

Lemma gt_free_app s t : gt_free (s ++ t) <-> gt_free s /\ gt_free t.
Proof. unfold gt_free. rewrite forallb_app. apply andb_true_iff. Qed.

Lemma gt_free_in s : gt_free s <-> ~ In GT s.
Proof.
  unfold gt_free. rewrite forallb_forall. split.
  - intros H I. apply H in I. now apply none_of_gt in I.
  - intros H x I. apply none_of_gt. intros ->. now apply H.
Qed.

Lemma cid_no_gt filename r : gt_free (ascii_bytes (make_cid filename r)).
Proof.
  apply gt_free_in. intros I. apply in_map_iff in I. destruct I as [c [E I]].
  pose proof (make_cid_chars filename r) as F.
  rewrite Forall_forall in F. specialize (F c I).
  pose proof (id_char_small c F) as S.
  destruct (byte_of_small c S) as [x Hx]. rewrite Hx in E. subst x.
  apply Byte.to_of_N in Hx. simpl in Hx. subst c. discriminate.
Qed.

(** The name of the tag holds no [>] and no letter s. *)
Lemma img_name name :
  lower name = b "<img" ->
  exists n1 n2 n3 n4,
    name = [n1; n2; n3; n4] /\ gt_free name
    /\ lower1 n1 = "<"%byte /\ lower1 n2 = "i"%byte
    /\ lower1 n3 = "m"%byte /\ lower1 n4 = "g"%byte.
Proof.
  intros H. destruct name as [|n1 [|n2 [|n3 [|n4 [|n5 name]]]]];
    try discriminate.
  injection H as H1 H2 H3 H4. exists n1, n2, n3, n4.
  split; [reflexivity|]. split; [|auto].
  apply gt_free_in.
  intros [E|[E|[E|[E|[]]]]]; subst; cbv in H1, H2, H3, H4; discriminate.
Qed.

(** The end of a tag made of a name, bytes other than [>] and [>]. *)
Lemma close_shape name attrs :
  attrs <> [] -> gt_free attrs ->
  exists attrs',
    close_tag (name ++ attrs ++ [GT]) = name ++ attrs' ++ [GT]
    /\ close_plain (name ++ attrs ++ [GT]) = name ++ attrs' ++ [GT]
    /\ attrs' <> [] /\ gt_free attrs'.
Proof.
  intros Hne Hg. unfold close_tag, close_plain.
  assert (E : endswith [GT] (name ++ attrs ++ [GT]) = true)
    by (rewrite app_assoc; apply endswith_app).
  rewrite E.
  destruct (endswith SELF_CLOSE (name ++ attrs ++ [GT])).
  - exists attrs. auto.
  - exists (attrs ++ [x2f]).
    rewrite (app_assoc name attrs [GT]), removelast_app_one.
    split; [app_norm|]. split; [app_norm|].
    split; [now destruct attrs|].
    apply gt_free_app. split; [exact Hg | reflexivity].
Qed.

(** The match of the src pattern lies between the name of the tag and its
    last byte. *)
Lemma src_inside name attrs st e c :
  lower name = b "<img" -> gt_free attrs ->
  search SRC (name ++ attrs ++ [GT]) = Some (st, e, c) ->
  exists a1 a2,
    firstn st (name ++ attrs ++ [GT]) = name ++ a1
    /\ skipn e (name ++ attrs ++ [GT]) = a2 ++ [GT]
    /\ gt_free a1 /\ gt_free a2.
Proof.
  intros Hn Hg Hs. set (tag := name ++ attrs ++ [GT]) in *.
  destruct (img_name _ Hn) as [n1 [n2 [n3 [n4 [En [Gn [L1 [L2 [L3 L4]]]]]]]]].
  destruct (src_match_end _ _ _ _ Hs) as [a [z [Hz T]]].
  assert (E : endswith [GT] tag = true)
    by (unfold tag; rewrite app_assoc; apply endswith_app).
  pose proof E as E'. rewrite T in E'.
  destruct (ends_after _ _ _ _ Hz E') as [a2 R].
  destruct (src_shape _ _ _ _ Hs)
    as [sname [ws1 [ws2 [q [value [Sh [Hsn _]]]]]]].
  destruct sname as [|s1 [|s2 [|s3 [|s4 sname]]]]; try discriminate.
  injection Hsn as K1 K2 K3.
  rewrite R in Sh.
  set (A := firstn st tag) in *.
  assert (All : gt_free (name ++ attrs))
    by (apply gt_free_app; split; assumption).
  assert (Cut : exists a1, A = name ++ a1).
  { unfold tag in Sh at 1. rewrite En in Sh.
    destruct A as [|x1 [|x2 [|x3 [|x4 a1]]]]; simpl in Sh;
      inversion Sh; subst; try congruence.
    exists a1. reflexivity. }
  destruct Cut as [a1 EA]. exists a1, a2.
  split; [exact EA|]. split; [exact R|].
  assert (Mid : name ++ attrs
                = A ++ ([s1; s2; s3] ++ ws1 ++ [EQUALS] ++ ws2 ++ q ++ value ++ q)
                  ++ a2).
  { apply (app_inj_tail _ _ GT GT). unfold tag in Sh.
    rewrite <- app_assoc. rewrite Sh at 1. app_norm. }
  rewrite Mid, EA in All.
  apply gt_free_app in All. destruct All as [All1 All2].
  apply gt_free_app in All1. destruct All1 as [_ G1].
  apply gt_free_app in All2. destruct All2 as [_ G2].
  split; assumption.
Qed.

(** What the callback returns for a tag of this shape is a tag of this
    shape, with the same name. *)
Lemma fix_img_tag_shape d name attrs tag' :
  cids d -> lower name = b "<img" -> attrs <> [] -> gt_free attrs ->
  fix_img_tag d (name ++ attrs ++ [GT]) = Some tag' ->
  exists attrs', tag' = name ++ attrs' ++ [GT] /\ attrs' <> []
                 /\ gt_free attrs'.
Proof.
  intros Hd Hn Hne Hg. unfold fix_img_tag.
  destruct (search SRC (name ++ attrs ++ [GT])) as [[[st e] c]|] eqn:Hs.
  - destruct (lookup d _) as [v|] eqn:L.
    + destruct (lookup_cids _ _ _ Hd L) as [f [r ->]].
      pose proof (rewrite_src_resolved _ _ _ _ f r Hs) as RR.
      set (attr := b "src=" ++ [DQUOTE] ++ b "cid:"
                     ++ ascii_bytes (make_cid f r) ++ [DQUOTE]) in RR.
      assert (Ga : gt_free attr).
      { unfold attr. repeat (apply gt_free_app; split);
          try reflexivity. apply cid_no_gt. }
      assert (Na : attr <> []) by (unfold attr; discriminate).
      clearbody attr. rewrite RR. intros [= <-].
      destruct (src_inside _ _ _ _ _ Hn Hg Hs) as [a1 [a2 [-> [-> [G1 G2]]]]].
      destruct (close_shape name (a1 ++ attr ++ a2)) as [attrs' [C [_ [N G]]]].
      * intros H. apply app_eq_nil in H. destruct H as [_ H].
        apply app_eq_nil in H. destruct H. contradiction.
      * apply gt_free_app. split; [exact G1|].
        apply gt_free_app. split; [exact Ga | exact G2].
      * exists attrs'. split; [|auto]. rewrite <- C. f_equal. app_norm.
    + simpl. intros [= <-].
      destruct (close_shape name attrs Hne Hg) as [attrs' [C [_ [N G]]]].
      eauto.
  - intros [= <-].
    destruct (close_shape name attrs Hne Hg) as [attrs' [_ [C [N G]]]].
    eauto.
Qed.

(** ** No tag begins in the text before a tag *)

Lemma first_gt s :
  In GT s -> exists u v, s = u ++ GT :: v /\ gt_free u.
Proof.
  induction s as [|x s IH]; [intros []|].
  destruct (eqb_spec x GT) as [->|Hx].
  - intros _. exists [], s. split; reflexivity.
  - intros [E|I]; [congruence|].
    destruct (IH I) as [u [v [-> G]]]. exists (x :: u), v.
    split; [reflexivity|]. unfold gt_free in *. simpl. rewrite G.
    now apply none_of_gt in Hx as ->.
Qed.

Lemma img_prefix_head s w :
  img_prefix s w ->
  exists a0, lower (firstn 4 s) = b "<img" /\ nth_error s 4 = Some a0
             /\ a0 <> GT.
Proof.
  intros [name [attrs [rest [-> [-> [Hn [Hne Ha]]]]]]].
  destruct (img_name _ Hn) as [n1 [n2 [n3 [n4 [-> _]]]]].
  destruct attrs as [|a0 attrs]; [congruence|].
  exists a0. simpl in Ha. apply andb_true_iff in Ha. destruct Ha as [Ha _].
  apply none_of_gt in Ha. auto.
Qed.

Lemma img_prefix_intro s a0 :
  lower (firstn 4 s) = b "<img" -> nth_error s 4 = Some a0 -> a0 <> GT ->
  In GT (skipn 5 s) -> exists w, img_prefix s w.
Proof.
  destruct s as [|y1 [|y2 [|y3 [|y4 [|y5 s]]]]]; try discriminate.
  cbn [firstn nth_error skipn]. intros Hn [= ->] Ha I.
  destruct (first_gt _ I) as [u [v [-> G]]].
  exists ([y1; y2; y3; y4] ++ (a0 :: u) ++ [GT]), [y1; y2; y3; y4], (a0 :: u), v.
  split; [app_norm|]. split; [reflexivity|]. split; [exact Hn|].
  split; [discriminate|]. unfold gt_free in G. simpl. rewrite G.
  now apply none_of_gt in Ha as ->.
Qed.

(** A tag that begins in the text before a tag begins there whatever
    bytes other than [>] the tag holds after its name. *)
Lemma no_tag_before t2 name attrs attrs' rest rest' w :
  t2 <> [] -> lower name = b "<img" ->
  img_prefix (t2 ++ (name ++ attrs' ++ [GT]) ++ rest') w ->
  exists w2, img_prefix (t2 ++ (name ++ attrs ++ [GT]) ++ rest) w2.
Proof.
  intros Ht Hn H. apply img_prefix_head in H.
  destruct H as [a0 [H4 [H5 H6]]].
  destruct (img_name _ Hn) as [n1 [n2 [n3 [n4 [-> [_ [L1 _]]]]]]].
  assert (N1 : n1 <> GT) by (intros ->; discriminate).
  destruct t2 as [|x1 [|x2 [|x3 [|x4 [|x5 t3]]]]]; [congruence| | | | |];
    cbn [app firstn nth_error] in H4, H5;
    try (injection H4 as _ K1 K2 K3; congruence).
  - apply (img_prefix_intro _ n1); cbn [app firstn nth_error skipn];
      [exact H4 | reflexivity | exact N1 |].
    do 3 right. apply in_or_app. left. apply in_or_app. right. now left.
  - apply (img_prefix_intro _ a0); cbn [app firstn nth_error skipn];
      [exact H4 | exact H5 | exact H6 |].
    apply in_or_app. right. do 4 right.
    apply in_or_app. left. apply in_or_app. right. now left.
Qed.

Lemma skipn_exact (A : Type) (l1 l2 : list A) :
  skipn (length l1) (l1 ++ l2) = l2.
Proof. rewrite skipn_app, skipn_all, Nat.sub_diag. reflexivity. Qed.

Lemma firstn_exact (A : Type) (l1 l2 : list A) :
  firstn (length l1) (l1 ++ l2) = l1.
Proof.
  rewrite firstn_app, firstn_all, Nat.sub_diag. simpl. apply app_nil_r.
Qed.

(** The leftmost tag of the data with a tag rewritten is this tag. *)
Lemma rescan_step inp st e c name attrs attrs' rest' :
  search IMG inp = Some (st, e, c) ->
  matched inp (st, e, c) = name ++ attrs ++ [GT] ->
  lower name = b "<img" ->
  attrs' <> [] -> gt_free attrs' ->
  exists m',
    search IMG (firstn st inp ++ (name ++ attrs' ++ [GT]) ++ rest') = Some m'
    /\ firstn (fst (fst m'))
         (firstn st inp ++ (name ++ attrs' ++ [GT]) ++ rest')
       = firstn st inp
    /\ matched (firstn st inp ++ (name ++ attrs' ++ [GT]) ++ rest') m'
       = name ++ attrs' ++ [GT]
    /\ skipn (snd (fst m'))
         (firstn st inp ++ (name ++ attrs' ++ [GT]) ++ rest')
       = rest'.
Proof.
  intros Hs Hm Hn Hne' Hg'.
  pose proof (search_cut _ _ _ _ _ Hs) as Cut. rewrite Hm in Cut.
  unfold search in Hs. apply search_from_inv in Hs.
  destruct Hs as [t1 [t2 [E [Est [_ None_before]]]]]. simpl in Est. subst st.
  assert (T1 : firstn (length t1) inp = t1)
    by (rewrite E; apply firstn_exact).
  rewrite T1 in *.
  assert (T2 : t2 = (name ++ attrs ++ [GT]) ++ skipn e inp).
  { rewrite E in Cut at 1. apply app_inv_head in Cut. rewrite Cut. app_norm. }
  set (tag' := name ++ attrs' ++ [GT]).
  set (inp' := t1 ++ tag' ++ rest').
  exists (length t1, length t1 + length tag', []).
  assert (P : img_prefix (tag' ++ rest') tag').
  { exists name, attrs', rest'. auto. }
  split; [|split; [|split]].
  - unfold search.
    change (length t1) with (0 + length t1) at 1.
    change (length t1 + length tag') with (0 + length t1 + length tag').
    apply search_from_found.
    + intros j Hj. change (0 + j) with j.
      destruct (exec inp' IMG (skipn j (t1 ++ tag' ++ rest')) j [])
        as [[e1 c1]|] eqn:X; [|reflexivity].
      exfalso. apply exec_img_sound in X. destruct X as [w [X _]].
      rewrite skipn_app in X.
      replace (j - length t1) with 0 in X by lia. simpl skipn in X.
      assert (Ne : skipn j t1 <> []).
      { intros K. apply (f_equal (@length byte)) in K.
        rewrite length_skipn in K. simpl in K. lia. }
      destruct (no_tag_before _ _ attrs _ (skipn e inp) _ _ Ne Hn X)
        as [w2 X2].
      pose proof (None_before j Hj) as Nb. change (0 + j) with j in Nb.
      rewrite E, skipn_app in Nb.
      replace (j - length t1) with 0 in Nb by lia. simpl skipn in Nb.
      rewrite T2 in Nb.
      rewrite (exec_img_complete _ _ _ j [] X2) in Nb. discriminate.
    + apply (exec_img_complete inp' _ _ (0 + length t1) [] P).
  - simpl fst. apply firstn_exact.
  - unfold matched. simpl fst. simpl snd. apply slice_mid.
  - simpl fst. simpl snd. unfold inp'. rewrite <- length_app, app_assoc.
    apply skipn_exact.
Qed.

(** ** The scan and its fuel *)

Lemma img_match_end inp st e c :
  search IMG inp = Some (st, e, c) -> 0 < e.
Proof.
  intros H. apply img_shape in H.
  destruct H as [name [attrs [_ [_ [_ [_ [_ ->]]]]]]].
  rewrite !length_app. simpl. lia.
Qed.

Lemma scan_scanned n : forall inp,
  length inp <= n ->
  scanned IMG inp (fst (scan_fuel n IMG inp)) (snd (scan_fuel n IMG inp)).
Proof.
  induction n as [|n IH]; intros inp L.
  - destruct inp; [|simpl in L; lia]. simpl. now constructor.
  - cbn [scan_fuel]. destruct (search IMG inp) as [[[st e] c]|] eqn:S.
    + simpl. apply (scanned_match IMG inp (st, e, c)); [exact S|].
      apply IH. simpl. rewrite length_skipn.
      pose proof (img_match_end _ _ _ _ S). lia.
    + simpl. now constructor.
Qed.

Lemma scanned_scan inp l last :
  scanned IMG inp l last ->
  forall n, length inp <= n -> scan_fuel n IMG inp = (l, last).
Proof.
  induction 1 as [inp S|inp [[st e] c] l last S _ IH]; intros n L.
  - destruct n; simpl; [reflexivity | now rewrite S].
  - pose proof (img_match_end _ _ _ _ S) as Pos.
    destruct n as [|n].
    + destruct inp; [discriminate S | simpl in L; lia].
    + cbn [scan_fuel]. rewrite S. simpl fst in *. simpl snd in *.
      rewrite (IH n); [reflexivity|]. rewrite length_skipn. lia.
Qed.

(** ** The tags of the rewritten body *)

Lemma rescan d :
  cids d -> forall inp l last,
  scanned IMG inp l last ->
  forall new_tags,
    Forall2 (fun tag tag' => fix_img_tag d tag = Some tag') (map snd l)
      new_tags ->
    scanned IMG (weave (map fst l) new_tags last)
      (combine (map fst l) new_tags) last.
Proof.
  intros Hd inp l last H.
  induction H as [inp S|inp [[st e] c] l last S _ IH]; intros new_tags F.
  - inversion F. simpl. now constructor.
  - simpl in F. inversion F as [|tag tag' tl new' Ft Fl]; subst.
    destruct (img_shape _ _ _ _ S) as [name [attrs [M [Hn [Hne [Hg _]]]]]].
    rewrite M in Ft.
    destruct (fix_img_tag_shape _ _ _ _ Hd Hn Hne Hg Ft)
      as [attrs' [-> [Hne' Hg']]].
    destruct (rescan_step inp st e c name attrs attrs'
                (weave (map fst l) new' last) S M Hn Hne' Hg')
      as [m' [S' [E1 [E2 E3]]]].
    cbn [map fst snd weave combine].
    pose proof (scanned_match IMG _ m' (combine (map fst l) new') last S')
      as K.
    rewrite E1, E2, E3 in K.
    apply K. now apply IH.
Qed.

End RescanFacts.
Import RescanFacts.

(** C4.  Whatever the parts of the archive were, the rewriting of a markup
    body returns; each image tag of the body is replaced by the value of
    the callback for it and the text between the tags is kept; and the
    image tags of the rewritten body, as the pattern of line 217 finds them
    there, are these values, in order, each ending with the self-closing
    marker: whether the tag had a src attribute or not, and whether its
    reference was resolved or not. *)
Theorem C4_matched_tags_end_self_closed rnd content_parts st body :
  pass1 rnd init content_parts = Some st ->
  exists body' new_tags,
    rewrite_body (ref_map st) body = Some body'
    /\ Forall2 (fun tag tag' => fix_img_tag (ref_map st) tag = Some tag')
         (tags IMG body) new_tags
    /\ body = weave (texts IMG body) (tags IMG body) (snd (scan IMG body))
    /\ body' = weave (texts IMG body) new_tags (snd (scan IMG body))
    /\ tags IMG body' = new_tags
    /\ Forall (fun tag' => endswith SELF_CLOSE tag' = true) (tags IMG body').
Proof.
  intros H. pose proof (pass1_init_cids rnd _ _ H) as Hd.
  destruct (sub_all_fuel_scan (ref_map st) (length body) Hd body)
    as [new_tags [F [Hb Hr]]].
  fold (scan IMG body) in F, Hb, Hr.
  set (l := fst (scan IMG body)) in *. set (last := snd (scan IMG body)) in *.
  assert (F1 : Forall2 (fun tag tag' => fix_img_tag (ref_map st) tag = Some tag')
                 (map snd l) new_tags).
  { eapply Forall2_impl; [|exact F]. now intros a b0 [K _]. }
  assert (F2 : Forall (fun tag' => endswith SELF_CLOSE tag' = true) new_tags).
  { clear - F. induction F as [|a b0 la lb [_ K] _ IH]; constructor; auto. }
  pose proof (scan_scanned (length body) body (le_n _)) as Sc.
  fold (scan IMG body) in Sc. fold l in Sc. fold last in Sc.
  pose proof (rescan _ Hd _ _ _ Sc new_tags F1) as Sc'.
  set (body' := weave (map fst l) new_tags last) in *.
  pose proof (scanned_scan _ _ _ Sc' (length body') (le_n _)) as E.
  fold (scan IMG body') in E.
  assert (T : tags IMG body' = new_tags).
  { unfold tags. rewrite E. simpl fst.
    pose proof (Forall2_length F1) as Len. rewrite length_map in Len.
    clear - Len. revert new_tags Len.
    induction l as [|x l IH]; intros [|t new_tags] Len;
      try discriminate; [reflexivity|].
    simpl. f_equal. apply IH. simpl in Len. lia. }
  exists body', new_tags.
  split; [exact Hr|]. split; [exact F1|]. split; [exact Hb|].
  split; [reflexivity|]. split; [exact T|]. rewrite T. exact F2.
Qed.

(** C4 at a body with two image tags, one with a src attribute that
    resolves and one without a src attribute. *)
Lemma C4_witness :
  pass1 rnd0 init plain_parts = Some plain_state
  /\ exists body',
       rewrite_body (ref_map plain_state)
         (b "<p><img alt=x src='a.png'></p><IMG x>") = Some body'
       /\ length (tags IMG body') = 2
       /\ Forall (fun tag' => endswith SELF_CLOSE tag' = true)
            (tags IMG body').
Proof.
  assert (H1 : pass1 rnd0 init plain_parts = Some plain_state)
    by (vm_compute; reflexivity).
  split; [exact H1|].
  destruct (C4_matched_tags_end_self_closed rnd0 plain_parts plain_state
              (b "<p><img alt=x src='a.png'></p><IMG x>") H1)
    as [body' [new_tags [R [F [_ [_ [T E]]]]]]].
  exists body'. split; [exact R|]. split; [|exact E].
  rewrite T. rewrite <- (Forall2_length F). vm_compute. reflexivity.
Defined.
